(** * friendly-number: significant digits, scaling, scales and formatting

    A shallow embedding of [src/significant-digits.ts], [src/scaling.ts],
    [src/scales.ts] and [src/formatting.ts].

    A JavaScript [number] is an IEEE 754 binary64 value, so it is modelled by
    Rocq's primitive [float]: [+], [-], [*], [/], the comparisons and
    [Math.abs] are the kernel's binary64 operations, bit for bit those of the
    host.  The remaining built-ins the library calls are defined below on the
    exact value of their argument:
    - [Math.floor], [Math.round], [Number.prototype.toExponential],
      [Set] insertion and [Array.prototype.sort] as ECMA-262 specifies them;
    - [Math.log10], which ECMA-262 leaves implementation-approximated apart
      from its boundary cases: the boundary cases are as specified, an exact
      power of ten gives its exponent, and the other results are computed to
      well below a unit in the last place before the final rounding;
    - [Math.pow], which is implementation-approximated too, as V8 (the
      engine of Node.js) computes it: the library multiplies and divides by
      its results, and the last bit of a result such as
      roundToSignificantDigits(0.001234, 2) depends on the last bit of
      [Math.pow(10, -4)].

    An array is a list.  The loop of generateScale whose number of pushes no
    argument bounds pushes as [Array.prototype.push] does, which fails on a
    full array; [steps] and [count] are taken small enough for the arrays of
    the counting loops to fit.

    [Intl.NumberFormat] is not modelled: formatFriendlyNumber is embedded up
    to the call it makes to it (the locales, the options object and the
    values), and the formatter itself is a parameter.

    Configuration fields that the library documents as integers
    ([significantDigits], [steps], [count], [decimals], the digit bounds of
    [ScaleOptions]) are integers of [Z]. *)

From Stdlib Require Import Ascii String ZArith List Bool Lia.
From Stdlib Require Import Sorted.
From Stdlib Require Import Floats.
Import ListNotations.

Set Warnings "-inexact-float".

Open Scope Z_scope.

(** ** Numbers *)

Definition number := float.

(** The double nearest to an integer ([ToNumber] of an integer literal). *)
Definition Z2F (z : Z) : number :=
  SF2Prim (binary_normalize prec emax z 0 false).

(** The double nearest to the rational [n / d], ties to even.  The quotient
    is taken with at least 66 bits and a sticky bit, so that the one rounding
    done by [binary_normalize] is the correct rounding of [n / d]. *)
Definition Q2F (n : Z) (d : positive) : number :=
  match n with
  | Z0 => 0%float
  | _ =>
    let a := Z.abs n in
    let s := Z.max 0 (66 + Z.log2 (Zpos d) - Z.log2 a) in
    let '(q, r) := Z.div_eucl (Z.shiftl a s) (Zpos d) in
    let q' := 2 * q + (if r =? 0 then 0 else 1) in
    let f := SF2Prim (binary_normalize prec emax q' (- (s + 1)) false) in
    if n <? 0 then (- f)%float else f
  end.

Definition isFinite (x : number) : bool := PrimFloat.is_finite x.

Definition Math_abs (x : number) : number := PrimFloat.abs x.

(** [x >= y] of JavaScript: false as soon as an operand is NaN. *)
Definition geb (x y : number) : bool := (y <=? x)%float.

(** [Math.floor]: NaN, the infinities, the zeros and integral values are
    returned as they are; a value in (0, 1) gives +0. *)
Definition Math_floor (x : number) : number :=
  match Prim2SF x with
  | S754_finite s m (Zneg k) =>
    let d := 2 ^ Zpos k in
    if s then Z2F (- ((Zpos m + d - 1) / d)) else Z2F (Zpos m / d)
  | _ => x
  end.

(** [Math.round]: the integer nearest to [x], the upper one when two are
    equally near (a tie goes toward +Infinity); a result of zero keeps the
    sign of [x]. *)
Definition Math_round (x : number) : number :=
  match Prim2SF x with
  | S754_finite s m (Zneg k) =>
    let d := 2 ^ Zpos k in
    let n := (2 * (if s then - Zpos m else Zpos m) + d) / (2 * d) in
    if n =? 0 then (if s then PrimFloat.neg_zero else 0%float) else Z2F n
  | _ => x
  end.

(** *** Decimal logarithm and powers of ten *)

(** [floor (log10 (a / b))], exactly: a first guess from the binary lengths,
    then at most a few steps up or down. *)
Definition pow10_le (k : Z) (a b : positive) : bool :=
  (* 10^k <= a / b *)
  if 0 <=? k then (10 ^ k * Zpos b <=? Zpos a) else (Zpos b <=? Zpos a * 10 ^ (- k)).

Fixpoint ilog10_up (fuel : nat) (k : Z) (a b : positive) : Z :=
  match fuel with
  | O => k
  | S fuel' => if pow10_le (k + 1) a b then ilog10_up fuel' (k + 1) a b else k
  end.

Fixpoint ilog10_down (fuel : nat) (k : Z) (a b : positive) : Z :=
  match fuel with
  | O => k
  | S fuel' => if pow10_le k a b then k else ilog10_down fuel' (k - 1) a b
  end.

Definition ilog10 (a b : positive) : Z :=
  let t := Z.log2 (Zpos a) - Z.log2 (Zpos b) in
  let k0 := (t * 30103) / 100000 in
  ilog10_up 4 (ilog10_down 4 k0 a b) a b.

(** Binary digits of [log10 y] for [1 <= y < 10], [y] in fixed point with
    [frac] fractional bits: square, and divide by ten when the square
    reaches ten.  Each step yields one more digit. *)
Fixpoint log10_digits (frac : Z) (n : nat) (y acc : Z) : Z :=
  match n with
  | O => acc
  | S n' =>
    let y2 := Z.shiftr (y * y) frac in
    if 10 * 2 ^ frac <=? y2
    then log10_digits frac n' (y2 / 10) (2 * acc + 1)
    else log10_digits frac n' y2 (2 * acc)
  end.

(** The number of binary digits of the fractional part of [log10 x] that
    are computed when the integer part is [k]: 72 when the result has an
    integer part to carry the leading bits, and 130 for [0.1 <= x < 10],
    where the result can be as small as 2^-55.  Either way the error before
    the final rounding is below 2^-17 units in the last place. *)
Definition log10_result_bits (k : Z) : nat :=
  if (k =? 0) || (k =? -1) then 130%nat else 72%nat.

(** [Math.log10].  Boundary cases as in ECMA-262: NaN and negative arguments
    give NaN, a zero gives -Infinity, +Infinity gives +Infinity, an exact
    power of ten gives its exponent. *)
Definition Math_log10 (x : number) : number :=
  match Prim2SF x with
  | S754_nan => PrimFloat.nan
  | S754_zero _ => PrimFloat.neg_infinity
  | S754_infinity s => if s then PrimFloat.nan else PrimFloat.infinity
  | S754_finite true _ _ => PrimFloat.nan
  | S754_finite false m e =>
    let a := match e with Zpos p => (m * 2 ^ p)%positive | _ => m end in
    let b := match e with Zneg p => (2 ^ p)%positive | _ => 1%positive end in
    let k := ilog10 a b in
    let num := if 0 <=? k then Zpos a else Zpos a * 10 ^ (- k) in
    let den := if 0 <=? k then Zpos b * 10 ^ k else Zpos b in
    if num =? den then Z2F k
    else
      let bits := log10_result_bits k in
      let p := Z.of_nat bits in
      let frac := p + 40 in
      let y := Z.shiftl num frac / den in
      let digits := log10_digits frac bits y 0 in
      Q2F (2 * (k * 2 ^ p + digits) + 1) (2 ^ Z.to_pos (p + 1))%positive
  end.

(** *** Math.pow

    ECMA-262 fixes the boundary cases of [Math.pow] and leaves the other
    results implementation-approximated, and engines differ in the last bit:
    at some integral exponents V8 does not return the double nearest to the
    exact power ([Math.pow(10, -4)] is [0x1.a36e2eb1c432cp-14], the double
    below [0.0001]).  The library's roundings multiply and divide by these
    powers, so the function is modelled as V8 computes it, operation by
    operation: [base::ieee754::legacy::pow], which is fdlibm's
    [__ieee754_pow] with the last quotient written
    [Divide(z * t1, (t1 - two) - (w + z * w))].

    The library only calls [Math.pow(10, y)].  The routine is followed with
    [x = 10]: the branches it takes only for a base that is negative, zero,
    infinite, one, subnormal or within [2^-20] of one are left out, and the
    sign [s] of the result is [one]. *)

Module ieee754.

(** The 64 bits of a double (sign, biased exponent, fraction), and the
    double of 64 bits.  NaN has the bits of the quiet NaN. *)
Definition bits (x : number) : Z :=
  match Prim2SF x with
  | S754_zero s => if s then 2 ^ 63 else 0
  | S754_infinity s => (if s then 2 ^ 63 else 0) + 0x7ff0000000000000
  | S754_nan => 0x7ff8000000000000
  | S754_finite s m e =>
    (if s then 2 ^ 63 else 0)
    + (if Zpos m <? 2 ^ 52 then Zpos m
       else (e + 1075) * 2 ^ 52 + (Zpos m - 2 ^ 52))
  end.

Definition of_bits (b : Z) : number :=
  let s := Z.testbit b 63 in
  let E := Z.land (Z.shiftr b 52) 0x7ff in
  let f := Z.land b (2 ^ 52 - 1) in
  if E =? 0 then
    match f with
    | Zpos m => SF2Prim (S754_finite s m (-1074))
    | _ => SF2Prim (S754_zero s)
    end
  else if E =? 0x7ff then
    (if f =? 0 then SF2Prim (S754_infinity s) else PrimFloat.nan)
  else
    match 2 ^ 52 + f with
    | Zpos m => SF2Prim (S754_finite s m (E - 1075))
    | _ => PrimFloat.nan
    end.

(** The 32-bit signed integer of the low 32 bits of [n]. *)
Definition int32 (n : Z) : Z :=
  let w := Z.land n 0xffffffff in
  if w <? 2 ^ 31 then w else w - 2 ^ 32.

(** The two 32-bit words of a double: the high word as a signed integer
    ([int]), the low word as an unsigned one. *)
Definition GET_HIGH_WORD (x : number) : Z := int32 (Z.shiftr (bits x) 32).
Definition GET_LOW_WORD (x : number) : Z := Z.land (bits x) 0xffffffff.
Definition INSERT_WORDS (hi lo : Z) : number :=
  of_bits (Z.lor (Z.shiftl (Z.land hi 0xffffffff) 32) (Z.land lo 0xffffffff)).
Definition SET_HIGH_WORD (x : number) (hi : Z) : number :=
  INSERT_WORDS hi (GET_LOW_WORD x).
Definition SET_LOW_WORD (x : number) (lo : Z) : number :=
  INSERT_WORDS (GET_HIGH_WORD x) lo.

(** [scalbn z n] is [z * 2^n], rounded once. *)
Definition scalbn (z : number) (n : Z) : number :=
  match Prim2SF z with
  | S754_finite s m e =>
    SF2Prim (binary_normalize prec emax (if s then Zneg m else Zpos m) (e + n) false)
  | _ => z
  end.

Local Open Scope float_scope.

Definition bp (k : Z) : number := if (k =? 0)%Z then 1.0 else 1.5.
Definition dp_h (k : Z) : number :=
  if (k =? 0)%Z then 0.0 else 5.84962487220764160156e-01.
Definition dp_l (k : Z) : number :=
  if (k =? 0)%Z then 0.0 else 1.35003920212974897128e-08.
Definition zero : number := 0.0.
Definition one : number := 1.0.
Definition two : number := 2.0.
Definition huge : number := 1.0e300.
Definition tiny : number := 1.0e-300.
Definition L1 : number := 5.99999999999994648725e-01.
Definition L2 : number := 4.28571428578550184252e-01.
Definition L3 : number := 3.33333329818377432918e-01.
Definition L4 : number := 2.72728123808534006489e-01.
Definition L5 : number := 2.30660745775561754067e-01.
Definition L6 : number := 2.06975017800338417784e-01.
Definition P1 : number := 1.66666666666666019037e-01.
Definition P2 : number := -2.77777777770155933842e-03.
Definition P3 : number := 6.61375632143793436117e-05.
Definition P4 : number := -1.65339022054652515390e-06.
Definition P5 : number := 4.13813679705723846039e-08.
Definition lg2 : number := 6.93147180559945286227e-01.
Definition lg2_h : number := 6.93147182464599609375e-01.
Definition lg2_l : number := -1.90465429995776804525e-09.
Definition ovt : number := 8.0085662595372944372e-17.
Definition cp : number := 9.61796693925975554329e-01.
Definition cp_h : number := 9.61796700954437255859e-01.
Definition cp_l : number := -7.02846165095275826516e-09.
Definition ivln2 : number := 1.44269504088896338700e+00.
Definition ivln2_h : number := 1.44269502162933349609e+00.
Definition ivln2_l : number := 1.92596299112661746887e-08.

(** [log2 ax] as a sum [t1 + t2], [t1] with a low word of zero, for a
    normal [ax] of high word [ix]. *)
Definition pow_log2 (ax : number) (ix : Z) : number * number :=
  let n := ((Z.shiftr ix 20) - 0x3ff)%Z in
  let j := Z.land ix 0x000fffff in
  (* determine interval *)
  let ix := Z.lor j 0x3ff00000 in
  let '(k, n, ix) :=
    if (j <=? 0x3988E)%Z then (0, n, ix)%Z
    else if (j <? 0xBB67A)%Z then (1, n, ix)%Z
    else (0, n + 1, ix - 0x00100000)%Z in
  let ax := SET_HIGH_WORD ax ix in
  (* compute ss = s_h+s_l = (x-1)/(x+1) or (x-1.5)/(x+1.5) *)
  let u := ax - bp k in
  let v := one / (ax + bp k) in
  let ss := u * v in
  let s_h := SET_LOW_WORD ss 0 in
  (* t_h=ax+bp[k] High *)
  let t_h :=
    SET_HIGH_WORD zero
      (Z.lor (Z.shiftr ix 1) 0x20000000 + 0x00080000 + Z.shiftl k 18)%Z in
  let t_l := ax - (t_h - bp k) in
  let s_l := v * ((u - s_h * t_h) - s_h * t_l) in
  (* compute log(ax) *)
  let s2 := ss * ss in
  let r := s2 * s2 * (L1 + s2 * (L2 + s2 * (L3 + s2 * (L4 + s2 * (L5 + s2 * L6))))) in
  let r := r + s_l * (s_h + ss) in
  let s2 := s_h * s_h in
  let t_h := SET_LOW_WORD (3.0 + s2 + r) 0 in
  let t_l := r - ((t_h - 3.0) - s2) in
  (* u+v = ss*(1+...) *)
  let u := s_h * t_h in
  let v := s_l * t_h + t_l * ss in
  (* 2/(3log2)*(ss+...) *)
  let p_h := SET_LOW_WORD (u + v) 0 in
  let p_l := v - (p_h - u) in
  let z_h := cp_h * p_h in
  let z_l := cp_l * p_h + p_l * cp + dp_l k in
  (* log2(ax) = (ss+..)*2/(3*log2) = n + dp_h + z_h + z_l *)
  let t := Z2F n in
  let t1 := SET_LOW_WORD (((z_h + z_l) + dp_h k) + t) 0 in
  let t2 := z_l - (((t1 - t) - dp_h k) - z_h) in
  (t1, t2).

(** [2^(p_h + p_l)], where [j] is the high word of [p_l + p_h]: the sum is
    split into an integer [n] and a remainder, the exponential of the
    remainder is a rational approximation, and [n] is added to the exponent
    field. *)
Definition pow_exp2 (j : Z) (p_h p_l : number) : number :=
  let i := Z.land j 0x7fffffff in
  let k := (Z.shiftr i 20 - 0x3ff)%Z in
  let '(n, p_h) :=
    if (0x3fe00000 <? i)%Z then
      (* if |z| > 0.5, set n = [z+0.5] *)
      let n := int32 (j + Z.shiftr 0x00100000 (k + 1)) in
      let k := (Z.shiftr (Z.land n 0x7fffffff) 20 - 0x3ff)%Z in (* new k for n *)
      let t := SET_HIGH_WORD zero (Z.land n (Z.lnot (Z.shiftr 0x000fffff k))) in
      let n := Z.shiftr (Z.lor (Z.land n 0x000fffff) 0x00100000) (20 - k) in
      let n := if (j <? 0)%Z then (- n)%Z else n in
      (n, p_h - t)
    else (0%Z, p_h) in
  let t := SET_LOW_WORD (p_l + p_h) 0 in
  let u := t * lg2_h in
  let v := (p_l - (t - p_h)) * lg2 + t * lg2_l in
  let z := u + v in
  let w := v - (z - u) in
  let t := z * z in
  let t1 := z - t * (P1 + t * (P2 + t * (P3 + t * (P4 + t * P5)))) in
  let r := (z * t1) / ((t1 - two) - (w + z * w)) in
  let z := one - (r - z) in
  let j := (GET_HIGH_WORD z + Z.shiftl n 20)%Z in
  if (Z.shiftr j 20 <=? 0)%Z
  then scalbn z n (* subnormal output *)
  else SET_HIGH_WORD z j.

(** [x^y] from [log2 x = t1 + t2], for a positive [x]. *)
Definition pow_of_log2 (y t1 t2 : number) : number :=
  (* split up y into y1+y2 and compute (y1+y2)*(t1+t2) *)
  let y1 := SET_LOW_WORD y 0 in
  let p_l := (y - y1) * t1 + y * t2 in
  let p_h := y1 * t1 in
  let z := p_l + p_h in
  let j := GET_HIGH_WORD z in
  let i := GET_LOW_WORD z in
  if (0x40900000 <=? j)%Z then (* z >= 1024 *)
    if negb (Z.lor (j - 0x40900000) i =? 0)%Z (* if z > 1024 *)
    then huge * huge (* overflow *)
    else if z - p_h <? p_l + ovt then huge * huge (* overflow *)
    else pow_exp2 j p_h p_l
  else if (0x4090cc00 <=? Z.land j 0x7fffffff)%Z then (* z <= -1075 *)
    if negb (Z.lor (j - int32 0xc090cc00) i =? 0)%Z (* z < -1075 *)
    then tiny * tiny (* underflow *)
    else if p_l <=? z - p_h then tiny * tiny (* underflow *)
    else pow_exp2 j p_h p_l
  else pow_exp2 j p_h p_l.

(** [Math.pow(10, y)]. *)
Definition pow10 (y : number) : number :=
  let x : number := 10.0 in
  let hx := GET_HIGH_WORD x in
  let hy := GET_HIGH_WORD y in
  let ly := GET_LOW_WORD y in
  let ix := Z.land hx 0x7fffffff in
  let iy := Z.land hy 0x7fffffff in
  (* y==zero: x**0 = 1 *)
  if (Z.lor iy ly =? 0)%Z then one
  (* +-NaN return x+y *)
  else if (0x7ff00000 <? iy)%Z || ((iy =? 0x7ff00000)%Z && negb (ly =? 0)%Z)
  then x + y
  (* special value of y *)
  else if (ly =? 0)%Z && (iy =? 0x7ff00000)%Z
  then (if (0 <=? hy)%Z then y else zero) (* (|x|>1)**+-inf = inf,0 *)
  else if (ly =? 0)%Z && (iy =? 0x3ff00000)%Z
  then (if (hy <? 0)%Z then one / x else x) (* y is +-1 *)
  else if (ly =? 0)%Z && (hy =? 0x40000000)%Z then x * x (* y is 2 *)
  else if (ly =? 0)%Z && (hy =? 0x3fe00000)%Z then sqrt x (* y is 0.5 *)
  (* |y| is huge: over/underflow if x is not close to one *)
  else if (0x41e00000 <? iy)%Z
  then (if (0 <? hy)%Z then huge * huge else tiny * tiny)
  else
    let '(t1, t2) := pow_log2 (abs x) ix in
    pow_of_log2 y t1 t2.

End ieee754.

(** [Math.pow(10, y)], the only base the library uses.  Boundary cases as in
    ECMA-262: NaN gives NaN, a zero exponent gives 1, +Infinity gives
    +Infinity and -Infinity gives +0. *)
Definition Math_pow10 (y : number) : number := ieee754.pow10 y.

(** *** Number.prototype.toExponential() *)

Definition digit_char (d : Z) : ascii :=
  ascii_of_nat (48 + Z.to_nat d).

(** The decimal digits of a positive integer, most significant first.  The
    first argument only bounds the recursion: each step divides by ten, so
    the binary length of the number is more than enough. *)
Fixpoint decimal_digits_from (fuel : positive) (n : Z) (acc : list ascii)
  : list ascii :=
  let acc' := digit_char (n mod 10) :: acc in
  if n <? 10 then acc'
  else
    match fuel with
    | xH => acc'
    | xO fuel' | xI fuel' => decimal_digits_from fuel' (n / 10) acc'
    end.

Definition decimal_digits (n : positive) : list ascii :=
  decimal_digits_from n (Zpos n) [].

(** [n * 10^q] rounded to the nearest double. *)
Definition decimal_to_number (n : Z) (q : Z) : number :=
  if 0 <=? q then Q2F (n * 10 ^ q) 1 else Q2F n (Z.to_pos (10 ^ (- q))).

(** The integer nearest to [a / b * 10^q] and its other neighbour. *)
Definition scaled_candidates (a b : positive) (q : Z) : Z * Z :=
  let num := if 0 <=? q then Zpos a * 10 ^ q else Zpos a in
  let den := if 0 <=? q then Zpos b else Zpos b * 10 ^ (- q) in
  let lo := num / den in
  if 2 * (num mod den) <? den then (lo, lo + 1) else (lo + 1, lo).

(** Step 10.b of toExponential when [fractionDigits] is undefined: integers
    [n], [e] and the least [f >= 0] with [10^f <= n < 10^(f+1)] such that
    [n * 10^(e-f)] rounds to [x]; among the candidates for one [f] the nearer
    to [x] is tried first.  Seventeen digits always identify a double. *)
Fixpoint shortest_decimal (todo : nat) (f : Z) (x : number) (a b : positive)
  (e : Z) : positive * Z :=
  let '(c1, c2) := scaled_candidates a b (f - e) in
  let fits c :=
    (10 ^ f <=? c) && (c <=? 10 ^ (f + 1)) &&
    (decimal_to_number c (e - f) =? x)%float in
  let pick c :=
    if c =? 10 ^ (f + 1) then (Z.to_pos (10 ^ f), e + 1) else (Z.to_pos c, e) in
  if fits c1 then pick c1
  else if fits c2 then pick c2
  else
    match todo with
    | O => pick c1
    | S todo' => shortest_decimal todo' (f + 1) x a b e
    end.

(** The digits [n] and the exponent [e] that toExponential prints for a
    finite [x > 0]. *)
Definition exponential_form (x : number) : positive * Z :=
  match Prim2SF x with
  | S754_finite _ m e =>
    let a := match e with Zpos p => (m * 2 ^ p)%positive | _ => m end in
    let b := match e with Zneg p => (2 ^ p)%positive | _ => 1%positive end in
    shortest_decimal 16 0 x a b (ilog10 a b)
  | _ => (1%positive, 0)
  end.

Definition mantissa_digits (x : number) : list ascii :=
  decimal_digits (fst (exponential_form x)).

Definition toExponential (x : number) : string :=
  if negb (isFinite x) then
    (if PrimFloat.is_nan x then "NaN"
     else if (x <? 0)%float then "-Infinity" else "Infinity")%string
  else
    let s := if (x <? 0)%float then "-"%string else ""%string in
    let x := Math_abs x in
    if (x =? 0)%float then (s ++ "0e+0")%string
    else
      let '(n, e) := exponential_form x in
      let m :=
        match decimal_digits n with
        | [] => ""%string
        | [a] => String a ""
        | a :: b => String a (String "." (string_of_list_ascii b))
        end in
      let c := if 0 <=? e then "+"%string else "-"%string in
      let d := string_of_list_ascii (decimal_digits (Z.to_pos (Z.abs e))) in
      let d := if e =? 0 then "0"%string else d in
      (s ++ m ++ "e" ++ c ++ d)%string.

(** *** Strings, sets and arrays *)

(** [s.split(c)] for a one-character separator. *)
Fixpoint String_split (c : ascii) (s : string) : list string :=
  match s with
  | EmptyString => [EmptyString]
  | String a s' =>
    if Ascii.eqb a c then EmptyString :: String_split c s'
    else
      match String_split c s' with
      | [] => [String a EmptyString]
      | piece :: pieces => String a piece :: pieces
      end
  end.

(** [s.replace(c, '')]: the first occurrence of [c] is removed. *)
Fixpoint String_remove_first (c : ascii) (s : string) : string :=
  match s with
  | EmptyString => EmptyString
  | String a s' => if Ascii.eqb a c then s' else String a (String_remove_first c s')
  end.

(** The SameValueZero comparison of [Set]: NaN equals NaN, +0 equals -0. *)
Definition SameValueZero (x y : number) : bool :=
  (x =? y)%float || (PrimFloat.is_nan x && PrimFloat.is_nan y).

(** [[...new Set(xs)]]: the first occurrence of each value, in insertion
    order; [Set.prototype.add] stores -0 as +0. *)
Definition Set_key (x : number) : number :=
  if (x =? 0)%float then 0%float else x.

Fixpoint Set_add (x : number) (s : list number) : list number :=
  match s with
  | [] => [Set_key x]
  | y :: s' => if SameValueZero y x then s else y :: Set_add x s'
  end.

Definition Set_of (xs : list number) : list number :=
  fold_left (fun s x => Set_add x s) xs [].

(** [xs.sort(comparefn)]: a stable insertion sort.  As in ECMA-262's
    SortCompare a comparator result of NaN counts as +0, so only a result
    below zero moves an element in front of another.  ECMA-262 fixes the
    outcome only for a consistent comparator; for one that is not (NaN among
    the elements) the order is the implementation's. *)
Fixpoint sort_insert (comparefn : number -> number -> number) (x : number)
  (sorted : list number) : list number :=
  match sorted with
  | [] => [x]
  | y :: sorted' =>
    if (comparefn x y <? 0)%float then x :: sorted
    else y :: sort_insert comparefn x sorted'
  end.

Definition Array_sort (comparefn : number -> number -> number)
  (xs : list number) : list number :=
  fold_left (fun sorted x => sort_insert comparefn x sorted) xs [].

(** The integers [lo, lo + 1, ..., hi] of a counting [for] loop. *)
Definition Zrange (lo hi : Z) : list Z :=
  map (fun k => lo + Z.of_nat k) (seq 0 (Z.to_nat (hi - lo + 1))).

(** ** significant-digits.ts *)

Open Scope float_scope.

(** The body of the counting loop of countSignificantDigits. *)
Definition count_step (st : Z * bool) (digit : ascii) : Z * bool :=
  let '(count, foundNonZero) := st in
  let foundNonZero :=
    if negb (Ascii.eqb digit "0") then true else foundNonZero in
  if foundNonZero then ((count + 1)%Z, foundNonZero) else (count, foundNonZero).

Definition countSignificantDigits (value : number) : Z :=
  if negb (isFinite value) || (value =? 0) then 0%Z
  else
    let absValue := Math_abs value in
    let str := toExponential absValue in
    let mantissa := hd EmptyString (String_split "e" str) in
    let digits := String_remove_first "-" (String_remove_first "." mantissa) in
    fst (fold_left count_step (list_ascii_of_string digits) (0%Z, false)).

Definition roundToSignificantDigits (value : number) (significantDigits : Z)
  : number :=
  if negb (isFinite value) || (value =? 0) || (significantDigits <=? 0)%Z
  then value
  else
    let absValue := Math_abs value in
    let magnitude := Math_floor (Math_log10 absValue) in
    let scale := Math_pow10 (magnitude - Z2F significantDigits + 1) in
    Math_round (value / scale) * scale.

Definition roundToHalfSignificantDigits (value : number) (significantDigits : Z)
  : number :=
  if negb (isFinite value) || (value =? 0) || (significantDigits <=? 0)%Z
  then value
  else
    let absValue := Math_abs value in
    let magnitude := Math_floor (Math_log10 absValue) in
    let scale := Math_pow10 (magnitude - Z2F significantDigits + 1) in
    let normalized := value / scale in
    let rounded := Math_round (normalized * 2) / 2 in
    rounded * scale.

Inductive SignificantDigitsMode := full | half.

Record SignificantDigitsOptions := { mode : option SignificantDigitsMode }.

Definition toSignificantDigits (value : number) (significantDigits : Z)
  (options : SignificantDigitsOptions) : number :=
  match match mode options with Some m => m | None => full end with
  | half => roundToHalfSignificantDigits value significantDigits
  | full => roundToSignificantDigits value significantDigits
  end.

(** ** scaling.ts *)

Record ScaleOptions := {
  preserveSignificantDigits : option bool;
  minSignificantDigits : option Z;
  maxSignificantDigits : option Z
}.

Definition default_ScaleOptions : ScaleOptions :=
  {| preserveSignificantDigits := None;
     minSignificantDigits := None;
     maxSignificantDigits := None |}.

Definition or_default {A} (o : option A) (d : A) : A :=
  match o with Some a => a | None => d end.

Definition scaleNumber (value ratio : number) (options : ScaleOptions) : number :=
  let preserve := or_default (preserveSignificantDigits options) true in
  let minSD := or_default (minSignificantDigits options) 1%Z in
  let maxSD := or_default (maxSignificantDigits options) 15%Z in
  let scaled := value * ratio in
  if negb preserve then scaled
  else
    let originalSigDigits := countSignificantDigits value in
    let targetSigDigits := Z.max minSD (Z.min maxSD originalSigDigits) in
    roundToSignificantDigits scaled targetSigDigits.

Definition scaleNumberInverse (value ratio : number) (options : ScaleOptions)
  : number :=
  scaleNumber value (1 / ratio) options.

(** ** scales.ts *)

Inductive ScaleProgression := linear | exponential | friendly.

Inductive ScaleRounding := none | significant | halfRounding | friendlyRounding.

Record GenerateScaleOptions := {
  progression : option ScaleProgression;
  rounding : option ScaleRounding;
  significantDigits : option Z;
  steps : option Z;
  includeStart : option bool;
  includeEnd : option bool
}.

Definition default_GenerateScaleOptions : GenerateScaleOptions :=
  {| progression := None; rounding := None; significantDigits := None;
     steps := None; includeStart := None; includeEnd := None |}.

Definition roundToFriendlyNumber (value : number) : number :=
  if value =? 0 then 0
  else
    let absValue := Math_abs value in
    let magnitude := Math_floor (Math_log10 absValue) in
    let normalized := absValue / Math_pow10 magnitude in
    let friendly :=
      if normalized <=? 1 then 1
      else if normalized <=? 2 then 2
      else if normalized <=? 2.5 then 2.5
      else if normalized <=? 5 then 5
      else 10 in
    let result := friendly * Math_pow10 magnitude in
    if value <? 0 then - result else result.

Definition applyRounding (value : number) (rounding : ScaleRounding)
  (significantDigits : Z) : number :=
  match rounding with
  | none => value
  | significant => roundToSignificantDigits value significantDigits
  | halfRounding => roundToHalfSignificantDigits value significantDigits
  | friendlyRounding => roundToFriendlyNumber value
  end.

(** What a call does: it returns, it throws, or the model's iteration budget
    ran out before it did either. *)
Inductive outcome (A : Type) :=
  | Return (a : A)
  | Throw (message : string)
  | OutOfFuel.
Arguments Return {A} a.
Arguments Throw {A} message.
Arguments OutOfFuel {A}.

(** The error the specification calls InvalidRange. *)
Definition InvalidRange {A} : outcome A := Throw "Start must be less than end".

(** [Array.prototype.push].  The length of an array is below [2^32]: on an
    array of [2^32 - 1] elements the assignment to [length] that ends push
    raises [RangeError: Invalid array length] (ECMA-262, ArraySetLength).
    An engine may give up earlier, with the same error. *)
Definition Array_max_length : Z := (2 ^ 32 - 1)%Z.

Definition RangeError {A} : outcome A := Throw "Invalid array length".

Definition Array_push (scale : list number) (value : number)
  : outcome (list number) :=
  if (Z.of_nat (length scale) <? Array_max_length)%Z
  then Return (scale ++ [value])
  else RangeError.

(** The multiplier chosen in one iteration of the friendly loop. *)
Definition nextMultiplier (current : number) : number :=
  let magnitude := Math_floor (Math_log10 current) in
  let normalized := current / Math_pow10 magnitude in
  if normalized <? 1.5 then 2
  else if normalized <? 2.25 then 2.5
  else if normalized <? 4 then 2
  else if normalized <? 7.5 then 2
  else 2.

(** The value [current] takes in one iteration of the friendly loop. *)
Definition friendly_next (current : number) : number :=
  roundToFriendlyNumber (current * nextMultiplier current).

(** The [while (current < end)] loop of the friendly progression; [fuel]
    bounds the number of iterations the model runs.  The number of values
    the loop pushes is not bounded by an argument, so its pushes are those
    of an array, which can be full. *)
Fixpoint friendly_loop (fuel : nat) (end_ : number) (includeEnd : bool)
  (current : number) (scale : list number) : outcome (list number) :=
  if current <? end_ then
    match fuel with
    | O => OutOfFuel
    | S fuel' =>
      let current := friendly_next current in
      match
        (if current <? end_ then Array_push scale current
         else if includeEnd then Array_push scale (roundToFriendlyNumber end_)
         else Return scale)
      with
      | Return scale => friendly_loop fuel' end_ includeEnd current scale
      | Throw message => Throw message
      | OutOfFuel => OutOfFuel
      end
    end
  else Return scale.

(** The points collected by [generateScale], before the final
    deduplication and sort.  In the friendly branch the source also computes
    [logStart], [logEnd], [range], [friendlyMultipliers] and
    [multiplierIndex], none of which is read afterwards.  The counting loops
    push [steps + 2] values at most, and [steps] is taken small enough for
    them to fit in an array; the first push of the friendly branch is on an
    empty array. *)
Definition generateScale_points (fuel : nat) (start end_ : number)
  (progression : ScaleProgression) (rounding : ScaleRounding)
  (significantDigits steps : Z) (includeStart includeEnd : bool)
  : outcome (list number) :=
  match progression with
  | linear =>
    let step := (end_ - start) / (Z2F steps + 1) in
    let scale := [] in
    let scale :=
      if includeStart
      then scale ++ [applyRounding start rounding significantDigits]
      else scale in
    let scale :=
      fold_left
        (fun scale i =>
           let value := start + step * Z2F i in
           scale ++ [applyRounding value rounding significantDigits])
        (Zrange 1 steps) scale in
    let scale :=
      if includeEnd
      then scale ++ [applyRounding end_ rounding significantDigits]
      else scale in
    Return scale
  | exponential =>
    let logStart := Math_log10 start in
    let logEnd := Math_log10 end_ in
    let logStep := (logEnd - logStart) / (Z2F steps + 1) in
    let scale := [] in
    let scale :=
      if includeStart
      then scale ++ [applyRounding start rounding significantDigits]
      else scale in
    let scale :=
      fold_left
        (fun scale i =>
           let value := Math_pow10 (logStart + logStep * Z2F i) in
           scale ++ [applyRounding value rounding significantDigits])
        (Zrange 1 steps) scale in
    let scale :=
      if includeEnd
      then scale ++ [applyRounding end_ rounding significantDigits]
      else scale in
    Return scale
  | friendly =>
    let scale := [] in
    let scale :=
      if includeStart then scale ++ [roundToFriendlyNumber start] else scale in
    let current := start in
    friendly_loop fuel end_ includeEnd current scale
  end.

Definition generateScale (fuel : nat) (start end_ : number)
  (options : GenerateScaleOptions) : outcome (list number) :=
  let progression := or_default (progression options) friendly in
  let rounding := or_default (rounding options) friendlyRounding in
  let significantDigits := or_default (significantDigits options) 2%Z in
  let steps := or_default (steps options) 10%Z in
  let includeStart := or_default (includeStart options) true in
  let includeEnd := or_default (includeEnd options) true in
  if geb start end_ then InvalidRange
  else
    match generateScale_points fuel start end_ progression rounding
            significantDigits steps includeStart includeEnd with
    | Return scale => Return (Array_sort PrimFloat.sub (Set_of scale))
    | Throw message => Throw message
    | OutOfFuel => OutOfFuel
    end.

Definition generateScaleFromBaseline (baseline : number) (count : Z)
  (options : GenerateScaleOptions) : list number :=
  let progression := or_default (progression options) friendly in
  let rounding := or_default (rounding options) friendlyRounding in
  let significantDigits := or_default (significantDigits options) 2%Z in
  let scale := [applyRounding baseline rounding significantDigits] in
  match progression with
  | linear =>
    fold_left
      (fun scale i =>
         let value := baseline * (Z2F i + 1) in
         scale ++ [applyRounding value rounding significantDigits])
      (Zrange 1 (count - 1)) scale
  | exponential =>
    fold_left
      (fun scale i =>
         let value := baseline * Math_pow10 (Z2F i) in
         scale ++ [applyRounding value rounding significantDigits])
      (Zrange 1 (count - 1)) scale
  | friendly =>
    let multipliers := [2; 2.5; 2] in
    snd (fold_left
           (fun (st : number * Z * list number) (i : Z) =>
              let '(current, multiplierIndex, scale) := st in
              let current :=
                current *
                nth (Z.to_nat (multiplierIndex mod Z.of_nat (length multipliers)))
                    multipliers nan in
              (current, (multiplierIndex + 1)%Z,
               scale ++ [applyRounding current rounding significantDigits]))
           (Zrange 1 (count - 1)) (baseline, 0%Z, scale))
  end.

(** ** formatting.ts *)

(** The options of [Intl.NumberFormat] that the library reads or writes.
    The fields it never touches travel in [others]. *)
Module Intl.

Inductive Notation :=
  | notation_standard
  | notation_scientific
  | notation_engineering
  | notation_compact.

Inductive SignDisplay :=
  sign_auto | sign_never | sign_always | sign_exceptZero | sign_negative.

Inductive Style := style_decimal | style_percent | style_currency | style_unit.

Inductive CurrencyDisplay :=
  currency_symbol | currency_narrowSymbol | currency_code | currency_name.

Inductive CurrencySign := currencySign_standard | currencySign_accounting.

Inductive UnitDisplay := unit_short | unit_long | unit_narrow.

Inductive CompactDisplay := compact_short | compact_long.

Record NumberFormatOptions := {
  notation : option Notation;
  signDisplay : option SignDisplay;
  style : option Style;
  currency : option string;
  unit : option string;
  currencyDisplay : option CurrencyDisplay;
  currencySign : option CurrencySign;
  unitDisplay : option UnitDisplay;
  compactDisplay : option CompactDisplay;
  minimumFractionDigits : option Z;
  maximumFractionDigits : option Z;
  others : list (string * string)
}.

(** The object [{}]. *)
Definition empty : NumberFormatOptions :=
  {| notation := None; signDisplay := None; style := None; currency := None;
     unit := None; currencyDisplay := None; currencySign := None;
     unitDisplay := None; compactDisplay := None;
     minimumFractionDigits := None; maximumFractionDigits := None;
     others := [] |}.

(** The assignment [o.field = v], one definition for each field the library
    assigns. *)
Definition set_notation (v : option Notation) (o : NumberFormatOptions)
  : NumberFormatOptions :=
  {| notation := v; signDisplay := signDisplay o; style := style o;
     currency := currency o; unit := unit o;
     currencyDisplay := currencyDisplay o; currencySign := currencySign o;
     unitDisplay := unitDisplay o; compactDisplay := compactDisplay o;
     minimumFractionDigits := minimumFractionDigits o;
     maximumFractionDigits := maximumFractionDigits o; others := others o |}.

Definition set_signDisplay (v : option SignDisplay) (o : NumberFormatOptions)
  : NumberFormatOptions :=
  {| notation := notation o; signDisplay := v; style := style o;
     currency := currency o; unit := unit o;
     currencyDisplay := currencyDisplay o; currencySign := currencySign o;
     unitDisplay := unitDisplay o; compactDisplay := compactDisplay o;
     minimumFractionDigits := minimumFractionDigits o;
     maximumFractionDigits := maximumFractionDigits o; others := others o |}.

Definition set_style (v : option Style) (o : NumberFormatOptions)
  : NumberFormatOptions :=
  {| notation := notation o; signDisplay := signDisplay o; style := v;
     currency := currency o; unit := unit o;
     currencyDisplay := currencyDisplay o; currencySign := currencySign o;
     unitDisplay := unitDisplay o; compactDisplay := compactDisplay o;
     minimumFractionDigits := minimumFractionDigits o;
     maximumFractionDigits := maximumFractionDigits o; others := others o |}.

Definition set_currency (v : option string) (o : NumberFormatOptions)
  : NumberFormatOptions :=
  {| notation := notation o; signDisplay := signDisplay o; style := style o;
     currency := v; unit := unit o; currencyDisplay := currencyDisplay o;
     currencySign := currencySign o; unitDisplay := unitDisplay o;
     compactDisplay := compactDisplay o;
     minimumFractionDigits := minimumFractionDigits o;
     maximumFractionDigits := maximumFractionDigits o; others := others o |}.

Definition set_unit (v : option string) (o : NumberFormatOptions)
  : NumberFormatOptions :=
  {| notation := notation o; signDisplay := signDisplay o; style := style o;
     currency := currency o; unit := v; currencyDisplay := currencyDisplay o;
     currencySign := currencySign o; unitDisplay := unitDisplay o;
     compactDisplay := compactDisplay o;
     minimumFractionDigits := minimumFractionDigits o;
     maximumFractionDigits := maximumFractionDigits o; others := others o |}.

Definition set_currencyDisplay (v : option CurrencyDisplay)
  (o : NumberFormatOptions) : NumberFormatOptions :=
  {| notation := notation o; signDisplay := signDisplay o; style := style o;
     currency := currency o; unit := unit o; currencyDisplay := v;
     currencySign := currencySign o; unitDisplay := unitDisplay o;
     compactDisplay := compactDisplay o;
     minimumFractionDigits := minimumFractionDigits o;
     maximumFractionDigits := maximumFractionDigits o; others := others o |}.

Definition set_currencySign (v : option CurrencySign) (o : NumberFormatOptions)
  : NumberFormatOptions :=
  {| notation := notation o; signDisplay := signDisplay o; style := style o;
     currency := currency o; unit := unit o;
     currencyDisplay := currencyDisplay o; currencySign := v;
     unitDisplay := unitDisplay o; compactDisplay := compactDisplay o;
     minimumFractionDigits := minimumFractionDigits o;
     maximumFractionDigits := maximumFractionDigits o; others := others o |}.

Definition set_unitDisplay (v : option UnitDisplay) (o : NumberFormatOptions)
  : NumberFormatOptions :=
  {| notation := notation o; signDisplay := signDisplay o; style := style o;
     currency := currency o; unit := unit o;
     currencyDisplay := currencyDisplay o; currencySign := currencySign o;
     unitDisplay := v; compactDisplay := compactDisplay o;
     minimumFractionDigits := minimumFractionDigits o;
     maximumFractionDigits := maximumFractionDigits o; others := others o |}.

Definition set_compactDisplay (v : option CompactDisplay)
  (o : NumberFormatOptions) : NumberFormatOptions :=
  {| notation := notation o; signDisplay := signDisplay o; style := style o;
     currency := currency o; unit := unit o;
     currencyDisplay := currencyDisplay o; currencySign := currencySign o;
     unitDisplay := unitDisplay o; compactDisplay := v;
     minimumFractionDigits := minimumFractionDigits o;
     maximumFractionDigits := maximumFractionDigits o; others := others o |}.

Definition set_minimumFractionDigits (v : option Z) (o : NumberFormatOptions)
  : NumberFormatOptions :=
  {| notation := notation o; signDisplay := signDisplay o; style := style o;
     currency := currency o; unit := unit o;
     currencyDisplay := currencyDisplay o; currencySign := currencySign o;
     unitDisplay := unitDisplay o; compactDisplay := compactDisplay o;
     minimumFractionDigits := v;
     maximumFractionDigits := maximumFractionDigits o; others := others o |}.

Definition set_maximumFractionDigits (v : option Z) (o : NumberFormatOptions)
  : NumberFormatOptions :=
  {| notation := notation o; signDisplay := signDisplay o; style := style o;
     currency := currency o; unit := unit o;
     currencyDisplay := currencyDisplay o; currencySign := currencySign o;
     unitDisplay := unitDisplay o; compactDisplay := compactDisplay o;
     minimumFractionDigits := minimumFractionDigits o;
     maximumFractionDigits := v; others := others o |}.

(** A formatter: its [format] method and, where the host has it, its
    [formatRange] method. *)
Record NumberFormat := {
  format : number -> string;
  formatRange : option (number -> number -> outcome string)
}.

End Intl.

Module formatting.

Inductive DisplayStyle := standard | short | long.

(** [string | string[]] *)
Inductive Locales := tag (locale : string) | tags (locales : list string).

(** ['auto' | number | { min?: number; max?: number }] *)
Inductive Decimals :=
  | auto
  | fixed (n : Z)
  | bounds (min max : option Z).

(** [number | [number, number]] *)
Inductive Value :=
  | single (value : number)
  | range (start end_ : number).

Record FriendlyNumberOptions := {
  locale : option Locales;
  display : option DisplayStyle;
  sign : option bool;
  currency : option string;
  code : option bool;
  accounting : option bool;
  unit : option string;
  percent : option bool;
  significantDigits : option Z;
  decimals : option Decimals;
  format : option Intl.NumberFormatOptions
}.


(** A string used as a condition: undefined and the empty string are
    falsy. *)
Definition truthy (s : option string) : bool :=
  match s with
  | Some s => negb (String.eqb s "")
  | None => false
  end.

Definition getIntelligentMaxDecimals (value : number) (compact : bool) : Z :=
  let absValue := Math_abs value in
  if compact then
    if geb absValue 1000 then 2%Z
    else if geb absValue 100 then 1%Z
    else if geb absValue 10 then 1%Z
    else 2%Z
  else
    if geb absValue 1000 then 0%Z
    else if geb absValue 100 then 0%Z
    else if geb absValue 10 then 1%Z
    else if geb absValue 1 then 2%Z
    else if geb absValue 0.01 then 3%Z
    else 4%Z.

(** The object returned by resolveDisplayOptions. *)
Record DisplayOptions := {
  notation : Intl.Notation;
  currencyDisplay : option Intl.CurrencyDisplay;
  unitDisplay : option Intl.UnitDisplay;
  compactDisplay : option Intl.CompactDisplay;
  currencySign : option Intl.CurrencySign
}.

Definition result_with_notation (n : Intl.Notation) (r : DisplayOptions) :=
  {| notation := n; currencyDisplay := currencyDisplay r;
     unitDisplay := unitDisplay r; compactDisplay := compactDisplay r;
     currencySign := currencySign r |}.

Definition result_with_currencyDisplay (d : Intl.CurrencyDisplay)
  (r : DisplayOptions) :=
  {| notation := notation r; currencyDisplay := Some d;
     unitDisplay := unitDisplay r; compactDisplay := compactDisplay r;
     currencySign := currencySign r |}.

Definition result_with_unitDisplay (d : Intl.UnitDisplay)
  (r : DisplayOptions) :=
  {| notation := notation r; currencyDisplay := currencyDisplay r;
     unitDisplay := Some d; compactDisplay := compactDisplay r;
     currencySign := currencySign r |}.

Definition result_with_compactDisplay (d : Intl.CompactDisplay)
  (r : DisplayOptions) :=
  {| notation := notation r; currencyDisplay := currencyDisplay r;
     unitDisplay := unitDisplay r; compactDisplay := Some d;
     currencySign := currencySign r |}.

Definition result_with_currencySign (d : Intl.CurrencySign)
  (r : DisplayOptions) :=
  {| notation := notation r; currencyDisplay := currencyDisplay r;
     unitDisplay := unitDisplay r; compactDisplay := compactDisplay r;
     currencySign := Some d |}.

Definition resolveDisplayOptions (display : option DisplayStyle)
  (currency unit : option string) (code accounting : bool)
  (value : option number) : DisplayOptions :=
  let result :=
    {| notation := Intl.notation_standard; currencyDisplay := None;
       unitDisplay := None; compactDisplay := None; currencySign := None |} in
  let isCompact :=
    match display with
    | Some short | Some long => true
    | _ => false
    end in
  let result :=
    if isCompact then
      let compact_result :=
        result_with_compactDisplay
          match display with
          | Some long => Intl.compact_long
          | _ => Intl.compact_short
          end
          (result_with_notation Intl.notation_compact result) in
      match value with
      | Some value =>
        if match display with Some short => true | _ => false end
           && negb (truthy currency) && negb (truthy unit)
        then
          let absValue := Math_abs value in
          if (0 <? absValue) && (absValue <? 1)
          then result_with_notation Intl.notation_scientific result
          else
            result_with_compactDisplay Intl.compact_short
              (result_with_notation Intl.notation_compact result)
        else compact_result
      | None => compact_result
      end
    else result in
  if truthy currency then
    let result :=
      if accounting
      then result_with_currencySign Intl.currencySign_accounting result
      else result in
    if code then result_with_currencyDisplay Intl.currency_code result
    else
      match display with
      | Some standard =>
        result_with_currencyDisplay Intl.currency_symbol result
      | Some short =>
        result_with_currencyDisplay Intl.currency_narrowSymbol result
      | Some long => result_with_currencyDisplay Intl.currency_name result
      | None => result_with_currencyDisplay Intl.currency_symbol result
      end
  else if truthy unit then
    match display with
    | Some short | Some standard =>
      result_with_unitDisplay Intl.unit_short result
    | Some long => result_with_unitDisplay Intl.unit_long result
    | None => result_with_unitDisplay Intl.unit_short result
    end
  else result.

(** A field of the custom format that is read as a condition
    ([!format?.notation]): every value such a field can hold is a string
    that is not empty, so it is falsy exactly when it is undefined. *)
Definition unset {A} (field : option A) : bool :=
  match field with
  | Some _ => false
  | None => true
  end.

(** What formatFriendlyNumber hands to [Intl.NumberFormat]: the locales, the
    options object and the value or values to format. *)
Record Call := {
  call_locales : Locales;
  call_options : Intl.NumberFormatOptions;
  call_value : Value
}.

(** formatFriendlyNumber up to the construction of the formatter: the
    destructuring of the options, [formatOptions] as it stands when
    [new Intl.NumberFormat(locale, formatOptions)] is evaluated, and the
    processed value or values. *)
Definition formatFriendlyNumber_call (value : Value)
  (options : FriendlyNumberOptions) : Call :=
  let locale := or_default (locale options) (tag "en-US") in
  let display := display options in
  let sign := or_default (sign options) false in
  let currency := currency options in
  let code := or_default (code options) false in
  let accounting := or_default (accounting options) false in
  let unit := unit options in
  let percent := or_default (percent options) false in
  let significantDigits := significantDigits options in
  let decimals := or_default (decimals options) auto in
  let format := format options in
  let singleValue :=
    match value with
    | range start _ => start
    | single value => value
    end in
  let formatOptions := or_default format Intl.empty in
  let custom := or_default format Intl.empty in
  let displayOptions :=
    resolveDisplayOptions display currency unit code accounting
      (Some singleValue) in
  let isCompact :=
    match notation displayOptions with
    | Intl.notation_compact => true
    | _ => false
    end in
  let formatOptions :=
    if unset (Intl.notation custom)
    then Intl.set_notation (Some (notation displayOptions)) formatOptions
    else formatOptions in
  let formatOptions :=
    if unset (Intl.signDisplay custom)
    then
      Intl.set_signDisplay
        (Some (if sign then Intl.sign_exceptZero else Intl.sign_auto))
        formatOptions
    else formatOptions in
  let formatOptions :=
    if unset (Intl.style custom) then
      if truthy currency then
        Intl.set_currency currency
          (Intl.set_style (Some Intl.style_currency) formatOptions)
      else if truthy unit then
        Intl.set_unit unit
          (Intl.set_style (Some Intl.style_unit) formatOptions)
      else if percent then
        Intl.set_style (Some Intl.style_percent) formatOptions
      else formatOptions
    else formatOptions in
  let formatOptions :=
    match currencyDisplay displayOptions with
    | Some d =>
      if unset (Intl.currencyDisplay custom)
      then Intl.set_currencyDisplay (Some d) formatOptions
      else formatOptions
    | None => formatOptions
    end in
  let formatOptions :=
    match currencySign displayOptions with
    | Some d =>
      if unset (Intl.currencySign custom)
      then Intl.set_currencySign (Some d) formatOptions
      else formatOptions
    | None => formatOptions
    end in
  let formatOptions :=
    match unitDisplay displayOptions with
    | Some d =>
      if unset (Intl.unitDisplay custom)
      then Intl.set_unitDisplay (Some d) formatOptions
      else formatOptions
    | None => formatOptions
    end in
  let formatOptions :=
    match compactDisplay displayOptions with
    | Some d =>
      if unset (Intl.compactDisplay custom)
      then Intl.set_compactDisplay (Some d) formatOptions
      else formatOptions
    | None => formatOptions
    end in
  let rounded (value : number) : number :=
    match significantDigits with
    | Some significantDigits =>
      if (0 <? significantDigits)%Z
      then roundToSignificantDigits value significantDigits
      else value
    | None => value
    end in
  match value with
  | range start end_ =>
    let processedStart := rounded start in
    let processedEnd := rounded end_ in
    let formatOptions :=
      match decimals with
      | auto =>
        let maxDecimalsStart := getIntelligentMaxDecimals processedStart isCompact in
        let maxDecimalsEnd := getIntelligentMaxDecimals processedEnd isCompact in
        Intl.set_minimumFractionDigits (Some 0%Z)
          (Intl.set_maximumFractionDigits
             (Some (Z.max maxDecimalsStart maxDecimalsEnd)) formatOptions)
      | fixed n =>
        Intl.set_maximumFractionDigits (Some n)
          (Intl.set_minimumFractionDigits (Some n) formatOptions)
      | bounds min max =>
        let formatOptions :=
          match min with
          | Some min => Intl.set_minimumFractionDigits (Some min) formatOptions
          | None => formatOptions
          end in
        match max with
        | Some max => Intl.set_maximumFractionDigits (Some max) formatOptions
        | None => formatOptions
        end
      end in
    {| call_locales := locale; call_options := formatOptions;
       call_value := range processedStart processedEnd |}
  | single value =>
    let processedValue := rounded value in
    let formatOptions :=
      match decimals with
      | auto =>
        let maxDecimals := getIntelligentMaxDecimals processedValue isCompact in
        Intl.set_minimumFractionDigits (Some 0%Z)
          (Intl.set_maximumFractionDigits (Some maxDecimals) formatOptions)
      | fixed n =>
        Intl.set_maximumFractionDigits (Some n)
          (Intl.set_minimumFractionDigits (Some n) formatOptions)
      | bounds min max =>
        let formatOptions :=
          match min with
          | Some min => Intl.set_minimumFractionDigits (Some min) formatOptions
          | None => formatOptions
          end in
        match max with
        | Some max => Intl.set_maximumFractionDigits (Some max) formatOptions
        | None => formatOptions
        end
      end in
    {| call_locales := locale; call_options := formatOptions;
       call_value := single processedValue |}
  end.

Section Host.

(** [new Intl.NumberFormat(locales, options)] of the host, which throws a
    RangeError on options it rejects. *)
Variable Intl_NumberFormat :
  Locales -> Intl.NumberFormatOptions -> outcome Intl.NumberFormat.


End Host.

End formatting.

(** ** Definitions used to state the properties *)

(** The normalized mantissa that the friendly loop computes for [current]. *)
Definition normalized_mantissa (current : number) : number :=
  current / Math_pow10 (Math_floor (Math_log10 current)).

(** [x] clamped into [[lo, hi]]. *)
Definition clamp (lo hi x : Z) : Z :=
  if (x <? lo)%Z then lo else if (hi <? x)%Z then hi else x.

(** A sequence in which each value is below the next. *)
Definition strictly_ascending (l : list number) : Prop :=
  StronglySorted (fun x y => (x <? y) = true) l.

Definition default_options_with (p : ScaleProgression) (r : option ScaleRounding)
  : GenerateScaleOptions :=
  {| progression := Some p; rounding := r; significantDigits := None;
     steps := None; includeStart := None; includeEnd := None |}.

(** The characters '0' to '9'. *)
Definition is_digit (c : ascii) : Prop :=
  exists d, (0 <= d <= 9)%Z /\ c = digit_char d.

(** [q] is exactly half-way between two consecutive integers. *)
Definition is_half_way (q : number) : bool :=
  match Prim2SF q with
  | S754_finite _ m (Zneg k) => (2 * (Zpos m mod 2 ^ Zpos k) =? 2 ^ Zpos k)%Z
  | _ => false
  end.

(** The scale that roundToSignificantDigits computes for [value]. *)
Definition rounding_scale (value : number) (significantDigits : Z) : number :=
  Math_pow10
    (Math_floor (Math_log10 (Math_abs value)) - Z2F significantDigits + 1).

(** No two positions of the list hold the same value (as [Set] compares
    values). *)
Definition distinct_values (l : list number) : Prop :=
  ForallOrdPairs (fun x y => SameValueZero x y = false) l.

(** [x] is finite or infinite, not a zero and not NaN, and has the sign
    [s]. *)
Definition signed_nonzero (s : bool) (x : spec_float) : Prop :=
  match x with
  | S754_finite s' _ _ | S754_infinity s' => s' = s
  | _ => False
  end.

(** The exact value of a finite double, in units of 2^-1074 (the least
    positive double): every finite double is an integer in this unit. *)
Definition ulps (x : number) : option Z :=
  match Prim2SF x with
  | S754_zero _ => Some 0%Z
  | S754_finite s m e =>
    Some ((if s then - Zpos m else Zpos m) * 2 ^ (e + 1074))%Z
  | _ => None
  end.

(** [z] is exactly the product of [x] and [y]: all three are finite and
    no rounding separates [z] from [x * y]. *)
Definition exact_product (x y z : number) : Prop :=
  match ulps x, ulps y, ulps z with
  | Some a, Some b, Some c => (a * b = c * 2 ^ 1074)%Z
  | _, _, _ => False
  end.

Definition no_preservation : ScaleOptions :=
  {| preserveSignificantDigits := Some false;
     minSignificantDigits := None;
     maxSignificantDigits := None |}.

(** The rounding that generateScale applies to its two bounds: the friendly
    progression always uses roundToFriendlyNumber, the other two use the
    rounding of the options. *)
Definition endpoint_rounding (options : GenerateScaleOptions) (value : number)
  : number :=
  match or_default (progression options) friendly with
  | friendly => roundToFriendlyNumber value
  | _ =>
    applyRounding value (or_default (rounding options) friendlyRounding)
      (or_default (significantDigits options) 2%Z)
  end.

(** The point that the loop of the linear or of the exponential progression
    computes for [i]. *)
Definition counting_point (p : ScaleProgression) (start end_ : number)
  (r : ScaleRounding) (sd st : Z) (i : Z) : number :=
  match p with
  | exponential =>
    applyRounding
      (Math_pow10
         (Math_log10 start
          + (Math_log10 end_ - Math_log10 start) / (Z2F st + 1) * Z2F i))
      r sd
  | _ => applyRounding (start + (end_ - start) / (Z2F st + 1) * Z2F i) r sd
  end.

(** The most points the counting loops of generateScale collect. *)
Definition points_bound (options : GenerateScaleOptions) : nat :=
  ((if or_default (includeStart options) true then 1 else 0)
   + Z.to_nat (or_default (steps options) 10%Z)
   + (if or_default (includeEnd options) true then 1 else 0))%nat.

(** [options] with other values for the fields that only the linear and the
    exponential progression read. *)
Definition with_rounding (options : GenerateScaleOptions)
  (r : option ScaleRounding) (sd st : option Z) : GenerateScaleOptions :=
  {| progression := progression options; rounding := r;
     significantDigits := sd; steps := st;
     includeStart := includeStart options;
     includeEnd := includeEnd options |}.

(** The running value of the friendly progression of
    generateScaleFromBaseline after [i] steps: the baseline multiplied by 2,
    2.5 and 2 in turn. *)
Fixpoint baseline_current (i : nat) (baseline : number) : number :=
  match i with
  | O => baseline
  | S i' => baseline_current i' baseline * nth (i' mod 3) [2; 2.5; 2] nan
  end.

(** The display options that formatFriendlyNumber resolves for [value]: the
    first value of a range stands for the range. *)
Definition resolved_display (value : formatting.Value)
  (options : formatting.FriendlyNumberOptions) : formatting.DisplayOptions :=
  formatting.resolveDisplayOptions
    (formatting.display options) (formatting.currency options)
    (formatting.unit options)
    (or_default (formatting.code options) false)
    (or_default (formatting.accounting options) false)
    (Some match value with
          | formatting.single value => value
          | formatting.range start _ => start
          end).

Definition is_compact (d : formatting.DisplayOptions) : bool :=
  match formatting.notation d with
  | Intl.notation_compact => true
  | _ => false
  end.


(** The larger of the automatic decimals of the values. *)
Definition auto_decimals (value : formatting.Value) (compact : bool) : Z :=
  match value with
  | formatting.single v => formatting.getIntelligentMaxDecimals v compact
  | formatting.range a b =>
    Z.max (formatting.getIntelligentMaxDecimals a compact)
          (formatting.getIntelligentMaxDecimals b compact)
  end.


(** The conditional assignments of formatFriendlyNumber, one definition for
    each shape: a value assigned unless the custom format has the field; a
    resolved display option assigned if it is set and the custom format does
    not have the field; the style; the fraction digits. *)
Definition assign_unless {A} (custom : option A) (v : A)
  (set : option A -> Intl.NumberFormatOptions -> Intl.NumberFormatOptions)
  (formatOptions : Intl.NumberFormatOptions) : Intl.NumberFormatOptions :=
  if formatting.unset custom then set (Some v) formatOptions else formatOptions.

Definition assign_resolved {A} (resolved custom : option A)
  (set : option A -> Intl.NumberFormatOptions -> Intl.NumberFormatOptions)
  (formatOptions : Intl.NumberFormatOptions) : Intl.NumberFormatOptions :=
  match resolved with
  | Some d =>
    if formatting.unset custom then set (Some d) formatOptions
    else formatOptions
  | None => formatOptions
  end.

Definition assign_style (custom : option Intl.Style)
  (currency unit : option string) (percent : bool)
  (formatOptions : Intl.NumberFormatOptions) : Intl.NumberFormatOptions :=
  if formatting.unset custom then
    if formatting.truthy currency then
      Intl.set_currency currency
        (Intl.set_style (Some Intl.style_currency) formatOptions)
    else if formatting.truthy unit then
      Intl.set_unit unit (Intl.set_style (Some Intl.style_unit) formatOptions)
    else if percent then
      Intl.set_style (Some Intl.style_percent) formatOptions
    else formatOptions
  else formatOptions.

Definition assign_decimals (decimals : formatting.Decimals) (automatic : Z)
  (formatOptions : Intl.NumberFormatOptions) : Intl.NumberFormatOptions :=
  match decimals with
  | formatting.auto =>
    Intl.set_minimumFractionDigits (Some 0%Z)
      (Intl.set_maximumFractionDigits (Some automatic) formatOptions)
  | formatting.fixed n =>
    Intl.set_maximumFractionDigits (Some n)
      (Intl.set_minimumFractionDigits (Some n) formatOptions)
  | formatting.bounds min max =>
    let formatOptions :=
      match min with
      | Some min => Intl.set_minimumFractionDigits (Some min) formatOptions
      | None => formatOptions
      end in
    match max with
    | Some max => Intl.set_maximumFractionDigits (Some max) formatOptions
    | None => formatOptions
    end
  end.

(** The options object of formatFriendlyNumber before the fraction digits
    are assigned. *)
Definition display_formatOptions (value : formatting.Value)
  (options : formatting.FriendlyNumberOptions) : Intl.NumberFormatOptions :=
  let custom := or_default (formatting.format options) Intl.empty in
  let d := resolved_display value options in
  assign_resolved (formatting.compactDisplay d) (Intl.compactDisplay custom)
    Intl.set_compactDisplay
    (assign_resolved (formatting.unitDisplay d) (Intl.unitDisplay custom)
       Intl.set_unitDisplay
       (assign_resolved (formatting.currencySign d) (Intl.currencySign custom)
          Intl.set_currencySign
          (assign_resolved (formatting.currencyDisplay d)
             (Intl.currencyDisplay custom) Intl.set_currencyDisplay
             (assign_style (Intl.style custom) (formatting.currency options)
                (formatting.unit options)
                (or_default (formatting.percent options) false)
                (assign_unless (Intl.signDisplay custom)
                   (if or_default (formatting.sign options) false
                    then Intl.sign_exceptZero else Intl.sign_auto)
                   Intl.set_signDisplay
                   (assign_unless (Intl.notation custom)
                      (formatting.notation d) Intl.set_notation custom)))))).

(** The rounding step of formatFriendlyNumber, with its guard. *)
Definition guarded_rounding (significantDigits : option Z)
  (value : formatting.Value) : formatting.Value :=
  let rounded v :=
    match significantDigits with
    | Some n => if (0 <? n)%Z then roundToSignificantDigits v n else v
    | None => v
    end in
  match value with
  | formatting.single v => formatting.single (rounded v)
  | formatting.range a b => formatting.range (rounded a) (rounded b)
  end.

(** The double nearest to [10^n]. *)
Definition nearest_pow10 (n : Z) : number :=
  if (0 <=? n)%Z then Q2F (10 ^ n) 1 else Q2F 1 (Z.to_pos (10 ^ (- n))).

Definition pow10_is_nearest (n : Z) : bool :=
  Math_pow10 (Z2F n) =? nearest_pow10 n.

(** The first guess of [ilog10] against the binary length, checked at the
    multiples of ten of the range of binary64: with [k] the guess for
    [t = 10 j], [2^(t+10) <= 10^(k+5)].  The guess grows with [t], so this
    covers [t, ..., t + 9]: four steps up from the guess are enough. *)
Definition guess_ok (j : Z) : bool :=
  let k := (10 * j * 30103 / 100000)%Z in
  if (0 <=? j)%Z then (2 ^ (10 * j + 10) <=? 10 ^ (k + 5))%Z
  else if (0 <=? k + 5)%Z then true
  else (10 ^ (- (k + 5)) <=? 2 ^ (- (10 * j) - 10))%Z.

(** * Properties *)

(** ** Math.pow *)

(** The constants of the routine are the doubles of fdlibm's table, given
    there by their two words. *)
Lemma ieee754_constants :
  map (fun c => (ieee754.GET_HIGH_WORD c, ieee754.GET_LOW_WORD c))
    [ieee754.dp_h 1; ieee754.dp_l 1;
     ieee754.L1; ieee754.L2; ieee754.L3; ieee754.L4; ieee754.L5; ieee754.L6;
     ieee754.P1; ieee754.P2; ieee754.P3; ieee754.P4; ieee754.P5;
     ieee754.lg2; ieee754.lg2_h; ieee754.lg2_l;
     ieee754.cp; ieee754.cp_h; ieee754.cp_l;
     ieee754.ivln2; ieee754.ivln2_h; ieee754.ivln2_l]
  = [(0x3FE2B803, 0x40000000); (0x3E4CFDEB, 0x43CFD006);
     (0x3FE33333, 0x33333303); (0x3FDB6DB6, 0xDB6FABFF);
     (0x3FD55555, 0x518F264D); (0x3FD17460, 0xA91D4101);
     (0x3FCD864A, 0x93C9DB65); (0x3FCA7E28, 0x4A454EEF);
     (0x3FC55555, 0x5555553E); (0xBF66C16C - 2 ^ 32, 0x16BEBD93);
     (0x3F11566A, 0xAF25DE2C); (0xBEBBBD41 - 2 ^ 32, 0xC5D26BF1);
     (0x3E663769, 0x72BEA4D0);
     (0x3FE62E42, 0xFEFA39EF); (0x3FE62E43, 0x00000000);
     (0xBE205C61 - 2 ^ 32, 0x0CA86C39);
     (0x3FEEC709, 0xDC3A03FD); (0x3FEEC709, 0xE0000000);
     (0xBE3E2FE0 - 2 ^ 32, 0x145B01F5);
     (0x3FF71547, 0x652B82FE); (0x3FF71547, 0x60000000);
     (0x3E54AE0B, 0xF85DDF44)]%Z.
Proof. vm_compute. reflexivity. Qed.

(** The words of a double determine it. *)
Lemma INSERT_WORDS_examples :
  map (fun x => ieee754.INSERT_WORDS (ieee754.GET_HIGH_WORD x)
                  (ieee754.GET_LOW_WORD x))
    [0; -0; 1; -1; 10; 0.1; 5e-324; -5e-324; 1.7976931348623157e308;
     infinity; neg_infinity; nan]
  = [0; -0; 1; -1; 10; 0.1; 5e-324; -5e-324; 1.7976931348623157e308;
     infinity; neg_infinity; nan].
Proof. vm_compute. reflexivity. Qed.

(** The boundary cases of ECMA-262. *)
Lemma Math_pow10_boundary :
  Math_pow10 nan = nan
  /\ Math_pow10 0 = 1
  /\ Math_pow10 (-0) = 1
  /\ Math_pow10 infinity = infinity
  /\ Math_pow10 neg_infinity = 0.
Proof. vm_compute. repeat split; reflexivity. Qed.

(** The powers of ten that are doubles, from [10^0] to [10^22], are
    returned exactly; [10^-1] is the double 0.1. *)
Lemma Math_pow10_exact :
  map (fun n => Math_pow10 (Z2F n)) (Zrange 0 22)
  = map (fun n => Z2F (10 ^ n)) (Zrange 0 22)
  /\ Math_pow10 (-1) = 0.1.
Proof. vm_compute. split; reflexivity. Qed.

(** The integral exponents from -30 to 30 at which the result is not the
    double nearest to the power of ten; at -4 it is the double below
    0.0001. *)
Lemma Math_pow10_not_nearest :
  filter (fun n => negb (pow10_is_nearest n)) (Zrange (-30) 30)
  = [-29; -24; -23; -21; -20; -17; -5; -4; 26; 29]%Z
  /\ Math_pow10 (-4) = 0x1.a36e2eb1c432cp-14
  /\ nearest_pow10 (-4) = 0.0001
  /\ (0x1.a36e2eb1c432cp-14 <? 0.0001) = true.
Proof. vm_compute. repeat split; reflexivity. Qed.

(** ** Order of binary64 values *)

Lemma SFcompare_swap (x y : spec_float) :
  SFcompare y x = option_map CompOpp (SFcompare x y).
Proof.
  destruct x as [sx | sx | | sx mx ex], y as [sy | sy | | sy my ey];
    simpl; try reflexivity;
    try (destruct sx; reflexivity); try (destruct sy; reflexivity);
    try (destruct sx, sy; reflexivity).
  destruct sx, sy; simpl; try reflexivity;
    rewrite (Z.compare_antisym ey ex);
    destruct (ey ?= ex)%Z; simpl; try reflexivity;
    fold (Pos.compare my mx); fold (Pos.compare mx my);
    rewrite (Pos.compare_antisym my mx);
    destruct (my ?= mx)%positive; reflexivity.
Qed.

Lemma ltb_geb_false (x y : number) : (x <? y) = true -> geb x y = false.
Proof.
  unfold geb. rewrite ltb_spec, leb_spec. unfold SFltb, SFleb.
  rewrite (SFcompare_swap (Prim2SF x) (Prim2SF y)).
  destruct (SFcompare (Prim2SF x) (Prim2SF y)) as [[ | | ] | ]; simpl; congruence.
Qed.

(** ** The range check of generateScale *)

Lemma generateScale_throws fuel start end_ options :
  geb start end_ = true -> generateScale fuel start end_ options = InvalidRange.
Proof. intros H. unfold generateScale. rewrite H. reflexivity. Qed.

Lemma Array_push_not_InvalidRange scale value :
  Array_push scale value <> InvalidRange.
Proof.
  unfold Array_push.
  destruct (Z.of_nat (length scale) <? Array_max_length)%Z; discriminate.
Qed.

Lemma friendly_loop_not_InvalidRange fuel end_ includeEnd :
  forall current scale,
    friendly_loop fuel end_ includeEnd current scale <> InvalidRange.
Proof.
  induction fuel as [ | fuel IH]; intros current scale;
    cbn [friendly_loop]; destruct (current <? end_); try discriminate.
  assert (P := Array_push_not_InvalidRange scale (friendly_next current)).
  assert (Q := Array_push_not_InvalidRange scale (roundToFriendlyNumber end_)).
  destruct (friendly_next current <? end_).
  - destruct (Array_push scale (friendly_next current)) as [scale' | message | ];
      [apply IH | exact P | discriminate].
  - destruct includeEnd; [ | apply IH].
    destruct (Array_push scale (roundToFriendlyNumber end_))
      as [scale' | message | ]; [apply IH | exact Q | discriminate].
Qed.

Lemma generateScale_InvalidRange fuel start end_ options :
  generateScale fuel start end_ options = InvalidRange -> geb start end_ = true.
Proof.
  unfold generateScale. destruct (geb start end_); [reflexivity | ].
  destruct (or_default (progression options) friendly);
    cbn [generateScale_points]; try discriminate.
  intros H. exfalso.
  match type of H with
  | match ?loop with _ => _ end = _ =>
    assert (N : loop <> InvalidRange) by apply friendly_loop_not_InvalidRange;
    destruct loop as [scale | message | ]
  end; [discriminate | | discriminate].
  apply N. exact H.
Qed.

Lemma Array_push_Throw scale value message :
  Array_push scale value = Throw message -> Throw message = @RangeError (list number).
Proof.
  unfold Array_push.
  destruct (Z.of_nat (length scale) <? Array_max_length)%Z;
    [discriminate | intros H; symmetry; exact H].
Qed.

Lemma friendly_loop_Throw fuel end_ includeEnd message :
  forall current scale,
    friendly_loop fuel end_ includeEnd current scale = Throw message ->
    Throw message = @RangeError (list number).
Proof.
  induction fuel as [ | fuel IH]; intros current scale;
    cbn [friendly_loop]; destruct (current <? end_); try discriminate.
  assert (P := Array_push_Throw scale (friendly_next current) message).
  assert (Q := Array_push_Throw scale (roundToFriendlyNumber end_) message).
  destruct (friendly_next current <? end_).
  - destruct (Array_push scale (friendly_next current)) as [scale' | m | ];
      [apply IH | | discriminate].
    intros H. apply P. exact H.
  - destruct includeEnd; [ | apply IH].
    destruct (Array_push scale (roundToFriendlyNumber end_))
      as [scale' | m | ]; [apply IH | | discriminate].
    intros H. apply Q. exact H.
Qed.

(** The errors of generateScale: its own, from the range check, and the one
    of a push on a full array. *)
Lemma generateScale_Throw fuel start end_ options message :
  generateScale fuel start end_ options = Throw message ->
  (geb start end_ = true /\ message = "Start must be less than end"%string)
  \/ (geb start end_ = false /\ message = "Invalid array length"%string).
Proof.
  unfold generateScale. destruct (geb start end_).
  - intros H. left. split; [reflexivity | ]. injection H as <-. reflexivity.
  - intros H. right. split; [reflexivity | ].
    cut (Throw message = @RangeError (list number));
      [intros E; injection E as ->; reflexivity | ].
    destruct (or_default (progression options) friendly);
      cbn [generateScale_points] in H; try discriminate.
    match type of H with
    | match ?loop with _ => _ end = _ =>
      assert (T := fun m => friendly_loop_Throw fuel end_
                              (or_default (includeEnd options) true) m start
                              (if or_default (includeStart options) true
                               then [] ++ [roundToFriendlyNumber start] else []));
      destruct loop as [scale | m | ]
    end; [discriminate | | discriminate].
    rewrite <- H. apply T. reflexivity.
Qed.

(** ** The friendly progression *)

Lemma friendly_next_zero : friendly_next 0 = 0.
Proof. vm_compute. reflexivity. Qed.

(** From [current = 0] the loop pushes 0 for as long as it is run: the
    budget runs out if the array can take one value for each iteration, and
    otherwise the push on the full array raises the error. *)
Lemma friendly_loop_stuck_at_zero fuel end_ includeEnd :
  (0 <? end_) = true ->
  forall scale,
    (Z.of_nat (length scale) <= Array_max_length)%Z ->
    friendly_loop fuel end_ includeEnd 0 scale
    = if (Z.of_nat (length scale) + Z.of_nat fuel <=? Array_max_length)%Z
      then OutOfFuel else RangeError.
Proof.
  intros H.
  induction fuel as [ | fuel IH]; intros scale L; cbn [friendly_loop]; rewrite H.
  - rewrite Z.add_0_r. apply Z.leb_le in L. rewrite L. reflexivity.
  - rewrite friendly_next_zero, H. unfold Array_push.
    destruct (Z.ltb_spec (Z.of_nat (length scale)) Array_max_length) as [Lt | Ge].
    + rewrite IH by (rewrite length_app; cbn [length]; lia).
      match goal with
      | |- context [(Z.of_nat (length ?l) + Z.of_nat fuel)%Z] =>
        replace (Z.of_nat (length l) + Z.of_nat fuel)%Z
          with (Z.of_nat (length scale) + Z.of_nat (S fuel))%Z
          by (rewrite length_app; cbn [length]; lia)
      end.
      reflexivity.
    + destruct (Z.leb_spec (Z.of_nat (length scale) + Z.of_nat (S fuel))
                  Array_max_length); [lia | reflexivity].
Qed.

Lemma generateScale_zero_start fuel end_ options :
  (0 <? end_) = true ->
  or_default (progression options) friendly = friendly ->
  generateScale fuel 0 end_ options
  = if ((if or_default (includeStart options) true then 1 else 0)
        + Z.of_nat fuel <=? Array_max_length)%Z
    then OutOfFuel else RangeError.
Proof.
  intros H P. unfold generateScale.
  rewrite (ltb_geb_false _ _ H), P. cbn [generateScale_points].
  rewrite (friendly_loop_stuck_at_zero fuel end_ _ H).
  - destruct (or_default (includeStart options) true); cbn [app length];
      [change (Z.of_nat 1) with 1%Z | change (Z.of_nat 0) with 0%Z];
      match goal with
      | |- context [(?a + ?b <=? ?c)%Z] => destruct (a + b <=? c)%Z
      end; reflexivity.
  - destruct (or_default (includeStart options) true); cbn [app length];
      unfold Array_max_length; lia.
Qed.

(** With the friendly progression (the default) and a start of 0,
    generateScale returns no scale, whatever the positive end and the other
    options.  The loop pushes 0 in every iteration: no iteration budget is
    enough for it to end, and a budget that reaches the bound of an array
    ends in its RangeError. *)
Theorem generateScale_zero_start_diverges :
  forall fuel end_ options,
    (0 <? end_) = true ->
    or_default (progression options) friendly = friendly ->
    (generateScale fuel 0 end_ options = OutOfFuel
     \/ generateScale fuel 0 end_ options = RangeError)
    /\ (forall scale, generateScale fuel 0 end_ options <> Return scale)
    /\ ((Array_max_length < Z.of_nat fuel)%Z ->
        generateScale fuel 0 end_ options = RangeError).
Proof.
  intros fuel end_ options H P.
  rewrite (generateScale_zero_start fuel end_ options H P).
  split; [ | split].
  - match goal with
    | |- context [(?a <=? ?c)%Z] => destruct (a <=? c)%Z
    end; [left | right]; reflexivity.
  - intros scale.
    match goal with
    | |- context [(?a <=? ?c)%Z] => destruct (a <=? c)%Z
    end; discriminate.
  - intros Hf.
    match goal with
    | |- context [(?a <=? ?c)%Z] => destruct (Z.leb_spec a c) as [Le | Gt]
    end; [ | reflexivity].
    destruct (or_default (includeStart options) true); lia.
Qed.
(** generateScale(0, 100) is such a call. *)
Lemma generateScale_zero_start_diverges_witness :
  (0 <? 100) = true
  /\ or_default (progression default_GenerateScaleOptions) friendly = friendly
  /\ (generateScale 3 0 100 default_GenerateScaleOptions = OutOfFuel
      \/ generateScale 3 0 100 default_GenerateScaleOptions = RangeError)
  /\ (forall scale,
        generateScale 3 0 100 default_GenerateScaleOptions <> Return scale)
  /\ ((Array_max_length < Z.of_nat 3)%Z ->
      generateScale 3 0 100 default_GenerateScaleOptions = RangeError).
Proof.
  split; [reflexivity | split; [reflexivity | ] ].
  apply (generateScale_zero_start_diverges 3 100 default_GenerateScaleOptions);
    reflexivity.
Defined.

(** C2 fails on the code: with the default (friendly) progression and
    [start = 0] the loop does not end by itself.  [current] stays 0, since
    [roundToFriendlyNumber (0 * 2) = 0], so [current < end] holds and 0 is
    pushed in every iteration: generateScale(0, 1000000), the call of the
    README, returns no scale for any iteration budget, and a budget that
    reaches the bound of an array ends in its RangeError. *)
Theorem generateScale_zero_start_never_returns :
  forall fuel,
    (generateScale fuel 0 1000000 default_GenerateScaleOptions = OutOfFuel
     \/ generateScale fuel 0 1000000 default_GenerateScaleOptions = RangeError)
    /\ (forall scale,
          generateScale fuel 0 1000000 default_GenerateScaleOptions
          <> Return scale)
    /\ ((Array_max_length <= Z.of_nat fuel)%Z ->
        generateScale fuel 0 1000000 default_GenerateScaleOptions = RangeError).
Proof.
  intros fuel.
  rewrite (generateScale_zero_start fuel 1000000 default_GenerateScaleOptions)
    by reflexivity.
  change (or_default (includeStart default_GenerateScaleOptions) true) with true.
  cbv iota.
  destruct (Z.leb_spec (1 + Z.of_nat fuel) Array_max_length) as [Le | Gt].
  - split; [left; reflexivity | split; [discriminate | lia] ].
  - split; [right; reflexivity | split; [discriminate | reflexivity] ].
Qed.

(** C6 fails on the code at its middle part.  generateScale throws its range
    error exactly when [start >= end], whatever the options and before any
    point is computed (so also with no iteration budget at all), and
    generateScale(100, 100) and generateScale(100, 50) both throw it.  But a
    call with [start < end] can raise another error, the one of a push on a
    full array, and that one only: generateScale(0, 100) returns no scale,
    its loop pushes 0 until the array is full, and the call ends in
    RangeError: Invalid array length. *)
Theorem generateScale_errors :
  forall fuel start end_ options,
    (generateScale fuel start end_ options = InvalidRange <-> geb start end_ = true)
    /\ (forall message,
          generateScale fuel start end_ options = Throw message ->
          (geb start end_ = true
           /\ message = "Start must be less than end"%string)
          \/ (geb start end_ = false
              /\ message = "Invalid array length"%string))
    /\ generateScale fuel 100 100 options = InvalidRange
    /\ generateScale fuel 100 50 options = InvalidRange
    /\ (0 <? 100) = true
    /\ (forall scale,
          generateScale fuel 0 100 default_GenerateScaleOptions <> Return scale)
    /\ ((Array_max_length <= Z.of_nat fuel)%Z ->
        generateScale fuel 0 100 default_GenerateScaleOptions = RangeError)
    /\ generateScale (Z.to_nat Array_max_length) 0 100 default_GenerateScaleOptions
       = RangeError.
Proof.
  intros fuel start end_ options.
  assert (Stuck : forall budget,
             generateScale budget 0 100 default_GenerateScaleOptions
             = if (1 + Z.of_nat budget <=? Array_max_length)%Z
               then OutOfFuel else RangeError).
  { intros budget.
    exact (generateScale_zero_start budget 100 default_GenerateScaleOptions
             eq_refl eq_refl). }
  split; [split | ].
  - apply generateScale_InvalidRange.
  - apply generateScale_throws.
  - split; [intros message; apply generateScale_Throw | ].
    split; [apply generateScale_throws; reflexivity | ].
    split; [apply generateScale_throws; reflexivity | ].
    split; [reflexivity | ].
    split; [ | split].
    + intros scale. rewrite Stuck.
      destruct (1 + Z.of_nat fuel <=? Array_max_length)%Z; discriminate.
    + intros H. rewrite Stuck.
      destruct (Z.leb_spec (1 + Z.of_nat fuel) Array_max_length);
        [lia | reflexivity].
    + rewrite Stuck, Z2Nat.id by (unfold Array_max_length; lia).
      destruct (Z.leb_spec (1 + Array_max_length) Array_max_length);
        [lia | reflexivity].
Qed.

(** C1, as stated, fails: at [current = 220] (the first iteration of
    generateScale(220, 5000)) the normalized mantissa is 2.2, the multiplier
    chosen is 2.5, and the next value is 1000, where a multiplier of 2 would
    give 500; the returned scale has no 500. *)
Lemma friendly_multiplier_counterexample :
  nextMultiplier 220 = 2.5
  /\ friendly_next 220 = 1000
  /\ roundToFriendlyNumber (220 * 2) = 500
  /\ generateScale 10 220 5000 default_GenerateScaleOptions
     = Return [250; 1000; 2000; 5000].
Proof. vm_compute. repeat split; reflexivity. Qed.

(** C1, amended: the multiplier of an iteration is 2.5 when the normalized
    mantissa [n] of [current] satisfies [1.5 <= n < 2.25] (that is, [n < 1.5]
    is false and [n < 2.25] is true) and 2 otherwise, also when [n] is NaN;
    and every iteration that runs replaces [current] by
    [roundToFriendlyNumber (current * multiplier)], appends it when it is
    below [end], and otherwise appends the rounded [end] if [includeEnd]
    (the append is a push: it succeeds on an array that is not full). *)
Theorem friendly_multiplier_amended :
  forall current,
    (nextMultiplier current =
       if negb (normalized_mantissa current <? 1.5)
          && (normalized_mantissa current <? 2.25)
       then 2.5 else 2)
    /\ friendly_next current
       = roundToFriendlyNumber (current * nextMultiplier current)
    /\ forall fuel end_ includeEnd scale,
        (current <? end_) = true ->
        (friendly_loop (S fuel) end_ includeEnd current scale
         = match
             (if friendly_next current <? end_
              then Array_push scale (friendly_next current)
              else if includeEnd
                   then Array_push scale (roundToFriendlyNumber end_)
                   else Return scale)
           with
           | Return scale =>
             friendly_loop fuel end_ includeEnd (friendly_next current) scale
           | Throw message => Throw message
           | OutOfFuel => OutOfFuel
           end)
        /\ ((Z.of_nat (length scale) < Array_max_length)%Z ->
            friendly_loop (S fuel) end_ includeEnd current scale
            = friendly_loop fuel end_ includeEnd (friendly_next current)
                (if friendly_next current <? end_
                 then scale ++ [friendly_next current]
                 else if includeEnd then scale ++ [roundToFriendlyNumber end_]
                 else scale)).
Proof.
  intros current. split; [ | split].
  - unfold nextMultiplier. fold (normalized_mantissa current).
    destruct (normalized_mantissa current <? 1.5);
      destruct (normalized_mantissa current <? 2.25);
      destruct (normalized_mantissa current <? 4);
      destruct (normalized_mantissa current <? 7.5); reflexivity.
  - reflexivity.
  - intros fuel end_ includeEnd scale H. cbn [friendly_loop]. rewrite H.
    split; [reflexivity | ].
    intros L. apply Z.ltb_lt in L. unfold Array_push. rewrite L.
    destruct (friendly_next current <? end_); [reflexivity | ].
    destruct includeEnd; reflexivity.
Qed.

(** ** roundToSignificantDigits *)

Lemma roundToSignificantDigits_guard value significantDigits :
  isFinite value = false \/ (value =? 0) = true \/ (significantDigits <= 0)%Z ->
  roundToSignificantDigits value significantDigits = value.
Proof.
  intros H. unfold roundToSignificantDigits.
  destruct H as [H | [H | H]].
  - rewrite H. reflexivity.
  - rewrite H, orb_true_r. reflexivity.
  - apply Z.leb_le in H. rewrite H, orb_true_r. reflexivity.
Qed.

Lemma roundToSignificantDigits_formula value significantDigits :
  isFinite value = true -> (value =? 0) = false -> (0 < significantDigits)%Z ->
  roundToSignificantDigits value significantDigits =
  Math_round
    (value /
     Math_pow10
       (Math_floor (Math_log10 (Math_abs value)) - Z2F significantDigits + 1)) *
  Math_pow10
    (Math_floor (Math_log10 (Math_abs value)) - Z2F significantDigits + 1).
Proof.
  intros Hf Hz Hs. unfold roundToSignificantDigits.
  rewrite Hf, Hz. apply Z.leb_gt in Hs. rewrite Hs. reflexivity.
Qed.

(** The steps of roundToSignificantDigits(0.001234, 2): the magnitude is -3,
    the scale [Math.pow(10, -4)] is the double below 0.0001, the quotient
    rounds to 12, and the binary64 product of 12 and the scale is the double
    0.0012.  (With the double 0.0001 for the scale the product would be the
    double after 0.0012.) *)
Lemma roundToSignificantDigits_0_001234_steps :
  Math_floor (Math_log10 (Math_abs 0.001234)) = -3
  /\ Math_pow10 (-3 - Z2F 2 + 1) = 0x1.a36e2eb1c432cp-14
  /\ (0x1.a36e2eb1c432cp-14 <? 0.0001) = true
  /\ Math_round (0.001234 / 0x1.a36e2eb1c432cp-14) = 12
  /\ 12 * 0x1.a36e2eb1c432cp-14 = 0.0012
  /\ 12 * 0.0001 = 0.0012000000000000001.
Proof. vm_compute. repeat split; reflexivity. Qed.

(** C3: roundToSignificantDigits returns [value] unchanged when it is not
    finite, when it is a zero, or when [significantDigits <= 0]; otherwise it
    returns [Math.round(value / scale) * scale] with
    [scale = Math.pow(10, Math.floor(Math.log10(|value|)) - significantDigits + 1)];
    roundToSignificantDigits(1234, 2) is 1200 and
    roundToSignificantDigits(0.001234, 2) is 0.0012. *)
Theorem roundToSignificantDigits_spec :
  forall value significantDigits,
    (isFinite value = false \/ (value =? 0) = true
     \/ (significantDigits <= 0)%Z ->
     roundToSignificantDigits value significantDigits = value)
    /\ (isFinite value = true -> (value =? 0) = false ->
        (0 < significantDigits)%Z ->
        roundToSignificantDigits value significantDigits
        = Math_round
            (value /
             Math_pow10
               (Math_floor (Math_log10 (Math_abs value))
                - Z2F significantDigits + 1)) *
          Math_pow10
            (Math_floor (Math_log10 (Math_abs value))
             - Z2F significantDigits + 1))
    /\ roundToSignificantDigits 1234 2 = 1200
    /\ roundToSignificantDigits 0.001234 2 = 0.0012.
Proof.
  intros value significantDigits. split; [ | split].
  - apply roundToSignificantDigits_guard.
  - apply roundToSignificantDigits_formula.
  - vm_compute. split; reflexivity.
Qed.

(** ** scaleNumber *)

Lemma clamp_max_min lo hi x :
  (lo <= hi)%Z -> Z.max lo (Z.min hi x) = clamp lo hi x.
Proof.
  intros H. unfold clamp.
  destruct (Z.ltb_spec x lo); [lia | ].
  destruct (Z.ltb_spec hi x); lia.
Qed.

Lemma clamp_bounds lo hi x :
  (lo <= hi)%Z -> (lo <= clamp lo hi x <= hi)%Z.
Proof.
  intros H. unfold clamp.
  destruct (Z.ltb_spec x lo); [lia | ].
  destruct (Z.ltb_spec hi x); lia.
Qed.

(** C5: with [preserveSignificantDigits: false] scaleNumber returns the
    binary64 product [value * ratio]; otherwise (the option left out, or
    true) it returns roundToSignificantDigits of the product at
    countSignificantDigits(value) clamped into the bounds, which default to 1
    and 15; and scaleNumber(7, 365.25) is 3000. *)
Theorem scaleNumber_spec :
  forall value ratio options,
    (preserveSignificantDigits options = Some false ->
     scaleNumber value ratio options = value * ratio)
    /\ (preserveSignificantDigits options <> Some false ->
        forall lo hi,
          lo = or_default (minSignificantDigits options) 1%Z ->
          hi = or_default (maxSignificantDigits options) 15%Z ->
          (lo <= hi)%Z ->
          scaleNumber value ratio options
          = roundToSignificantDigits (value * ratio)
              (clamp lo hi (countSignificantDigits value)))
    /\ clamp 1 15 (countSignificantDigits 7) = 1%Z
    /\ 7 * 365.25 = 2556.75
    /\ scaleNumber 7 365.25 default_ScaleOptions = 3000.
Proof.
  intros value ratio options. split; [ | split].
  - intros H. unfold scaleNumber. rewrite H. reflexivity.
  - intros H lo hi -> -> Hle. unfold scaleNumber.
    rewrite (clamp_max_min _ _ _ Hle).
    destruct (preserveSignificantDigits options) as [[ | ] | ];
      try reflexivity. congruence.
  - vm_compute. repeat split; reflexivity.
Qed.

(** ** Counting loops *)

Lemma fold_left_push {A} (f : A -> number) (l : list A) (init : list number) :
  fold_left (fun scale i => scale ++ [f i]) l init = init ++ map f l.
Proof.
  revert init. induction l as [ | a l IH]; intros init; simpl.
  - rewrite app_nil_r. reflexivity.
  - rewrite IH, <- app_assoc. reflexivity.
Qed.

Lemma Zrange_length lo hi : length (Zrange lo hi) = Z.to_nat (hi - lo + 1).
Proof. unfold Zrange. rewrite length_map, length_seq. reflexivity. Qed.




(** ** generateScaleFromBaseline *)

(** C10 fails on the code: generateScaleFromBaseline(10, 5,
    {progression: 'linear'}), which the README and the repository's test
    give as [10, 20, 30, 40, 50], is [10, 20, 50, 50, 50].  The rounding was
    left out of the call and defaults to 'friendly', which rounds 30 and 40
    to 50.  And a count of 0 still gives one value, the array being created
    with the rounded baseline in it. *)
Theorem generateScaleFromBaseline_default_rounding :
  generateScaleFromBaseline 10 5 (default_options_with linear None)
  = [10; 20; 50; 50; 50]
  /\ or_default (rounding (default_options_with linear None)) friendlyRounding
     = friendlyRounding
  /\ applyRounding (10 * (Z2F 2 + 1)) friendlyRounding 2 = 50
  /\ applyRounding (10 * (Z2F 3 + 1)) friendlyRounding 2 = 50
  /\ generateScaleFromBaseline 10 0 (default_options_with linear None) = [10].
Proof. vm_compute. repeat split; reflexivity. Qed.


(** ** Facts on binary64 values used below *)

Ltac float_spec :=
  repeat first
    [ rewrite eqb_spec | rewrite ltb_spec | rewrite leb_spec
    | rewrite abs_spec | rewrite opp_spec ].

Lemma Prim2SF_zero : Prim2SF 0 = S754_zero false.
Proof. reflexivity. Qed.

Lemma Prim2SF_infinity : Prim2SF infinity = S754_infinity false.
Proof. reflexivity. Qed.

Lemma SFcompare_refl_finite s m e :
  SFcompare (S754_finite s m e) (S754_finite s m e) = Some Eq.
Proof.
  simpl. rewrite Z.compare_refl.
  fold (Pos.compare m m). rewrite Pos.compare_refl.
  destruct s; reflexivity.
Qed.

Lemma isFinite_spec x :
  isFinite x =
  match Prim2SF x with
  | S754_zero _ | S754_finite _ _ _ => true
  | _ => false
  end.
Proof.
  unfold isFinite, is_finite, is_nan, is_infinity.
  float_spec. rewrite Prim2SF_infinity. unfold SFeqb.
  destruct (Prim2SF x) as [s | s | | s m e]; try reflexivity.
  - destruct s; reflexivity.
  - rewrite SFcompare_refl_finite. reflexivity.
Qed.

Lemma eqb_zero_spec x :
  (x =? 0) = match Prim2SF x with S754_zero _ => true | _ => false end.
Proof.
  float_spec. rewrite Prim2SF_zero. unfold SFeqb.
  destruct (Prim2SF x) as [s | s | | s m e]; try reflexivity;
    destruct s; reflexivity.
Qed.

Lemma ltb_zero_spec x :
  (x <? 0) =
  match Prim2SF x with
  | S754_infinity true | S754_finite true _ _ => true
  | _ => false
  end.
Proof.
  float_spec. rewrite Prim2SF_zero. unfold SFltb.
  destruct (Prim2SF x) as [s | s | | s m e]; try reflexivity;
    destruct s; reflexivity.
Qed.

Lemma abs_idempotent x : abs (abs x) = abs x.
Proof.
  apply Prim2SF_inj. float_spec.
  destruct (Prim2SF x); reflexivity.
Qed.

(** ** countSignificantDigits *)

Lemma digit_cases d :
  (0 <= d <= 9)%Z ->
  d = 0%Z \/ d = 1%Z \/ d = 2%Z \/ d = 3%Z \/ d = 4%Z \/ d = 5%Z \/ d = 6%Z
  \/ d = 7%Z \/ d = 8%Z \/ d = 9%Z.
Proof. lia. Qed.

Ltac each_digit H :=
  apply digit_cases in H;
  repeat (destruct H as [H | H]); subst.

Lemma is_digit_not_e c : is_digit c -> Ascii.eqb c "e" = false.
Proof. intros [d [H ->]]. each_digit H; reflexivity. Qed.

Lemma is_digit_not_dot c : is_digit c -> Ascii.eqb c "." = false.
Proof. intros [d [H ->]]. each_digit H; reflexivity. Qed.

Lemma is_digit_not_minus c : is_digit c -> Ascii.eqb c "-" = false.
Proof. intros [d [H ->]]. each_digit H; reflexivity. Qed.

Lemma nonzero_digit_not_0 d :
  (1 <= d <= 9)%Z -> Ascii.eqb (digit_char d) "0" = false.
Proof.
  intros H. assert (H' : (0 <= d <= 9)%Z) by lia.
  each_digit H'; try reflexivity. lia.
Qed.

(** The digits of a positive integer start with a digit that is not zero. *)
Lemma decimal_digits_from_spec fuel :
  forall n acc,
    (1 <= n <= Zpos fuel)%Z ->
    Forall is_digit acc ->
    exists d rest,
      (1 <= d <= 9)%Z
      /\ decimal_digits_from fuel n acc = digit_char d :: rest
      /\ Forall is_digit rest.
Proof.
  induction fuel as [fuel IH | fuel IH | ]; intros n acc Hn Hacc;
    cbn [decimal_digits_from]; destruct (Z.ltb_spec n 10) as [Hlt | Hge].
  - exists n, acc. rewrite Z.mod_small by lia. repeat split; try lia; assumption.
  - apply IH.
    + Z.to_euclidean_division_equations; lia.
    + constructor; [ | assumption].
      exists (n mod 10)%Z. split; [ | reflexivity].
      Z.to_euclidean_division_equations; lia.
  - exists n, acc. rewrite Z.mod_small by lia. repeat split; try lia; assumption.
  - apply IH.
    + Z.to_euclidean_division_equations; lia.
    + constructor; [ | assumption].
      exists (n mod 10)%Z. split; [ | reflexivity].
      Z.to_euclidean_division_equations; lia.
  - exists n, acc. rewrite Z.mod_small by lia. repeat split; try lia; assumption.
  - lia.
Qed.

Lemma decimal_digits_spec n :
  exists d rest,
    (1 <= d <= 9)%Z
    /\ decimal_digits n = digit_char d :: rest
    /\ Forall is_digit rest.
Proof.
  unfold decimal_digits. apply decimal_digits_from_spec; [lia | constructor].
Qed.

Lemma String_split_e_prefix (digits : list ascii) (rest : string) :
  Forall (fun c => Ascii.eqb c "e" = false) digits ->
  hd EmptyString
    (String_split "e" (string_of_list_ascii digits ++ String "e" rest))
  = string_of_list_ascii digits.
Proof.
  induction 1 as [ | c digits Hc _ IH]; simpl.
  - reflexivity.
  - rewrite Hc.
    destruct (String_split "e" (string_of_list_ascii digits ++ String "e" rest));
      simpl in *; congruence.
Qed.

Lemma String_remove_first_absent (c : ascii) (digits : list ascii) :
  Forall (fun a => Ascii.eqb a c = false) digits ->
  String_remove_first c (string_of_list_ascii digits)
  = string_of_list_ascii digits.
Proof.
  induction 1 as [ | a digits Ha _ IH]; simpl.
  - reflexivity.
  - rewrite Ha, IH. reflexivity.
Qed.

Lemma count_step_found digits count :
  fold_left count_step digits (count, true)
  = ((count + Z.of_nat (length digits))%Z, true).
Proof.
  revert count. induction digits as [ | c digits IH]; intros count.
  - simpl. f_equal. lia.
  - cbn [fold_left]. unfold count_step at 2.
    destruct (negb (Ascii.eqb c "0")); rewrite IH; f_equal;
      cbn [length]; lia.
Qed.

Lemma abs_finite_nonzero value :
  isFinite value = true -> (value =? 0) = false ->
  isFinite (Math_abs value) = true
  /\ (Math_abs value <? 0) = false
  /\ (Math_abs value =? 0) = false.
Proof.
  unfold Math_abs. rewrite !isFinite_spec, !eqb_zero_spec, ltb_zero_spec, abs_spec.
  destruct (Prim2SF value); simpl; intros; repeat split; congruence.
Qed.

(** What the string operations of countSignificantDigits leave of
    [toExponential]: the digits of the mantissa. *)
Lemma mantissa_of_toExponential x :
  isFinite x = true -> (x <? 0) = false -> (Math_abs x =? 0) = false ->
  Math_abs x = x ->
  exists d rest,
    (1 <= d <= 9)%Z /\ Forall is_digit rest
    /\ mantissa_digits x = digit_char d :: rest
    /\ String_remove_first "-"
         (String_remove_first "."
            (hd EmptyString (String_split "e" (toExponential x))))
       = string_of_list_ascii (digit_char d :: rest).
Proof.
  intros Hf Hneg Hz Habs. unfold toExponential, mantissa_digits.
  rewrite Hf, Hneg, Hz, Habs. cbn [negb].
  destruct (exponential_form x) as [n e]. cbn [fst].
  destruct (decimal_digits_spec n) as [d [rest [Hd [E Hrest]]]].
  exists d, rest. rewrite E. repeat split; try assumption; try lia.
  assert (Hdig : is_digit (digit_char d)) by (exists d; split; [lia | reflexivity]).
  set (tail := ((if (0 <=? e)%Z then "+" else "-") ++
                (if (e =? 0)%Z then "0"
                 else string_of_list_ascii (decimal_digits (Z.to_pos (Z.abs e)))))%string).
  destruct rest as [ | b rest].
  - change (String_split "e" _)
      with (String_split "e"
              (string_of_list_ascii [digit_char d] ++ String "e" tail)).
    rewrite String_split_e_prefix
      by (repeat constructor; apply is_digit_not_e, Hdig).
    rewrite !String_remove_first_absent; try reflexivity;
      repeat constructor;
      [apply is_digit_not_minus | apply is_digit_not_dot]; exact Hdig.
  - change (String_split "e" _)
      with (String_split "e"
              (string_of_list_ascii (digit_char d :: "."%char :: b :: rest)
               ++ String "e" tail)).
    rewrite String_split_e_prefix.
    + cbn [string_of_list_ascii String_remove_first].
      rewrite (is_digit_not_dot _ Hdig). cbn [Ascii.eqb Bool.eqb].
      change (String (digit_char d) (String b (string_of_list_ascii rest)))
        with (string_of_list_ascii (digit_char d :: b :: rest)).
      apply String_remove_first_absent.
      constructor; [apply is_digit_not_minus, Hdig | ].
      eapply Forall_impl; [ | exact Hrest]. apply is_digit_not_minus.
    + constructor; [apply is_digit_not_e, Hdig | ].
      constructor; [reflexivity | ].
      eapply Forall_impl; [ | exact Hrest]. apply is_digit_not_e.
Qed.

Lemma countSignificantDigits_finite value :
  isFinite value = true -> (value =? 0) = false ->
  countSignificantDigits value
  = Z.of_nat (length (mantissa_digits (Math_abs value)))
  /\ (1 <= countSignificantDigits value)%Z.
Proof.
  intros Hf Hz.
  destruct (abs_finite_nonzero value Hf Hz) as [Hf' [Hneg Hz']].
  assert (Hidem : Math_abs (Math_abs value) = Math_abs value)
    by apply abs_idempotent.
  rewrite <- Hidem in Hz'.
  destruct (mantissa_of_toExponential _ Hf' Hneg Hz' Hidem)
    as [d [rest [Hd [Hrest [Em Es]]]]].
  assert (E : countSignificantDigits value = Z.of_nat (length (digit_char d :: rest))).
  { unfold countSignificantDigits. rewrite Hf, Hz. cbn [negb orb].
    cbv zeta. rewrite Es, list_ascii_of_string_of_list_ascii.
    cbn [fold_left]. unfold count_step at 2.
    rewrite (nonzero_digit_not_0 d Hd). cbn [negb].
    rewrite count_step_found. cbn [fst length]. lia. }
  rewrite E, Em. split; [reflexivity | cbn [length]; lia].
Qed.

(** C4: countSignificantDigits returns 0 exactly for a zero, NaN and the
    infinities; for every other value it returns the number of digits of
    the mantissa that toExponential prints for the absolute value, which is
    at least 1 (the mantissa starts with a digit that is not zero, so the
    count runs from the first digit to the last); and the counts of 1000,
    1200 and 0.00012 are 1, 2 and 2. *)
Theorem countSignificantDigits_spec :
  forall value,
    (countSignificantDigits value = 0%Z
     <-> isFinite value = false \/ (value =? 0) = true)
    /\ (isFinite value = true -> (value =? 0) = false ->
        countSignificantDigits value
        = Z.of_nat (length (mantissa_digits (Math_abs value)))
        /\ (1 <= countSignificantDigits value)%Z)
    /\ toExponential 1000 = "1e+3"%string
    /\ toExponential 1200 = "1.2e+3"%string
    /\ toExponential 0.00012 = "1.2e-4"%string
    /\ countSignificantDigits 1000 = 1%Z
    /\ countSignificantDigits 1200 = 2%Z
    /\ countSignificantDigits 0.00012 = 2%Z.
Proof.
  intros value. split; [split | split].
  - intros H.
    destruct (isFinite value) eqn:Hf; [ | left; reflexivity].
    destruct (value =? 0) eqn:Hz; [right; reflexivity | ].
    destruct (countSignificantDigits_finite value Hf Hz) as [_ H1]. lia.
  - intros H. unfold countSignificantDigits.
    destruct H as [H | H]; rewrite H; [ | rewrite orb_true_r]; reflexivity.
  - apply countSignificantDigits_finite.
  - vm_compute. repeat split; reflexivity.
Qed.

(** ** Negation and rounding *)

Lemma binary_round_aux_opp s m e l :
  binary_round_aux prec emax (negb s) m e l
  = SFopp (binary_round_aux prec emax s m e l).
Proof.
  unfold binary_round_aux.
  destruct (shr_fexp prec emax m e l) as [mrs' e'].
  destruct (shr_fexp prec emax _ e' loc_Exact) as [mrs'' e''].
  destruct (shr_m mrs''); try reflexivity.
  destruct (e'' <=? emax - prec)%Z; reflexivity.
Qed.

Lemma xorb_negb_l a b : xorb (negb a) b = negb (xorb a b).
Proof. destruct a, b; reflexivity. Qed.

Lemma SFdiv_opp_l x y :
  SF64div (SFopp x) y = SFopp (SF64div x y).
Proof.
  unfold SF64div.
  destruct x as [sx | sx | | sx mx ex], y as [sy | sy | | sy my ey];
    cbn [SFopp SFdiv]; rewrite ?xorb_negb_l; try reflexivity.
  destruct (SFdiv_core_binary prec emax (Z.pos mx) ex (Z.pos my) ey)
    as [[mz ez] lz].
  apply binary_round_aux_opp.
Qed.

Lemma SFmul_opp_l x y :
  SF64mul (SFopp x) y = SFopp (SF64mul x y).
Proof.
  unfold SF64mul.
  destruct x as [sx | sx | | sx mx ex], y as [sy | sy | | sy my ey];
    cbn [SFopp SFmul]; rewrite ?xorb_negb_l; try reflexivity.
  apply binary_round_aux_opp.
Qed.

Lemma div_opp_l (x y : number) : (- x) / y = - (x / y).
Proof.
  apply Prim2SF_inj. rewrite div_spec, !opp_spec, div_spec.
  apply SFdiv_opp_l.
Qed.

Lemma mul_opp_l (x y : number) : (- x) * y = - (x * y).
Proof.
  apply Prim2SF_inj. rewrite mul_spec, !opp_spec, mul_spec.
  apply SFmul_opp_l.
Qed.

Lemma opp_involutive (x : number) : - - x = x.
Proof.
  apply Prim2SF_inj. rewrite !opp_spec.
  destruct (Prim2SF x) as [s | s | | s m e]; cbn [SFopp];
    rewrite ?negb_involutive; reflexivity.
Qed.

Lemma abs_opp (x : number) : abs (- x) = abs x.
Proof.
  apply Prim2SF_inj. rewrite !abs_spec, opp_spec.
  destruct (Prim2SF x); reflexivity.
Qed.

Lemma isFinite_opp (x : number) : isFinite (- x) = isFinite x.
Proof.
  rewrite !isFinite_spec, opp_spec. destruct (Prim2SF x); reflexivity.
Qed.

Lemma eqb_zero_opp (x : number) : (- x =? 0) = (x =? 0).
Proof.
  rewrite !eqb_zero_spec, opp_spec. destruct (Prim2SF x); reflexivity.
Qed.

Lemma SF2Prim_opp x : SF2Prim (SFopp x) = - SF2Prim x.
Proof.
  destruct x as [s | s | | s m e]; cbn [SFopp].
  - destruct s; reflexivity.
  - destruct s; reflexivity.
  - reflexivity.
  - destruct s; cbn [negb SF2Prim]; [ | reflexivity].
    rewrite opp_involutive. reflexivity.
Qed.

Lemma Z2F_opp n : n <> 0%Z -> Z2F (- n) = - Z2F n.
Proof.
  intros Hn. unfold Z2F. rewrite <- SF2Prim_opp. f_equal.
  destruct n as [ | p | p]; [congruence | | ];
    cbn [Z.opp binary_normalize]; unfold binary_round;
    destruct (shl_align p 0 _) as [mz ez].
  - apply (binary_round_aux_opp false).
  - rewrite (binary_round_aux_opp false). 
    destruct (binary_round_aux prec emax false (Z.pos mz) ez loc_Exact)
      as [s | s | | s m e]; cbn [SFopp]; rewrite ?negb_involutive; reflexivity.
Qed.

(** Rounding [v / d] and [- v / d] to the nearest integer, ties upward:
    the results are opposite unless [v / d] is half-way. *)
Lemma round_quotient_opp (m d : Z) :
  (0 < d)%Z -> (2 * (m mod d) <> d)%Z ->
  ((2 * (- m) + d) / (2 * d) = - ((2 * m + d) / (2 * d)))%Z.
Proof.
  intros Hd Htie.
  pose proof (Z.div_mod m d ltac:(lia)) as E.
  pose proof (Z.mod_pos_bound m d Hd) as B.
  set (q := (m / d)%Z) in *. set (r := (m mod d)%Z) in *.
  destruct (Z_lt_le_dec (2 * r) d) as [Hlt | Hge].
  - rewrite <- (Z.div_unique (2 * m + d) (2 * d) q (2 * r + d)); [ | lia | nia].
    symmetry. apply Z.div_unique with (r := (d - 2 * r)%Z); [lia | nia].
  - rewrite <- (Z.div_unique (2 * m + d) (2 * d) (q + 1) (2 * r - d)); [ | lia | nia].
    symmetry. apply Z.div_unique with (r := (3 * d - 2 * r)%Z); [lia | nia].
Qed.

Lemma Math_round_opp q :
  is_half_way q = false -> Math_round (- q) = - Math_round q.
Proof.
  unfold is_half_way, Math_round. rewrite opp_spec.
  destruct (Prim2SF q) as [s | s | | s m e]; cbn [SFopp]; try reflexivity.
  destruct e as [ | p | k]; try reflexivity.
  intros Htie. apply Z.eqb_neq in Htie.
  assert (Hd : (0 < 2 ^ Z.pos k)%Z) by (apply Z.pow_pos_nonneg; lia).
  pose proof (round_quotient_opp (Zpos m) _ Hd Htie) as E.
  set (d := (2 ^ Z.pos k)%Z) in *.
  assert (E' : forall b : bool,
             ((2 * (if negb b then - Z.pos m else Z.pos m) + d) / (2 * d)
              = - ((2 * (if b then - Z.pos m else Z.pos m) + d) / (2 * d)))%Z).
  { intros [ | ]; cbn [negb]; [ | exact E].
    rewrite E. lia. }
  rewrite (E' s).
  set (n := ((2 * (if s then - Z.pos m else Z.pos m) + d) / (2 * d))%Z).
  destruct (Z.eqb_spec n 0) as [Hn | Hn].
  - rewrite Hn. cbn [Z.opp Z.eqb]. destruct s; reflexivity.
  - destruct (Z.eqb_spec (- n) 0) as [Hn' | _]; [lia | ].
    apply Z2F_opp, Hn.
Qed.

(** C8, as stated, fails at a tie: roundToSignificantDigits(25, 1) is 30 but
    roundToSignificantDigits(-25, 1) is -20, because Math.round takes the
    half-way quotients 2.5 and -2.5 to 3 and -2. *)
Lemma roundToSignificantDigits_tie_counterexample :
  25 / rounding_scale 25 1 = 2.5
  /\ Math_round 2.5 = 3 /\ Math_round (-2.5) = -2
  /\ roundToSignificantDigits 25 1 = 30
  /\ roundToSignificantDigits (-25) 1 = -20.
Proof. vm_compute. repeat split; reflexivity. Qed.

(** C8, amended: roundToSignificantDigits rounds the scaled value to the
    nearest integer with ties toward +Infinity, so negative inputs are
    treated symmetrically away from ties: for every [v] and [n],
    roundToSignificantDigits(-v, n) is -roundToSignificantDigits(v, n)
    whenever [v / scale] is not exactly half-way between two integers. *)
Theorem roundToSignificantDigits_opp :
  forall value significantDigits,
    is_half_way (value / rounding_scale value significantDigits) = false ->
    roundToSignificantDigits (- value) significantDigits
    = - roundToSignificantDigits value significantDigits.
Proof.
  intros value sd Htie. unfold roundToSignificantDigits.
  rewrite isFinite_opp, eqb_zero_opp.
  destruct (negb (isFinite value) || (value =? 0) || (sd <=? 0)%Z);
    [reflexivity | ].
  unfold Math_abs. rewrite abs_opp.
  fold (Math_abs value). fold (rounding_scale value sd).
  rewrite div_opp_l, (Math_round_opp _ Htie), mul_opp_l. reflexivity.
Qed.

(** The symmetry at 1234 and 2 digits, where the quotient 12.34 is no tie. *)
Lemma roundToSignificantDigits_opp_witness :
  is_half_way (1234 / rounding_scale 1234 2) = false
  /\ roundToSignificantDigits (- 1234) 2 = - roundToSignificantDigits 1234 2.
Proof.
  split; [vm_compute; reflexivity | ].
  apply (roundToSignificantDigits_opp 1234 2). vm_compute. reflexivity.
Defined.

(** ** Subtraction and order *)

Lemma digits2_pos_bounds (m : positive) :
  (2 ^ (Zpos (digits2_pos m) - 1) <= Zpos m < 2 ^ Zpos (digits2_pos m))%Z.
Proof.
  induction m as [m IH | m IH | ]; cbn [digits2_pos].
  - rewrite Pos2Z.inj_succ.
    replace (Z.succ (Z.pos (digits2_pos m)) - 1)%Z
      with (Z.succ (Z.pos (digits2_pos m) - 1)) by lia.
    rewrite !Z.pow_succ_r by lia. lia.
  - rewrite Pos2Z.inj_succ.
    replace (Z.succ (Z.pos (digits2_pos m)) - 1)%Z
      with (Z.succ (Z.pos (digits2_pos m) - 1)) by lia.
    rewrite !Z.pow_succ_r by lia. lia.
  - simpl. lia.
Qed.

Lemma iter_pos_nat {A} (f : A -> A) (p : positive) (x : A) :
  iter_pos f p x = Nat.iter (Pos.to_nat p) f x.
Proof.
  revert x. induction p as [p IH | p IH | ]; intros x; cbn [iter_pos].
  - rewrite !IH, Pos2Nat.inj_xI.
    replace (S (2 * Pos.to_nat p)) with (Pos.to_nat p + (Pos.to_nat p + 1))%nat by lia.
    rewrite !Nat.iter_add. reflexivity.
  - rewrite !IH, Pos2Nat.inj_xO.
    replace (2 * Pos.to_nat p)%nat with (Pos.to_nat p + Pos.to_nat p)%nat by lia.
    rewrite Nat.iter_add. reflexivity.
  - reflexivity.
Qed.

Lemma shr_1_m mrs : (0 <= shr_m mrs)%Z -> shr_m (shr_1 mrs) = (shr_m mrs / 2)%Z.
Proof.
  destruct mrs as [m r s]. cbn [shr_m shr_1]. intros H.
  destruct m as [ | [p | p | ] | p]; cbn [shr_m].
  - reflexivity.
  - rewrite Pos2Z.inj_xI. Z.to_euclidean_division_equations; lia.
  - rewrite Pos2Z.inj_xO. Z.to_euclidean_division_equations; lia.
  - reflexivity.
  - lia.
Qed.

Lemma shr_iter_m (n : nat) mrs :
  (0 <= shr_m mrs)%Z ->
  shr_m (Nat.iter n shr_1 mrs) = (shr_m mrs / 2 ^ Z.of_nat n)%Z.
Proof.
  intros H. induction n as [ | n IH].
  - simpl. rewrite Z.div_1_r. reflexivity.
  - rewrite Nat.iter_succ, shr_1_m.
    + rewrite IH, Nat2Z.inj_succ, Z.pow_succ_r by lia.
      rewrite Z.div_div by (try apply Z.pow_pos_nonneg; lia).
      f_equal. lia.
    + rewrite IH. apply Z.div_pos; [lia | apply Z.pow_pos_nonneg; lia].
Qed.

(** Shifting a positive mantissa to its canonical exponent leaves it
    positive as long as the exponent is not below [emin]. *)
Lemma shr_fexp_positive (m : positive) (e : Z) (l : location) :
  (emin <= e)%Z ->
  (0 < shr_m (fst (shr_fexp prec emax (Zpos m) e l)))%Z
  /\ (emin <= snd (shr_fexp prec emax (Zpos m) e l))%Z.
Proof.
  intros He. unfold shr_fexp, shr. cbn [Zdigits2].
  pose proof (digits2_pos_bounds m) as [Hlo _].
  set (d := Zpos (digits2_pos m)) in *.
  assert (Hd : (1 <= d)%Z) by (unfold d; lia).
  assert (Hm : shr_m (shr_record_of_loc (Z.pos m) l) = Zpos m)
    by (destruct l as [ | [ | | ]]; reflexivity).
  unfold fexp. change (SpecFloat.emin prec emax) with (-1074)%Z in *.
  change prec with 53%Z.
  destruct (Z.max (d + e - 53) (-1074) - e)%Z as [ | p | p] eqn:En; cbn [fst snd].
  - rewrite Hm. lia.
  - split; [ | lia].
    rewrite iter_pos_nat, shr_iter_m by (rewrite Hm; lia).
    rewrite Hm, positive_nat_Z.
    assert (Hp : (Z.pos p <= d - 1)%Z) by lia.
    apply Z.div_str_pos. split; [apply Z.pow_pos_nonneg; lia | ].
    etransitivity; [ | exact Hlo].
    apply Z.pow_le_mono_r; lia.
  - rewrite Hm. lia.
Qed.

Lemma round_nearest_even_positive m l :
  (0 < m)%Z -> (0 < round_nearest_even m l)%Z.
Proof.
  intros H. destruct l as [ | [ | | ]]; cbn [round_nearest_even]; try lia.
  destruct (Z.even m); lia.
Qed.

(** Rounding a positive mantissa whose exponent is not below [emin] never
    gives a zero or NaN: the result is finite or infinite, with the sign
    asked for. *)
Lemma binary_round_aux_positive s m e l :
  (emin <= e)%Z ->
  signed_nonzero s (binary_round_aux prec emax s (Zpos m) e l).
Proof.
  intros He. unfold binary_round_aux.
  destruct (shr_fexp_positive m e l He) as [Hm He'].
  destruct (shr_fexp prec emax (Z.pos m) e l) as [mrs' e']. cbn [fst snd] in *.
  pose proof (round_nearest_even_positive _ (loc_of_shr_record mrs') Hm) as Hr.
  destruct (round_nearest_even (shr_m mrs') (loc_of_shr_record mrs'))
    as [ | m1 | m1]; try lia.
  destruct (shr_fexp_positive m1 e' loc_Exact He') as [Hm1 _].
  destruct (shr_fexp prec emax (Z.pos m1) e' loc_Exact) as [mrs'' e''].
  cbn [fst] in Hm1.
  destruct (shr_m mrs''); try lia.
  destruct (e'' <=? emax - prec)%Z; reflexivity.
Qed.

Lemma binary_round_positive s m e :
  (emin <= e)%Z -> signed_nonzero s (binary_round prec emax s m e).
Proof.
  intros He. unfold binary_round, shl_align.
  set (e' := fexp prec emax (Z.pos (digits2_pos m) + e)).
  assert (He' : (emin <= e')%Z) by (unfold e', fexp; lia).
  destruct (e' - e)%Z; apply binary_round_aux_positive; assumption.
Qed.

(** The sign of a rounded integer is the sign of the integer. *)
Lemma binary_normalize_ltb_zero (D e : Z) :
  (emin <= e)%Z ->
  SFltb (binary_normalize prec emax D e false) (S754_zero false) = (D <? 0)%Z.
Proof.
  intros He. destruct D as [ | p | p]; cbn [binary_normalize].
  - reflexivity.
  - pose proof (binary_round_positive false p e He) as H.
    destruct (binary_round prec emax false p e) as [s | s | | s m' e'];
      cbn [signed_nonzero] in H; try contradiction; subst; reflexivity.
  - pose proof (binary_round_positive true p e He) as H.
    destruct (binary_round prec emax true p e) as [s | s | | s m' e'];
      cbn [signed_nonzero] in H; try contradiction; subst; reflexivity.
Qed.

Lemma shl_align_value m e e' :
  (e' <= e)%Z ->
  Zpos (fst (shl_align m e e')) = (Zpos m * 2 ^ (e - e'))%Z.
Proof.
  intros H. unfold shl_align.
  destruct (e' - e)%Z as [ | p | p] eqn:E; cbn [fst]; try lia.
  - replace (e - e')%Z with 0%Z by lia. lia.
  - fold (shift_pos p m). rewrite shift_pos_correct, Z.pow_pos_fold.
    replace (e - e')%Z with (Zpos p) by lia. lia.
Qed.

Lemma valid_finite_bounds s m e :
  valid_binary (S754_finite s m e) = true ->
  (-1074 <= e)%Z
  /\ (Zpos m < 9007199254740992)%Z
  /\ ((-1074 < e)%Z -> (4503599627370496 <= Zpos m)%Z).
Proof.
  cbn [SpecFloat.valid_binary]. unfold bounded, canonical_mantissa, fexp.
  change (SpecFloat.emin prec emax) with (-1074)%Z. change prec with 53%Z.
  intros H. apply andb_true_iff in H. destruct H as [H _].
  apply Z.eqb_eq in H.
  pose proof (digits2_pos_bounds m) as [Hlo Hhi].
  set (d := Zpos (digits2_pos m)) in *.
  assert (Hd : (d <= 53)%Z) by lia.
  split; [lia | split].
  - eapply Z.lt_le_trans; [exact Hhi | ].
    change 9007199254740992%Z with (2 ^ 53)%Z.
    apply Z.pow_le_mono_r; lia.
  - intros He. assert (d = 53)%Z by lia.
    replace (d - 1)%Z with 52%Z in Hlo by lia. exact Hlo.
Qed.

Lemma SFsub_finite_ltb sx mx ex sy my ey :
  valid_binary (S754_finite sx mx ex) = true ->
  valid_binary (S754_finite sy my ey) = true ->
  SFltb (SF64sub (S754_finite sx mx ex) (S754_finite sy my ey)) (S754_zero false)
  = SFltb (S754_finite sx mx ex) (S754_finite sy my ey).
Proof.
  intros Hx Hy.
  destruct (valid_finite_bounds _ _ _ Hx) as (Hex & Hmx & Hmx').
  destruct (valid_finite_bounds _ _ _ Hy) as (Hey & Hmy & Hmy').
  unfold SF64sub, SFsub.
  rewrite binary_normalize_ltb_zero
    by (change (SpecFloat.emin prec emax) with (-1074)%Z; lia).
  rewrite !shl_align_value by lia.
  unfold SFltb, SFcompare. fold (Pos.compare mx my).
  assert (Hpow : forall k, (1 <= k)%Z -> (2 <= 2 ^ k)%Z).
  { intros k Hk. change 2%Z with (2 ^ 1)%Z at 1. apply Z.pow_le_mono_r; lia. }
  destruct (Z.compare_spec ex ey) as [E | E | E].
  - subst ey. rewrite Z.min_id, Z.sub_diag, !Z.mul_1_r.
    rewrite (Pos.compare_antisym my mx).
    destruct (Pos.compare_spec my mx) as [E | E | E];
      destruct sx, sy; cbn [cond_Zopp CompOpp];
      try (apply Z.ltb_lt; lia); try (apply Z.ltb_ge; lia).
  - rewrite Z.min_l, Z.sub_diag, Z.mul_1_r by lia.
    pose proof (Hpow (ey - ex)%Z ltac:(lia)).
    pose proof (Hmy' ltac:(lia)).
    destruct sx, sy; cbn [cond_Zopp];
      try (apply Z.ltb_lt; nia); try (apply Z.ltb_ge; nia).
  - rewrite Z.min_r, Z.sub_diag, Z.mul_1_r by lia.
    pose proof (Hpow (ex - ey)%Z ltac:(lia)).
    pose proof (Hmx' ltac:(lia)).
    destruct sx, sy; cbn [cond_Zopp];
      try (apply Z.ltb_lt; nia); try (apply Z.ltb_ge; nia).
Qed.

Lemma SFsub_ltb_zero x y :
  valid_binary x = true -> valid_binary y = true ->
  x <> S754_nan -> y <> S754_nan ->
  SFltb (SF64sub x y) (S754_zero false) = SFltb x y.
Proof.
  intros Hx Hy Nx Ny.
  destruct x as [sx | sx | | sx mx ex], y as [sy | sy | | sy my ey];
    try congruence;
    try (destruct sx, sy; reflexivity);
    try (destruct sx; reflexivity);
    try (destruct sy; reflexivity).
  apply SFsub_finite_ltb; assumption.
Qed.

Lemma is_nan_spec x :
  is_nan x = match Prim2SF x with S754_nan => true | _ => false end.
Proof.
  unfold is_nan. rewrite eqb_spec. unfold SFeqb.
  destruct (Prim2SF x) as [s | s | | s m e]; try reflexivity.
  - destruct s; reflexivity.
  - rewrite SFcompare_refl_finite. reflexivity.
Qed.

(** The comparator [(a, b) => a - b] orders like [<]: for operands that are
    not NaN, [a - b < 0] exactly when [a < b]. *)
Lemma sub_ltb_zero (x y : number) :
  is_nan x = false -> is_nan y = false -> (x - y <? 0) = (x <? y).
Proof.
  rewrite !is_nan_spec. intros Nx Ny.
  rewrite !ltb_spec, sub_spec, Prim2SF_zero.
  apply SFsub_ltb_zero; try apply Prim2SF_valid.
  - intros E. rewrite E in Nx. discriminate.
  - intros E. rewrite E in Ny. discriminate.
Qed.

Lemma SFcompare_finite_Lt s1 m1 e1 s2 m2 e2 :
  SFcompare (S754_finite s1 m1 e1) (S754_finite s2 m2 e2) = Some Lt <->
  match s1, s2 with
  | true, false => True
  | false, true => False
  | false, false => (e1 < e2)%Z \/ (e1 = e2 /\ (m1 < m2)%positive)
  | true, true => (e2 < e1)%Z \/ (e1 = e2 /\ (m2 < m1)%positive)
  end.
Proof.
  cbn [SFcompare]. fold (Pos.compare m1 m2).
  destruct s1, s2; try (split; [intros; exact I || discriminate | reflexivity || tauto]);
    destruct (Z.compare_spec e1 e2) as [E | E | E];
    destruct (Pos.compare_spec m1 m2) as [E' | E' | E']; cbn [CompOpp];
    split; intros H; try reflexivity; try discriminate; try lia;
    try (right; split; [lia | assumption]).
Qed.

Lemma SFltb_trans x y z :
  SFltb x y = true -> SFltb y z = true -> SFltb x z = true.
Proof.
  unfold SFltb.
  destruct (SFcompare x y) as [[ | | ] | ] eqn:Exy; try discriminate.
  destruct (SFcompare y z) as [[ | | ] | ] eqn:Eyz; try discriminate.
  intros _ _.
  assert (E : SFcompare x z = Some Lt); [ | rewrite E; reflexivity].
  destruct x as [sx | sx | | sx mx ex], y as [sy | sy | | sy my ey],
    z as [sz | sz | | sz mz ez];
    try discriminate;
    try (destruct sx, sy, sz; cbn in *; congruence).
  apply SFcompare_finite_Lt in Exy, Eyz. apply SFcompare_finite_Lt.
  destruct sx, sy, sz; try tauto; lia.
Qed.

Lemma ltb_trans (x y z : number) :
  (x <? y) = true -> (y <? z) = true -> (x <? z) = true.
Proof. rewrite !ltb_spec. apply SFltb_trans. Qed.

Lemma SFeqb_sym x y : SFeqb y x = SFeqb x y.
Proof.
  unfold SFeqb. rewrite (SFcompare_swap x y).
  destruct (SFcompare x y) as [[ | | ] | ]; reflexivity.
Qed.

Lemma SameValueZero_sym x y : SameValueZero y x = SameValueZero x y.
Proof.
  unfold SameValueZero. rewrite !eqb_spec, SFeqb_sym, (andb_comm (is_nan y)).
  reflexivity.
Qed.

(** Two values that are not NaN are equal or one is below the other. *)
Lemma ltb_total (x y : number) :
  is_nan x = false -> is_nan y = false ->
  SameValueZero x y = false -> (x <? y) = false -> (y <? x) = true.
Proof.
  unfold SameValueZero. rewrite !is_nan_spec, !ltb_spec, eqb_spec.
  unfold SFeqb, SFltb. rewrite (SFcompare_swap (Prim2SF x) (Prim2SF y)).
  destruct (Prim2SF x) as [sx | sx | | sx mx ex],
    (Prim2SF y) as [sy | sy | | sy my ey];
    try discriminate; cbn [orb andb];
    try (destruct sx, sy; cbn; congruence);
    try (destruct sx; cbn; congruence);
    try (destruct sy; cbn; congruence).
  destruct (SFcompare (S754_finite sx mx ex) (S754_finite sy my ey))
    as [[ | | ] | ] eqn:E; cbn; try congruence.
  destruct sx, sy; cbn in E; discriminate.
Qed.


(** ** Deduplication and sort *)

Lemma SFeqb_zero_sign x s s' :
  SFeqb x (S754_zero s) = SFeqb x (S754_zero s').
Proof. destruct x as [sx | sx | | sx mx ex]; reflexivity. Qed.

Lemma SameValueZero_key y x :
  SameValueZero y (Set_key x) = SameValueZero y x.
Proof.
  unfold Set_key. destruct (x =? 0) eqn:E; [ | reflexivity].
  rewrite eqb_zero_spec in E. unfold SameValueZero.
  rewrite !is_nan_spec, !eqb_spec, Prim2SF_zero.
  destruct (Prim2SF x) as [s | s | | s m e]; try discriminate.
  rewrite (SFeqb_zero_sign _ s false). reflexivity.
Qed.

Lemma Set_add_Forall (P : number -> Prop) x s :
  Forall P s -> P (Set_key x) -> Forall P (Set_add x s).
Proof.
  intros Hs Hx. induction Hs as [ | y s Hy Hs IH]; cbn [Set_add].
  - constructor; [assumption | constructor].
  - destruct (SameValueZero y x); constructor; assumption.
Qed.

Lemma Set_add_distinct x s :
  distinct_values s -> distinct_values (Set_add x s).
Proof.
  unfold distinct_values.
  induction 1 as [ | y s Hy Hs IH]; cbn [Set_add].
  - constructor; constructor.
  - destruct (SameValueZero y x) eqn:E.
    + constructor; assumption.
    + constructor; [ | exact IH].
      apply Set_add_Forall; [exact Hy | ].
      rewrite SameValueZero_key. exact E.
Qed.

Lemma Set_of_distinct xs : distinct_values (Set_of xs).
Proof.
  unfold Set_of.
  assert (H : forall s, distinct_values s ->
                distinct_values (fold_left (fun s x => Set_add x s) xs s)).
  { induction xs as [ | x xs IH]; intros s Hs; cbn [fold_left].
    - exact Hs.
    - apply IH, Set_add_distinct, Hs. }
  apply H. constructor.
Qed.

Section Sort.
Variable comparefn : number -> number -> number.

Lemma sort_insert_In x l z :
  In z (sort_insert comparefn x l) <-> z = x \/ In z l.
Proof.
  induction l as [ | y l IH]; cbn [sort_insert].
  - simpl. intuition congruence.
  - destruct (comparefn x y <? 0); cbn [In]; [intuition congruence | ].
    rewrite IH. intuition congruence.
Qed.

Lemma sort_insert_Forall (P : number -> Prop) x l :
  P x -> Forall P l -> Forall P (sort_insert comparefn x l).
Proof.
  intros Hx Hl. apply Forall_forall. intros z Hz.
  apply sort_insert_In in Hz. destruct Hz as [-> | Hz]; [exact Hx | ].
  rewrite Forall_forall in Hl. apply Hl, Hz.
Qed.

Lemma sort_insert_distinct x l :
  distinct_values l ->
  Forall (fun y => SameValueZero x y = false) l ->
  distinct_values (sort_insert comparefn x l).
Proof.
  unfold distinct_values.
  induction 1 as [ | y l Hy Hl IH]; intros Hx; cbn [sort_insert].
  - constructor; constructor.
  - destruct (comparefn x y <? 0).
    + constructor; [exact Hx | constructor; assumption].
    + inversion Hx as [ | ? ? Hxy Hxl]; subst.
      constructor; [ | apply IH, Hxl].
      apply sort_insert_Forall; [ | exact Hy].
      rewrite SameValueZero_sym. exact Hxy.
Qed.

Lemma Array_sort_In xs z : In z (Array_sort comparefn xs) <-> In z xs.
Proof.
  unfold Array_sort.
  assert (H : forall sorted,
             In z (fold_left (fun sorted x => sort_insert comparefn x sorted)
                     xs sorted)
             <-> In z sorted \/ In z xs).
  { induction xs as [ | x xs IH]; intros sorted; cbn [fold_left].
    - simpl. tauto.
    - rewrite IH, sort_insert_In. simpl. intuition congruence. }
  rewrite H. simpl. tauto.
Qed.

Lemma Array_sort_distinct xs :
  distinct_values xs -> distinct_values (Array_sort comparefn xs).
Proof.
  unfold Array_sort.
  assert (H : forall sorted,
             distinct_values sorted -> distinct_values xs ->
             Forall (fun x => Forall (fun a => SameValueZero x a = false) sorted) xs ->
             distinct_values
               (fold_left (fun sorted x => sort_insert comparefn x sorted)
                  xs sorted)).
  { induction xs as [ | x xs IH]; intros sorted Hs Hxs Hcross; cbn [fold_left].
    - exact Hs.
    - inversion Hxs as [ | ? ? Hx Hxs']; subst.
      inversion Hcross as [ | ? ? Hxsorted Hcross']; subst.
      apply IH.
      + apply sort_insert_distinct; assumption.
      + exact Hxs'.
      + rewrite Forall_forall in *. intros b Hb.
        apply sort_insert_Forall; [ | apply Hcross', Hb].
        rewrite SameValueZero_sym. apply Hx, Hb. }
  intros Hxs. apply H; [constructor | exact Hxs | ].
  apply Forall_forall. intros; constructor.
Qed.
End Sort.

Lemma sort_insert_ascending x l :
  strictly_ascending l ->
  is_nan x = false -> Forall (fun y => is_nan y = false) l ->
  Forall (fun y => SameValueZero x y = false) l ->
  strictly_ascending (sort_insert PrimFloat.sub x l).
Proof.
  unfold strictly_ascending.
  induction 1 as [ | y l Hl IH Hy]; intros Nx Nl Dx; cbn [sort_insert].
  - constructor; constructor.
  - inversion Nl as [ | ? ? Ny Nl']; subst.
    inversion Dx as [ | ? ? Dxy Dxl]; subst.
    rewrite (sub_ltb_zero x y Nx Ny).
    destruct (x <? y) eqn:E.
    + constructor; [constructor; assumption | ].
      constructor; [exact E | ].
      eapply Forall_impl; [ | exact Hy].
      intros z Hz. cbv beta in Hz. eapply ltb_trans; eassumption.
    + constructor; [apply IH; assumption | ].
      apply sort_insert_Forall; [ | exact Hy].
      apply ltb_total; assumption.
Qed.

Lemma Array_sort_ascending xs :
  distinct_values xs -> Forall (fun y => is_nan y = false) xs ->
  strictly_ascending (Array_sort PrimFloat.sub xs).
Proof.
  unfold Array_sort.
  assert (H : forall sorted,
             strictly_ascending sorted ->
             Forall (fun y => is_nan y = false) sorted ->
             distinct_values xs -> Forall (fun y => is_nan y = false) xs ->
             Forall (fun x => Forall (fun a => SameValueZero x a = false) sorted) xs ->
             strictly_ascending
               (fold_left (fun sorted x => sort_insert PrimFloat.sub x sorted)
                  xs sorted)).
  { induction xs as [ | x xs IH]; intros sorted Hs Ns Hxs Nxs Hcross;
      cbn [fold_left].
    - exact Hs.
    - inversion Hxs as [ | ? ? Hx Hxs']; subst.
      inversion Nxs as [ | ? ? Nx Nxs']; subst.
      inversion Hcross as [ | ? ? Hxsorted Hcross']; subst.
      apply IH.
      + apply sort_insert_ascending; assumption.
      + apply sort_insert_Forall; assumption.
      + exact Hxs'.
      + exact Nxs'.
      + rewrite Forall_forall in *. intros b Hb.
        apply sort_insert_Forall; [ | apply Hcross', Hb].
        rewrite SameValueZero_sym. apply Hx, Hb. }
  intros Hxs Nxs. apply H; try assumption; try constructor.
  apply Forall_forall. intros; constructor.
Qed.

(** ** The sequence returned by generateScale *)

Lemma generateScale_returns fuel start end_ options scale :
  generateScale fuel start end_ options = Return scale ->
  exists points, scale = Array_sort PrimFloat.sub (Set_of points).
Proof.
  unfold generateScale. destruct (geb start end_); [discriminate | ].
  destruct (generateScale_points _ _ _ _ _ _ _ _ _) as [points | message | ];
    [ | discriminate | discriminate].
  intros H. injection H as <-. exists points. reflexivity.
Qed.

(** C7, as stated, fails: the exponential progression from a start that is
    not positive takes the logarithm of it, every intermediate point is
    NaN, and the comparator [a - b] never moves a NaN.
    generateScale(-1, 1, {progression: 'exponential'}) returns
    [-1, NaN, 1], which is not ascending: -1 < NaN and NaN < 1 are false.
    The linear progression from -Infinity does the same, its step being
    +Infinity. *)
Lemma generateScale_nan_counterexample :
  (-1 <? 1) = true
  /\ generateScale 0 (-1) 1 (default_options_with exponential None)
     = Return [-1; nan; 1]
  /\ (-1 <? nan) = false
  /\ (nan <? 1) = false
  /\ generateScale 0 neg_infinity 0 (default_options_with linear None)
     = Return [neg_infinity; nan; 0].
Proof. vm_compute. repeat split; reflexivity. Qed.

(** C7, amended: whatever the arguments and the configuration, a sequence
    returned by generateScale holds no value twice (the points go through a
    Set), and it is sorted strictly ascending provided none of its values
    is NaN. *)
Theorem generateScale_sorted_amended :
  forall fuel start end_ options scale,
    generateScale fuel start end_ options = Return scale ->
    distinct_values scale
    /\ ((forall x, In x scale -> is_nan x = false) -> strictly_ascending scale).
Proof.
  intros fuel start end_ options scale H.
  destruct (generateScale_returns _ _ _ _ _ H) as [points ->].
  pose proof (Set_of_distinct points) as D.
  split.
  - apply Array_sort_distinct, D.
  - intros N. apply Array_sort_ascending; [exact D | ].
    apply Forall_forall. intros x Hx. apply N, Array_sort_In, Hx.
Qed.

(** The friendly scale from 100 to 1000. *)
Lemma generateScale_sorted_amended_witness :
  generateScale 5 100 1000 default_GenerateScaleOptions
  = Return [100; 200; 500; 1000]
  /\ strictly_ascending [100; 200; 500; 1000].
Proof.
  assert (H : generateScale 5 100 1000 default_GenerateScaleOptions
              = Return [100; 200; 500; 1000]) by (vm_compute; reflexivity).
  split; [exact H | ].
  apply (generateScale_sorted_amended _ _ _ _ _ H).
  intros x Hx. cbn [In] in Hx.
  repeat (destruct Hx as [<- | Hx]; [reflexivity | ]). contradiction.
Defined.

(** ** The scaling round trip *)

Lemma ulps_finite_sign s m e :
  valid_binary (S754_finite s m e) = true ->
  let u := ((if s then - Zpos m else Zpos m) * 2 ^ (e + 1074))%Z in
  (if s then u < 0 else 0 < u)%Z.
Proof.
  intros H. destruct (valid_finite_bounds _ _ _ H) as [He _].
  assert (0 < 2 ^ (e + 1074))%Z by (apply Z.pow_pos_nonneg; lia).
  destruct s; cbv zeta; nia.
Qed.

(** A finite double that is not a zero is determined by its value. *)
Lemma finite_value_inj s1 m1 e1 s2 m2 e2 :
  valid_binary (S754_finite s1 m1 e1) = true ->
  valid_binary (S754_finite s2 m2 e2) = true ->
  ((if s1 then - Zpos m1 else Zpos m1) * 2 ^ (e1 + 1074)
   = (if s2 then - Zpos m2 else Zpos m2) * 2 ^ (e2 + 1074))%Z ->
  S754_finite s1 m1 e1 = S754_finite s2 m2 e2.
Proof.
  intros H1 H2 E.
  pose proof (ulps_finite_sign _ _ _ H1) as S1.
  pose proof (ulps_finite_sign _ _ _ H2) as S2. cbv zeta in S1, S2.
  destruct (valid_finite_bounds _ _ _ H1) as (He1 & Hm1 & Hm1').
  destruct (valid_finite_bounds _ _ _ H2) as (He2 & Hm2 & Hm2').
  assert (Hs : s1 = s2) by (destruct s1, s2; try reflexivity; lia).
  subst s2.
  assert (Em : (Zpos m1 * 2 ^ (e1 + 1074) = Zpos m2 * 2 ^ (e2 + 1074))%Z)
    by (destruct s1; lia).
  clear E S1 S2.
  assert (Hpow : forall k, (1 <= k)%Z -> (2 <= 2 ^ k)%Z).
  { intros k Hk. change 2%Z with (2 ^ 1)%Z at 1. apply Z.pow_le_mono_r; lia. }
  assert (He : e1 = e2).
  { destruct (Z.lt_trichotomy e1 e2) as [L | [L | L]]; [ | exact L | ]; exfalso.
    - replace (e2 + 1074)%Z with ((e1 + 1074) + (e2 - e1))%Z in Em by lia.
      rewrite (Z.pow_add_r 2 (e1 + 1074) (e2 - e1)) in Em by lia.
      assert (0 < 2 ^ (e1 + 1074))%Z by (apply Z.pow_pos_nonneg; lia).
      pose proof (Hpow (e2 - e1)%Z ltac:(lia)).
      pose proof (Hm2' ltac:(lia)).
      assert (Zpos m1 = Zpos m2 * 2 ^ (e2 - e1))%Z
        by (apply (Z.mul_reg_r _ _ (2 ^ (e1 + 1074))); [lia | rewrite Em; ring]).
      nia.
    - replace (e1 + 1074)%Z with ((e2 + 1074) + (e1 - e2))%Z in Em by lia.
      rewrite (Z.pow_add_r 2 (e2 + 1074) (e1 - e2)) in Em by lia.
      assert (0 < 2 ^ (e2 + 1074))%Z by (apply Z.pow_pos_nonneg; lia).
      pose proof (Hpow (e1 - e2)%Z ltac:(lia)).
      pose proof (Hm1' ltac:(lia)).
      assert (Zpos m2 = Zpos m1 * 2 ^ (e1 - e2))%Z
        by (apply (Z.mul_reg_r _ _ (2 ^ (e2 + 1074))); [lia | rewrite <- Em; ring]).
      nia. }
  subst e2.
  assert (0 < 2 ^ (e1 + 1074))%Z by (apply Z.pow_pos_nonneg; lia).
  assert (Zpos m1 = Zpos m2)
    by (apply (Z.mul_reg_r _ _ (2 ^ (e1 + 1074))); [lia | exact Em]).
  congruence.
Qed.

Lemma ulps_zero_inv x :
  ulps x = Some 0%Z -> exists s, Prim2SF x = S754_zero s.
Proof.
  unfold ulps. pose proof (Prim2SF_valid x) as V.
  destruct (Prim2SF x) as [s | s | | s m e]; try discriminate.
  - intros _. exists s. reflexivity.
  - intros H. injection H as H.
    pose proof (ulps_finite_sign _ _ _ V) as S. cbv zeta in S.
    destruct s; lia.
Qed.

Lemma ulps_nonzero_inv x u :
  ulps x = Some u -> u <> 0%Z ->
  exists s m e,
    Prim2SF x = S754_finite s m e
    /\ u = ((if s then - Zpos m else Zpos m) * 2 ^ (e + 1074))%Z
    /\ (if s then u < 0 else 0 < u)%Z.
Proof.
  unfold ulps. pose proof (Prim2SF_valid x) as V.
  destruct (Prim2SF x) as [s | s | | s m e]; try discriminate.
  - intros H. injection H as <-. congruence.
  - intros H _. injection H as <-. exists s, m, e.
    split; [reflexivity | split; [reflexivity | ]].
    apply (ulps_finite_sign _ _ _ V).
Qed.

(** C9, as stated, fails: binary64 products and quotients round, and a
    zero ratio has no inverse.  With [preserveSignificantDigits: false],
    scaling 1 by 49 and back gives 0.9999999999999999 (1/49 is not a
    double), and scaling 5 by 0 and back gives 0 * Infinity, that is NaN. *)
Lemma scale_round_trip_counterexample :
  scaleNumber 1 49 no_preservation = 49
  /\ scaleNumberInverse 49 49 no_preservation = 0.99999999999999989
  /\ (0.99999999999999989 <? 1) = true
  /\ scaleNumber 5 0 no_preservation = 0
  /\ is_nan (scaleNumberInverse 0 0 no_preservation) = true.
Proof. vm_compute. repeat split; reflexivity. Qed.

(** C9, amended: scaleNumberInverse(value, ratio, options) is
    scaleNumber(value, 1/ratio, options), so with
    [preserveSignificantDigits: false] the round trip computes
    [(v * r) * (1 / r)] in binary64; it returns exactly [v] whenever none of
    the three operations rounds, that is when [v * r], [1 / r] and their
    product are finite and exact. *)
Theorem scale_round_trip_amended :
  forall v r,
    exact_product v r (v * r) ->
    exact_product (1 / r) r 1 ->
    exact_product (v * r) (1 / r) ((v * r) * (1 / r)) ->
    scaleNumberInverse (scaleNumber v r no_preservation) r no_preservation = v.
Proof.
  intros v r Hp Hi Hq.
  change (scaleNumberInverse (scaleNumber v r no_preservation) r no_preservation)
    with ((v * r) * (1 / r)).
  unfold exact_product in *.
  change (ulps 1) with (Some (2 ^ 1074)%Z) in Hi.
  destruct (ulps v) as [a | ] eqn:Ea; [ | contradiction].
  destruct (ulps r) as [b | ] eqn:Eb; [ | contradiction].
  destruct (ulps (v * r)) as [c | ] eqn:Ec; [ | contradiction].
  destruct (ulps (1 / r)) as [d | ] eqn:Ed; [ | contradiction].
  destruct (ulps ((v * r) * (1 / r))) as [e | ] eqn:Ee; [ | contradiction].
  assert (HK : (0 < 2 ^ 1074)%Z) by (apply Z.pow_pos_nonneg; lia).
  set (K := (2 ^ 1074)%Z) in *.
  assert (Hb : b <> 0%Z) by nia.
  assert (Hd : d <> 0%Z) by nia.
  assert (Hea : e = a).
  { apply (Z.mul_reg_r _ _ b Hb). apply (Z.mul_reg_r _ _ K); [lia | ].
    replace (e * b * K)%Z with (e * K * b)%Z by ring. rewrite <- Hq.
    replace (c * d * b)%Z with (c * (d * b))%Z by ring. rewrite Hi.
    replace (c * (K * K))%Z with (c * K * K)%Z by ring. rewrite <- Hp.
    reflexivity. }
  subst e.
  apply Prim2SF_inj.
  destruct (Z.eq_dec a 0) as [Ha | Ha].
  - subst a.
    destruct (ulps_zero_inv _ Ea) as [sv Ev].
    destruct (ulps_zero_inv _ Ee) as [sq Eq].
    destruct (ulps_nonzero_inv _ _ Eb Hb) as (sr & mr & er & Er & _ & Sr).
    destruct (ulps_nonzero_inv _ _ Ed Hd) as (si & mi & ei & Ei & _ & Si).
    assert (si = sr) by (destruct si, sr; try reflexivity; nia).
    subst si.
    rewrite Ev, mul_spec, Ei, mul_spec, Ev, Er. cbn [SF64mul SFmul].
    destruct sv, sr; reflexivity.
  - destruct (ulps_nonzero_inv _ _ Ea Ha) as (sv & mv & ev & Ev & Ua & _).
    destruct (ulps_nonzero_inv _ _ Ee Ha) as (sq & mq & eq & Eq & Uq & _).
    rewrite Ev, Eq.
    pose proof (Prim2SF_valid v) as Vv. rewrite Ev in Vv.
    pose proof (Prim2SF_valid ((v * r) * (1 / r))) as Vq. rewrite Eq in Vq.
    apply finite_value_inj; [exact Vq | exact Vv | congruence].
Qed.

(** Scaling 3 by 2 and back: 6, 0.5 and 3 are exact. *)
Lemma scale_round_trip_amended_witness :
  exact_product 3 2 (3 * 2)
  /\ exact_product (1 / 2) 2 1
  /\ exact_product (3 * 2) (1 / 2) ((3 * 2) * (1 / 2))
  /\ scaleNumberInverse (scaleNumber 3 2 no_preservation) 2 no_preservation = 3.
Proof.
  assert (H1 : exact_product 3 2 (3 * 2)) by (vm_compute; reflexivity).
  assert (H2 : exact_product (1 / 2) 2 1) by (vm_compute; reflexivity).
  assert (H3 : exact_product (3 * 2) (1 / 2) ((3 * 2) * (1 / 2)))
    by (vm_compute; reflexivity).
  split; [exact H1 | split; [exact H2 | split; [exact H3 | ]]].
  exact (scale_round_trip_amended 3 2 H1 H2 H3).
Defined.

(** ** Values that scaleNumber does not round *)

Lemma SFmul_not_finite_l x y :
  match x with S754_infinity _ | S754_nan => True | _ => False end ->
  match SF64mul x y with S754_infinity _ | S754_nan => True | _ => False end.
Proof.
  unfold SF64mul.
  destruct x as [sx | sx | | sx mx ex], y as [sy | sy | | sy my ey];
    cbn [SFmul]; tauto.
Qed.

Lemma SFmul_not_finite_r x y :
  match y with S754_infinity _ | S754_nan => True | _ => False end ->
  match SF64mul x y with S754_infinity _ | S754_nan => True | _ => False end.
Proof.
  unfold SF64mul.
  destruct x as [sx | sx | | sx mx ex], y as [sy | sy | | sy my ey];
    cbn [SFmul]; tauto.
Qed.

Lemma SFmul_zero_l x y :
  match x with S754_zero _ => True | _ => False end ->
  match SF64mul x y with S754_zero _ | S754_nan => True | _ => False end.
Proof.
  unfold SF64mul.
  destruct x as [sx | sx | | sx mx ex], y as [sy | sy | | sy my ey];
    cbn [SFmul]; tauto.
Qed.

Lemma mul_not_finite_l (x y : number) :
  isFinite x = false -> isFinite (x * y) = false.
Proof.
  rewrite !isFinite_spec, mul_spec. intros H.
  pose proof (SFmul_not_finite_l (Prim2SF x) (Prim2SF y)) as M.
  destruct (Prim2SF x); try discriminate;
    destruct (SF64mul _ _); try reflexivity; exfalso; apply M; exact I.
Qed.

Lemma mul_not_finite_r (x y : number) :
  isFinite y = false -> isFinite (x * y) = false.
Proof.
  rewrite !isFinite_spec, mul_spec. intros H.
  pose proof (SFmul_not_finite_r (Prim2SF x) (Prim2SF y)) as M.
  destruct (Prim2SF y); try discriminate;
    destruct (SF64mul _ _); try reflexivity; exfalso; apply M; exact I.
Qed.

Lemma mul_zero_l (x y : number) :
  (x =? 0) = true -> isFinite (x * y) = false \/ (x * y =? 0) = true.
Proof.
  rewrite !isFinite_spec, !eqb_zero_spec, mul_spec. intros H.
  pose proof (SFmul_zero_l (Prim2SF x) (Prim2SF y)) as M.
  destruct (Prim2SF x); try discriminate;
    destruct (SF64mul _ _); try (left; reflexivity); try (right; reflexivity);
    exfalso; apply M; exact I.
Qed.

(** scaleNumber rounds nothing when [value] is a zero, an infinity or NaN:
    whatever the ratio and the options, the result is the binary64 product
    [value * ratio] (a zero, an infinity or NaN). *)
Theorem scaleNumber_zero_or_not_finite :
  forall value ratio options,
    isFinite value = false \/ (value =? 0) = true ->
    scaleNumber value ratio options = value * ratio
    /\ (isFinite (value * ratio) = false \/ (value * ratio =? 0) = true).
Proof.
  intros value ratio options H.
  assert (E : isFinite (value * ratio) = false \/ (value * ratio =? 0) = true).
  { destruct H as [H | H].
    - left. apply mul_not_finite_l, H.
    - apply mul_zero_l, H. }
  split; [ | exact E].
  unfold scaleNumber.
  destruct (negb (or_default (preserveSignificantDigits options) true));
    [reflexivity | ].
  apply roundToSignificantDigits_guard. tauto.
Qed.

(** scaleNumber(0, 365.25) is the product 0 * 365.25. *)
Lemma scaleNumber_zero_or_not_finite_witness :
  (0 =? 0) = true
  /\ scaleNumber 0 365.25 default_ScaleOptions = 0 * 365.25.
Proof.
  split; [reflexivity | ].
  apply (scaleNumber_zero_or_not_finite 0 365.25 default_ScaleOptions).
  right. reflexivity.
Defined.

Lemma div_one_zero (ratio : number) :
  (ratio =? 0) = true -> isFinite (1 / ratio) = false.
Proof.
  rewrite isFinite_spec, eqb_zero_spec, div_spec.
  change (Prim2SF 1) with (S754_finite false 4503599627370496 (-52)).
  destruct (Prim2SF ratio) as [s | s | | s m e]; try discriminate.
  reflexivity.
Qed.

(** scaleNumberInverse does not reject a ratio of zero: [1 / ratio] is then
    an infinity, and the result is the product of [value] and that infinity,
    which is an infinity or NaN and never a finite number. *)
Theorem scaleNumberInverse_zero_ratio :
  forall value ratio options,
    (ratio =? 0) = true ->
    scaleNumberInverse value ratio options = value * (1 / ratio)
    /\ isFinite (scaleNumberInverse value ratio options) = false.
Proof.
  intros value ratio options H.
  assert (E : isFinite (value * (1 / ratio)) = false)
    by apply mul_not_finite_r, div_one_zero, H.
  assert (S : scaleNumberInverse value ratio options = value * (1 / ratio)).
  { unfold scaleNumberInverse, scaleNumber.
    destruct (negb (or_default (preserveSignificantDigits options) true));
      [reflexivity | ].
    apply roundToSignificantDigits_guard. left. exact E. }
  rewrite S. split; [reflexivity | exact E].
Qed.

(** scaleNumberInverse(40, 0) is 40 * Infinity. *)
Lemma scaleNumberInverse_zero_ratio_witness :
  (0 =? 0) = true
  /\ scaleNumberInverse 40 0 default_ScaleOptions = 40 * (1 / 0)
  /\ isFinite (scaleNumberInverse 40 0 default_ScaleOptions) = false.
Proof.
  split; [reflexivity | ].
  apply (scaleNumberInverse_zero_ratio 40 0 default_ScaleOptions).
  reflexivity.
Defined.

(** The digit bounds of scaleNumber at their edges: when
    [minSignificantDigits] exceeds [maxSignificantDigits] the minimum wins
    and the product is rounded to [minSignificantDigits] digits; when both
    bounds are zero or negative the product is not rounded at all. *)
Theorem scaleNumber_bounds_edge :
  forall value ratio options lo hi,
    preserveSignificantDigits options <> Some false ->
    lo = or_default (minSignificantDigits options) 1%Z ->
    hi = or_default (maxSignificantDigits options) 15%Z ->
    ((hi < lo)%Z ->
     scaleNumber value ratio options
     = roundToSignificantDigits (value * ratio) lo)
    /\ ((lo <= 0)%Z -> (hi <= 0)%Z ->
        scaleNumber value ratio options = value * ratio).
Proof.
  intros value ratio options lo hi P -> ->.
  assert (E : scaleNumber value ratio options
              = roundToSignificantDigits (value * ratio)
                  (Z.max (or_default (minSignificantDigits options) 1%Z)
                     (Z.min (or_default (maxSignificantDigits options) 15%Z)
                        (countSignificantDigits value)))).
  { unfold scaleNumber.
    destruct (preserveSignificantDigits options) as [[ | ] | ];
      try reflexivity. congruence. }
  rewrite E. split.
  - intros H. f_equal. lia.
  - intros Hlo Hhi. apply roundToSignificantDigits_guard. right. right. lia.
Qed.

(** A minimum of 3 digits against a maximum of 2. *)
Lemma scaleNumber_bounds_edge_witness :
  (2 < 3)%Z
  /\ scaleNumber 1.23456 1
       {| preserveSignificantDigits := None;
          minSignificantDigits := Some 3%Z;
          maxSignificantDigits := Some 2%Z |}
     = roundToSignificantDigits (1.23456 * 1) 3.
Proof.
  split; [lia | ].
  apply (scaleNumber_bounds_edge 1.23456 1
           {| preserveSignificantDigits := None;
              minSignificantDigits := Some 3%Z;
              maxSignificantDigits := Some 2%Z |} 3%Z 2%Z);
    [discriminate | reflexivity | reflexivity | lia].
Defined.

(** ** Sign and edge values *)

Lemma countSignificantDigits_opp value :
  countSignificantDigits (- value) = countSignificantDigits value.
Proof.
  unfold countSignificantDigits.
  rewrite isFinite_opp, eqb_zero_opp. unfold Math_abs. rewrite abs_opp.
  reflexivity.
Qed.

Lemma roundToHalfSignificantDigits_guard value significantDigits :
  isFinite value = false \/ (value =? 0) = true \/ (significantDigits <= 0)%Z ->
  roundToHalfSignificantDigits value significantDigits = value.
Proof.
  intros H. unfold roundToHalfSignificantDigits.
  destruct H as [H | [H | H]].
  - rewrite H. reflexivity.
  - rewrite H, orb_true_r. reflexivity.
  - apply Z.leb_le in H. rewrite H, orb_true_r. reflexivity.
Qed.

(** In either mode toSignificantDigits returns [value] as it is (the same
    zero, infinity or NaN, sign included) when [value] is not finite or is
    a zero, and returns any [value] as it is when [significantDigits] is
    zero or negative. *)
Theorem toSignificantDigits_unchanged :
  forall value significantDigits options,
    isFinite value = false \/ (value =? 0) = true \/ (significantDigits <= 0)%Z ->
    toSignificantDigits value significantDigits options = value.
Proof.
  intros value sd options H. unfold toSignificantDigits.
  destruct (mode options) as [[ | ] | ].
  - apply roundToSignificantDigits_guard, H.
  - apply roundToHalfSignificantDigits_guard, H.
  - apply roundToSignificantDigits_guard, H.
Qed.

(** toSignificantDigits(1234, 0, { mode: 'half' }) is 1234. *)
Lemma toSignificantDigits_unchanged_witness :
  (0 <= 0)%Z
  /\ toSignificantDigits 1234 0 {| mode := Some half |} = 1234.
Proof.
  split; [lia | ].
  apply (toSignificantDigits_unchanged 1234 0 {| mode := Some half |}).
  right. right. lia.
Defined.

(** roundToHalfSignificantDigits treats negative inputs symmetrically away
    from ties: roundToHalfSignificantDigits(-v, n) is
    -roundToHalfSignificantDigits(v, n) whenever twice the scaled value is
    not exactly half-way between two integers. *)
Theorem roundToHalfSignificantDigits_opp :
  forall value significantDigits,
    is_half_way (value / rounding_scale value significantDigits * 2) = false ->
    roundToHalfSignificantDigits (- value) significantDigits
    = - roundToHalfSignificantDigits value significantDigits.
Proof.
  intros value sd Htie. unfold roundToHalfSignificantDigits.
  rewrite isFinite_opp, eqb_zero_opp.
  destruct (negb (isFinite value) || (value =? 0) || (sd <=? 0)%Z);
    [reflexivity | ].
  unfold Math_abs. rewrite abs_opp.
  fold (Math_abs value). fold (rounding_scale value sd). cbv zeta.
  rewrite div_opp_l, mul_opp_l, (Math_round_opp _ Htie), div_opp_l, mul_opp_l.
  reflexivity.
Qed.

(** The symmetry at 1321 and 1 digit, where twice the quotient is 2.642. *)
Lemma roundToHalfSignificantDigits_opp_witness :
  is_half_way (1321 / rounding_scale 1321 1 * 2) = false
  /\ roundToHalfSignificantDigits (- 1321) 1
     = - roundToHalfSignificantDigits 1321 1.
Proof.
  split; [vm_compute; reflexivity | ].
  apply (roundToHalfSignificantDigits_opp 1321 1). vm_compute. reflexivity.
Defined.

Lemma nan_inv (x : number) : Prim2SF x = S754_nan -> x = nan.
Proof. intros H. apply Prim2SF_inj. rewrite H. reflexivity. Qed.

Lemma infinity_inv (x : number) s :
  Prim2SF x = S754_infinity s -> x = if s then neg_infinity else infinity.
Proof. intros H. apply Prim2SF_inj. rewrite H. destruct s; reflexivity. Qed.

(** roundToFriendlyNumber at the edges: both zeros give +0, and an infinity
    or NaN is returned as it is. *)
Theorem roundToFriendlyNumber_edges :
  forall value,
    ((value =? 0) = true -> roundToFriendlyNumber value = 0)
    /\ (isFinite value = false -> roundToFriendlyNumber value = value).
Proof.
  intros value. split.
  - intros H. unfold roundToFriendlyNumber. rewrite H. reflexivity.
  - rewrite isFinite_spec. intros H.
    destruct (Prim2SF value) as [s | s | | s m e] eqn:E; try discriminate.
    + rewrite (infinity_inv _ _ E). destruct s; vm_compute; reflexivity.
    + rewrite (nan_inv _ E). vm_compute. reflexivity.
Qed.

(** roundToFriendlyNumber is odd: apart from the zeros (which both give +0),
    roundToFriendlyNumber(-v) is -roundToFriendlyNumber(v). *)
Theorem roundToFriendlyNumber_opp :
  forall value,
    (value =? 0) = false ->
    roundToFriendlyNumber (- value) = - roundToFriendlyNumber value.
Proof.
  intros value Hz.
  destruct (Prim2SF value) as [s | s | | s m e] eqn:E.
  - rewrite eqb_zero_spec, E in Hz. discriminate.
  - rewrite (infinity_inv _ _ E). destruct s; vm_compute; reflexivity.
  - rewrite (nan_inv _ E). vm_compute. reflexivity.
  - unfold roundToFriendlyNumber.
    rewrite eqb_zero_opp, Hz. unfold Math_abs. rewrite abs_opp.
    rewrite !ltb_zero_spec, opp_spec, E. cbn [SFopp].
    destruct s; cbn [negb]; [rewrite opp_involutive | ]; reflexivity.
Qed.

(** The symmetry at 220. *)
Lemma roundToFriendlyNumber_opp_witness :
  (220 =? 0) = false
  /\ roundToFriendlyNumber (- 220) = - roundToFriendlyNumber 220.
Proof.
  split; [reflexivity | ].
  apply (roundToFriendlyNumber_opp 220). reflexivity.
Defined.

(** ** Exact products and a vanishing scale *)

Lemma valid_finite_canonical s m e :
  valid_binary (S754_finite s m e) = true ->
  fexp prec emax (Zpos (digits2_pos m) + e) = e /\ (e <=? emax - prec)%Z = true.
Proof.
  cbn [SpecFloat.valid_binary]. unfold bounded, canonical_mantissa.
  intros H. apply andb_true_iff in H. destruct H as [H1 H2].
  apply Z.eqb_eq in H1. split; assumption.
Qed.

Lemma SFmul_one s m e :
  valid_binary (S754_finite s m e) = true ->
  SF64mul (S754_finite s m e) (Prim2SF 1) = S754_finite s m e.
Proof.
  intros V. destruct (valid_finite_canonical _ _ _ V) as [C B].
  change (Prim2SF 1) with (S754_finite false 4503599627370496 (-52)).
  unfold SF64mul. cbn [SFmul]. rewrite xorb_false_r, Pos.mul_comm.
  cbn [Pos.mul].
  unfold binary_round_aux, shr_fexp.
  match goal with
  | |- context [Zdigits2 (Zpos ?p)] =>
    assert (D : Zdigits2 (Zpos p) = (Zpos (digits2_pos m) + 52)%Z)
      by (cbn [Zdigits2 digits2_pos]; rewrite !Pos2Z.inj_succ; lia);
    rewrite D; clear D
  end.
  replace (Z.pos (digits2_pos m) + 52 + (e + -52))%Z
    with (Z.pos (digits2_pos m) + e)%Z by lia.
  rewrite C.
  replace (e - (e + -52))%Z with 52%Z by lia.
  cbv [shr shr_record_of_loc iter_pos shr_1 orb].
  cbn [shr_m loc_of_shr_record shr_r shr_s round_nearest_even].
  replace (e + -52 + 52)%Z with e by lia.
  cbn [Zdigits2]. rewrite C, Z.sub_diag. cbn [shr_m].
  rewrite B. reflexivity.
Qed.

Lemma mul_one (x : number) : x * 1 = x.
Proof.
  apply Prim2SF_inj. rewrite mul_spec.
  pose proof (Prim2SF_valid x) as V.
  destruct (Prim2SF x) as [s | s | | s m e] eqn:E.
  - destruct s; reflexivity.
  - destruct s; reflexivity.
  - reflexivity.
  - apply SFmul_one, V.
Qed.

(** A ratio of 1 without the preservation of significant digits is the
    identity, in both directions and for every value, NaN, the infinities
    and the signed zeros included.  With the preservation (the default)
    it is not: 1.0000000000000002, the double after 1, has 17 significant
    digits, and scaling it by 1 rounds it to 15 digits, which gives 1. *)
Theorem scaleNumber_ratio_one :
  forall value,
    scaleNumber value 1 no_preservation = value
    /\ scaleNumberInverse value 1 no_preservation = value
    /\ countSignificantDigits 1.0000000000000002 = 17%Z
    /\ scaleNumber 1.0000000000000002 1 default_ScaleOptions = 1
    /\ (1 <? 1.0000000000000002) = true.
Proof.
  intros value. split; [ | split].
  - change (scaleNumber value 1 no_preservation) with (value * 1).
    apply mul_one.
  - change (scaleNumberInverse value 1 no_preservation) with (value * (1 / 1)).
    change (1 / 1) with 1. apply mul_one.
  - vm_compute. repeat split; reflexivity.
Qed.

Lemma div_finite_zero (x y : number) :
  isFinite x = true -> (x =? 0) = false -> (y =? 0) = true ->
  exists s, Prim2SF (x / y) = S754_infinity s.
Proof.
  rewrite isFinite_spec, !eqb_zero_spec, div_spec.
  destruct (Prim2SF x) as [sx | sx | | sx mx ex]; try discriminate.
  destruct (Prim2SF y) as [sy | sy | | sy my ey]; try discriminate.
  intros _ _ _. eexists. reflexivity.
Qed.

(** roundToSignificantDigits can turn a finite value into NaN: when the
    scale [10^(magnitude - significantDigits + 1)] underflows to zero, the
    quotient is an infinity and its product with the zero scale is NaN.
    This happens for the smallest doubles, or a very large number of
    digits. *)
Theorem roundToSignificantDigits_scale_underflow :
  forall value significantDigits,
    isFinite value = true -> (value =? 0) = false ->
    (0 < significantDigits)%Z ->
    (rounding_scale value significantDigits =? 0) = true ->
    is_nan (roundToSignificantDigits value significantDigits) = true.
Proof.
  intros value sd Hf Hz Hs Hscale.
  rewrite (roundToSignificantDigits_formula _ _ Hf Hz Hs).
  fold (rounding_scale value sd).
  destruct (div_finite_zero _ _ Hf Hz Hscale) as [s Eq].
  rewrite is_nan_spec, mul_spec.
  unfold Math_round. rewrite Eq, Eq.
  rewrite eqb_zero_spec in Hscale.
  destruct (Prim2SF (rounding_scale value sd)); try discriminate.
  reflexivity.
Qed.

(** The least positive double at 2 digits: the scale 10^-325 is zero. *)
Lemma roundToSignificantDigits_scale_underflow_witness :
  isFinite 5e-324 = true /\ (5e-324 =? 0) = false
  /\ (rounding_scale 5e-324 2 =? 0) = true
  /\ is_nan (roundToSignificantDigits 5e-324 2) = true.
Proof.
  assert (H : (rounding_scale 5e-324 2 =? 0) = true) by (vm_compute; reflexivity).
  split; [reflexivity | split; [reflexivity | split; [exact H | ]]].
  apply (roundToSignificantDigits_scale_underflow 5e-324 2);
    [reflexivity | reflexivity | lia | exact H].
Defined.

(** ** The values of a scale *)

Lemma SameValueZero_refl x : SameValueZero x x = true.
Proof.
  unfold SameValueZero. rewrite is_nan_spec, eqb_spec. unfold SFeqb.
  destruct (Prim2SF x) as [s | s | | s m e]; try reflexivity.
  - destruct s; reflexivity.
  - rewrite SFcompare_refl_finite. reflexivity.
Qed.

Lemma SameValueZero_key_refl x : SameValueZero (Set_key x) x = true.
Proof. rewrite SameValueZero_sym, SameValueZero_key. apply SameValueZero_refl. Qed.

Lemma Set_add_keeps x s y : In y s -> In y (Set_add x s).
Proof.
  induction s as [ | a s IH]; cbn [Set_add]; [contradiction | ].
  destruct (SameValueZero a x); [tauto | ].
  cbn [In]. intros [H | H]; [left; exact H | right; apply IH, H].
Qed.

Lemma Set_add_holds x s :
  exists z, In z (Set_add x s) /\ SameValueZero z x = true.
Proof.
  induction s as [ | a s IH]; cbn [Set_add].
  - exists (Set_key x). split; [left; reflexivity | apply SameValueZero_key_refl].
  - destruct (SameValueZero a x) eqn:E.
    + exists a. split; [left; reflexivity | exact E].
    + destruct IH as [z [Hz Ez]]. exists z. split; [right; exact Hz | exact Ez].
Qed.

Lemma Set_add_from x s z :
  In z (Set_add x s) -> In z s \/ z = Set_key x.
Proof.
  induction s as [ | a s IH]; cbn [Set_add].
  - cbn [In]. intros [H | H]; [right; symmetry; exact H | contradiction].
  - destruct (SameValueZero a x); [tauto | ].
    cbn [In]. intros [H | H]; [left; left; exact H | ].
    destruct (IH H); tauto.
Qed.

Lemma Set_add_length x s :
  (length s <= length (Set_add x s) <= S (length s))%nat.
Proof.
  induction s as [ | a s IH]; cbn [Set_add].
  - simpl. lia.
  - destruct (SameValueZero a x); cbn [length]; lia.
Qed.

Lemma Set_fold_spec (xs : list number) :
  forall s,
    let r := fold_left (fun s x => Set_add x s) xs s in
    (forall y, In y s -> In y r)
    /\ (forall p, In p xs -> exists z, In z r /\ SameValueZero z p = true)
    /\ (forall z, In z r -> In z s \/ exists p, In p xs /\ z = Set_key p)
    /\ (length s <= length r <= length s + length xs)%nat.
Proof.
  induction xs as [ | x xs IH]; intros s; cbn [fold_left].
  - cbv zeta. repeat split; try tauto; try (cbn [length]; lia).
    intros p [].
  - destruct (IH (Set_add x s)) as (K & H & F & L). cbv zeta.
    pose proof (Set_add_length x s) as L'.
    repeat split.
    + intros y Hy. apply K, Set_add_keeps, Hy.
    + intros p [<- | Hp]; [ | apply H, Hp].
      destruct (Set_add_holds x s) as [z [Hz Ez]].
      exists z. split; [apply K, Hz | exact Ez].
    + intros z Hz. destruct (F z Hz) as [Hs | [p [Hp E]]].
      * destruct (Set_add_from _ _ _ Hs) as [H1 | H1]; [left; exact H1 | ].
        right. exists x. split; [left; reflexivity | exact H1].
      * right. exists p. split; [right; exact Hp | exact E].
    + lia.
    + cbn [length]. lia.
Qed.

Lemma Set_of_holds points p :
  In p points -> exists z, In z (Set_of points) /\ SameValueZero z p = true.
Proof. intros H. apply (Set_fold_spec points []), H. Qed.

Lemma Set_of_from points z :
  In z (Set_of points) -> exists p, In p points /\ z = Set_key p.
Proof.
  intros H. destruct (Set_fold_spec points []) as (_ & _ & F & _).
  destruct (F z H) as [[] | E]. exact E.
Qed.

Lemma Set_of_length points :
  (length (Set_of points) <= length points)%nat
  /\ (points <> [] -> Set_of points <> []).
Proof.
  destruct (Set_fold_spec points []) as (_ & H & _ & L). cbv zeta in *.
  fold (Set_of points) in *. cbn [length] in L. split; [lia | ].
  destruct points as [ | p points]; [congruence | ].
  intros _ E. destruct (H p (or_introl eq_refl)) as [z [Hz _]].
  rewrite E in Hz. exact Hz.
Qed.

Lemma sort_insert_length comparefn x l :
  length (sort_insert comparefn x l) = S (length l).
Proof.
  induction l as [ | y l IH]; cbn [sort_insert]; [reflexivity | ].
  destruct (comparefn x y <? 0); cbn [length]; [reflexivity | ].
  rewrite IH. reflexivity.
Qed.

Lemma Array_sort_length comparefn xs :
  length (Array_sort comparefn xs) = length xs.
Proof.
  unfold Array_sort.
  assert (H : forall sorted,
             length (fold_left (fun sorted x => sort_insert comparefn x sorted)
                       xs sorted)
             = (length sorted + length xs)%nat).
  { induction xs as [ | x xs IH]; intros sorted; cbn [fold_left length].
    - lia.
    - rewrite IH, sort_insert_length. lia. }
  rewrite H. reflexivity.
Qed.

(** The points behind a returned scale. *)
Lemma generateScale_points_of fuel start end_ options scale :
  generateScale fuel start end_ options = Return scale ->
  exists points,
    generateScale_points fuel start end_
      (or_default (progression options) friendly)
      (or_default (rounding options) friendlyRounding)
      (or_default (significantDigits options) 2%Z)
      (or_default (steps options) 10%Z)
      (or_default (includeStart options) true)
      (or_default (includeEnd options) true) = Return points
    /\ scale = Array_sort PrimFloat.sub (Set_of points).
Proof.
  unfold generateScale. destruct (geb start end_); [discriminate | ].
  destruct (generateScale_points _ _ _ _ _ _ _ _ _) as [points | message | ];
    [ | discriminate | discriminate].
  intros H. injection H as <-. exists points. split; reflexivity.
Qed.

(** An iteration of the friendly loop that is followed by a return has
    pushed its value. *)
Lemma friendly_loop_step fuel end_ includeEnd current scale result :
  (current <? end_) = true ->
  friendly_loop (S fuel) end_ includeEnd current scale = Return result ->
  friendly_loop fuel end_ includeEnd (friendly_next current)
    (if friendly_next current <? end_ then scale ++ [friendly_next current]
     else if includeEnd then scale ++ [roundToFriendlyNumber end_]
     else scale)
  = Return result.
Proof.
  intros Hlt. cbn [friendly_loop]. rewrite Hlt. unfold Array_push.
  destruct (friendly_next current <? end_); [ | destruct includeEnd];
    try (intros H; exact H);
    destruct (Z.of_nat (length scale) <? Array_max_length)%Z;
    try discriminate; intros H; exact H.
Qed.

Lemma friendly_loop_done fuel end_ includeEnd current scale result :
  (current <? end_) = false ->
  friendly_loop fuel end_ includeEnd current scale = Return result ->
  result = scale.
Proof.
  intros Hlt. destruct fuel; cbn [friendly_loop]; rewrite Hlt;
    intros H; injection H as <-; reflexivity.
Qed.

Lemma friendly_loop_no_fuel end_ includeEnd current scale result :
  (current <? end_) = true ->
  friendly_loop 0 end_ includeEnd current scale <> Return result.
Proof. intros Hlt. cbn [friendly_loop]. rewrite Hlt. discriminate. Qed.

Lemma friendly_loop_extends fuel end_ includeEnd :
  forall current scale result,
    friendly_loop fuel end_ includeEnd current scale = Return result ->
    exists tail, result = scale ++ tail.
Proof.
  induction fuel as [ | fuel IH]; intros current scale result H;
    destruct (current <? end_) eqn:Hlt.
  - exfalso. exact (friendly_loop_no_fuel _ _ _ _ _ Hlt H).
  - apply (friendly_loop_done _ _ _ _ _ _ Hlt) in H. subst result.
    exists []. rewrite app_nil_r. reflexivity.
  - apply (friendly_loop_step _ _ _ _ _ _ Hlt), IH in H.
    destruct H as [tail ->].
    destruct (friendly_next current <? end_);
      [ | destruct includeEnd];
      rewrite <- ?app_assoc; eexists; reflexivity.
  - apply (friendly_loop_done _ _ _ _ _ _ Hlt) in H. subst result.
    exists []. rewrite app_nil_r. reflexivity.
Qed.

Lemma friendly_loop_end fuel end_ :
  forall current scale result,
    (current <? end_) = true ->
    friendly_loop fuel end_ true current scale = Return result ->
    In (roundToFriendlyNumber end_) result.
Proof.
  induction fuel as [ | fuel IH]; intros current scale result Hlt H.
  - exfalso. exact (friendly_loop_no_fuel _ _ _ _ _ Hlt H).
  - apply (friendly_loop_step _ _ _ _ _ _ Hlt) in H.
    destruct (friendly_next current <? end_) eqn:E.
    + exact (IH _ _ _ E H).
    + apply (friendly_loop_done _ _ _ _ _ _ E) in H. subst result.
      apply in_or_app; right; left; reflexivity.
Qed.

Lemma friendly_loop_Forall (P : number -> Prop) fuel end_ includeEnd :
  (forall v, P (roundToFriendlyNumber v)) ->
  forall current scale result,
    Forall P scale ->
    friendly_loop fuel end_ includeEnd current scale = Return result ->
    Forall P result.
Proof.
  intros HP.
  induction fuel as [ | fuel IH]; intros current scale result Hs H;
    destruct (current <? end_) eqn:Hlt.
  - exfalso. exact (friendly_loop_no_fuel _ _ _ _ _ Hlt H).
  - apply (friendly_loop_done _ _ _ _ _ _ Hlt) in H. subst result. exact Hs.
  - apply (friendly_loop_step _ _ _ _ _ _ Hlt) in H.
    refine (IH _ _ _ _ H).
    destruct (friendly_next current <? end_); [ | destruct includeEnd];
      try exact Hs; apply Forall_app; (split; [exact Hs | ]);
      constructor; try constructor; apply HP.
  - apply (friendly_loop_done _ _ _ _ _ _ Hlt) in H. subst result. exact Hs.
Qed.

Lemma In_Array_sort_Set_of points p :
  In p points ->
  exists x, In x (Array_sort PrimFloat.sub (Set_of points))
            /\ SameValueZero x p = true.
Proof.
  intros H. destruct (Set_of_holds _ _ H) as [z [Hz Ez]].
  exists z. split; [apply Array_sort_In, Hz | exact Ez].
Qed.

(** The points of the two counting progressions: the rounded start if
    asked for, one point for each [i] from 1 to [steps], the rounded end if
    asked for. *)
Lemma counting_points fuel start end_ p r sd st (incStart incEnd : bool) :
  p = linear \/ p = exponential ->
  generateScale_points fuel start end_ p r sd st incStart incEnd
  = Return ((if incStart then [applyRounding start r sd] else [])
          ++ map (counting_point p start end_ r sd st) (Zrange 1 st)
          ++ (if incEnd then [applyRounding end_ r sd] else [])).
Proof.
  intros [-> | ->]; unfold generateScale_points; cbv zeta.
  - rewrite (fold_left_push (counting_point linear start end_ r sd st)).
    destruct incStart, incEnd; cbn [app]; rewrite ?app_nil_r, <- ?app_assoc;
      reflexivity.
  - rewrite (fold_left_push (counting_point exponential start end_ r sd st)).
    destruct incStart, incEnd; cbn [app]; rewrite ?app_nil_r, <- ?app_assoc;
      reflexivity.
Qed.

(** A returned scale holds its bounds: with [includeStart] (the default) the
    rounded start is one of the values, and with [includeEnd] (the default)
    so is the rounded end.  The friendly progression rounds the bounds with
    roundToFriendlyNumber, the other two with the rounding of the options;
    the Set stores -0 as +0. *)
Theorem generateScale_endpoints :
  forall fuel start end_ options scale,
    generateScale fuel start end_ options = Return scale ->
    (start <? end_) = true ->
    (or_default (includeStart options) true = true ->
     exists x, In x scale
               /\ SameValueZero x (endpoint_rounding options start) = true)
    /\ (or_default (includeEnd options) true = true ->
        exists x, In x scale
                  /\ SameValueZero x (endpoint_rounding options end_) = true).
Proof.
  intros fuel start end_ options scale H Hlt.
  destruct (generateScale_points_of _ _ _ _ _ H) as [points [P ->]].
  unfold endpoint_rounding.
  destruct (or_default (progression options) friendly) eqn:Ep.
  - pose proof (counting_points fuel start end_ linear
                (or_default (rounding options) friendlyRounding)
                (or_default (significantDigits options) 2%Z)
                (or_default (steps options) 10%Z)
                (or_default (includeStart options) true)
                (or_default (includeEnd options) true)
                (or_introl eq_refl)) as E.
    rewrite E in P. injection P as <-.
    split; intros ->; apply In_Array_sort_Set_of.
    + left. reflexivity.
    + apply in_or_app. right. apply in_or_app. right. left. reflexivity.
  - pose proof (counting_points fuel start end_ exponential
                (or_default (rounding options) friendlyRounding)
                (or_default (significantDigits options) 2%Z)
                (or_default (steps options) 10%Z)
                (or_default (includeStart options) true)
                (or_default (includeEnd options) true)
                (or_intror eq_refl)) as E.
    rewrite E in P. injection P as <-.
    split; intros ->; apply In_Array_sort_Set_of.
    + left. reflexivity.
    + apply in_or_app. right. apply in_or_app. right. left. reflexivity.
  - cbn [generateScale_points] in P.
    split; intros E; rewrite E in P; apply In_Array_sort_Set_of.
    + destruct (friendly_loop_extends _ _ _ _ _ _ P) as [tail ->].
      apply in_or_app. left.
      destruct (or_default (includeEnd options) true); left; reflexivity.
    + exact (friendly_loop_end _ _ _ _ _ Hlt P).
Qed.

(** The friendly scale from 100 to 1000 holds 100 and 1000. *)
Lemma generateScale_endpoints_witness :
  generateScale 5 100 1000 default_GenerateScaleOptions
  = Return [100; 200; 500; 1000]
  /\ (100 <? 1000) = true
  /\ (exists x, In x [100; 200; 500; 1000]
                /\ SameValueZero x (roundToFriendlyNumber 100) = true)
  /\ (exists x, In x [100; 200; 500; 1000]
                /\ SameValueZero x (roundToFriendlyNumber 1000) = true).
Proof.
  assert (H : generateScale 5 100 1000 default_GenerateScaleOptions
              = Return [100; 200; 500; 1000]) by (vm_compute; reflexivity).
  assert (L : (100 <? 1000) = true) by reflexivity.
  split; [exact H | split; [exact L | ]].
  destruct (generateScale_endpoints _ _ _ _ _ H L) as [S E].
  split; [apply S | apply E]; reflexivity.
Defined.

(** The linear and the exponential progression return at most
    [steps + 2] values, one less for each bound that is left out, and at
    least one value unless no point is asked for at all. *)
Theorem generateScale_counting_length :
  forall fuel start end_ options scale,
    progression options = Some linear \/ progression options = Some exponential ->
    generateScale fuel start end_ options = Return scale ->
    (length scale <= points_bound options)%nat
    /\ ((0 < points_bound options)%nat -> scale <> []).
Proof.
  intros fuel start end_ options scale Hp H.
  destruct (generateScale_points_of _ _ _ _ _ H) as [points [P ->]].
  assert (Hp' : or_default (progression options) friendly = linear
                \/ or_default (progression options) friendly = exponential)
    by (destruct Hp as [-> | ->]; [left | right]; reflexivity).
  pose proof (counting_points fuel start end_ _
              (or_default (rounding options) friendlyRounding)
              (or_default (significantDigits options) 2%Z)
              (or_default (steps options) 10%Z)
              (or_default (includeStart options) true)
              (or_default (includeEnd options) true) Hp') as E.
  rewrite E in P. injection P as <-.
  match goal with |- context [Set_of ?l] => set (points := l) end.
  assert (L : length points = points_bound options).
  { unfold points, points_bound.
    rewrite !length_app, length_map, Zrange_length.
    replace (or_default (steps options) 10%Z - 1 + 1)%Z
      with (or_default (steps options) 10%Z) by lia.
    destruct (or_default (includeStart options) true),
      (or_default (includeEnd options) true); cbn [length]; lia. }
  destruct (Set_of_length points) as [L1 L2].
  rewrite Array_sort_length. split; [lia | ].
  intros Hpos E0.
  assert (Hne : points <> []) by (intros E1; rewrite E1 in L; simpl in L; lia).
  apply (L2 Hne).
  destruct (Set_of points); [reflexivity | ].
  apply (f_equal (@length _)) in E0. rewrite Array_sort_length in E0.
  discriminate.
Qed.

(** The linear scale from 0 to 100 with the default 10 steps holds at most
    12 values. *)
Lemma generateScale_counting_length_witness :
  exists scale,
    generateScale 0 0 100 (default_options_with linear None) = Return scale
    /\ (length scale <= 12)%nat.
Proof.
  eexists.
  assert (H : generateScale 0 0 100 (default_options_with linear None)
              = Return _) by (vm_compute; reflexivity).
  split; [exact H | ].
  apply (generateScale_counting_length 0 0 100
           (default_options_with linear None) _ (or_introl eq_refl) H).
Defined.

(** The friendly progression reads neither [rounding] nor
    [significantDigits] nor [steps]: whatever these three options are, the
    outcome is the same, and every value of the scale is an output of
    roundToFriendlyNumber, also with [rounding: 'none']. *)
Theorem generateScale_friendly_ignores_rounding :
  forall fuel start end_ options r sd st,
    or_default (progression options) friendly = friendly ->
    generateScale fuel start end_ (with_rounding options r sd st)
    = generateScale fuel start end_ options
    /\ forall scale,
        generateScale fuel start end_ options = Return scale ->
        forall x, In x scale -> exists v, x = roundToFriendlyNumber v.
Proof.
  intros fuel start end_ options r sd st Hp. split.
  - unfold generateScale, with_rounding. cbn [progression includeStart includeEnd].
    rewrite Hp. reflexivity.
  - intros scale H x Hx.
    destruct (generateScale_points_of _ _ _ _ _ H) as [points [P ->]].
    rewrite Hp in P. cbn [generateScale_points] in P.
    apply Array_sort_In, Set_of_from in Hx. destruct Hx as [p [Hp' ->]].
    assert (F : Forall (fun x => exists v, x = roundToFriendlyNumber v) points).
    { eapply friendly_loop_Forall; [ | | exact P].
      - intros v. exists v. reflexivity.
      - destruct (or_default (includeStart options) true); repeat constructor.
        exists start. reflexivity. }
    rewrite Forall_forall in F. destruct (F p Hp') as [v ->].
    unfold Set_key. destruct (roundToFriendlyNumber v =? 0).
    + exists 0. reflexivity.
    + exists v. reflexivity.
Qed.

(** The friendly scale from 100 to 1000 with [rounding: 'none']. *)
Lemma generateScale_friendly_ignores_rounding_witness :
  generateScale 5 100 1000
    (with_rounding default_GenerateScaleOptions (Some none) None None)
  = generateScale 5 100 1000 default_GenerateScaleOptions.
Proof.
  apply (generateScale_friendly_ignores_rounding 5 100 1000
           default_GenerateScaleOptions (Some none) None None).
  reflexivity.
Defined.

Lemma nan_ltb_l (x y : number) : is_nan x = true -> (x <? y) = false.
Proof.
  rewrite is_nan_spec, ltb_spec. destruct (Prim2SF x); try discriminate.
  reflexivity.
Qed.

Lemma nan_ltb_r (x y : number) : is_nan y = true -> (x <? y) = false.
Proof.
  rewrite is_nan_spec, ltb_spec. destruct (Prim2SF y); try discriminate.
  destruct (Prim2SF x) as [s | s | | s m e]; try reflexivity;
    destruct s; reflexivity.
Qed.

Lemma nan_geb (x y : number) :
  is_nan x = true \/ is_nan y = true -> geb x y = false.
Proof.
  unfold geb. rewrite !is_nan_spec, leb_spec. intros [H | H].
  - destruct (Prim2SF x); try discriminate.
    destruct (Prim2SF y) as [s | s | | s m e]; try reflexivity;
      destruct s; reflexivity.
  - destruct (Prim2SF y); try discriminate. reflexivity.
Qed.

(** A bound that is NaN is not rejected.  With the friendly progression the
    loop then does not run at all: the scale is the rounded start alone
    (NaN when the start is NaN), or empty without [includeStart], and the
    end is left out even with [includeEnd]. *)
Theorem generateScale_nan_bound :
  forall fuel start end_ options,
    is_nan start = true \/ is_nan end_ = true ->
    or_default (progression options) friendly = friendly ->
    generateScale fuel start end_ options
    = Return (if or_default (includeStart options) true
              then [Set_key (roundToFriendlyNumber start)]
              else []).
Proof.
  intros fuel start end_ options Hn Hp. unfold generateScale.
  rewrite (nan_geb _ _ Hn), Hp. cbn [generateScale_points].
  assert (L : (start <? end_) = false)
    by (destruct Hn as [Hn | Hn]; [apply nan_ltb_l | apply nan_ltb_r]; exact Hn).
  destruct fuel; cbn [friendly_loop]; rewrite L;
    destruct (or_default (includeStart options) true); reflexivity.
Qed.

(** generateScale(100, NaN) is the rounded start alone. *)
Lemma generateScale_nan_bound_witness :
  is_nan nan = true
  /\ generateScale 0 100 nan default_GenerateScaleOptions
     = Return [Set_key (roundToFriendlyNumber 100)].
Proof.
  split; [reflexivity | ].
  apply (generateScale_nan_bound 0 100 nan default_GenerateScaleOptions);
    [right; reflexivity | reflexivity].
Defined.

(** generateScaleFromBaseline never returns an empty scale: for a [count]
    of 1, of 0 or below, it returns the rounded baseline alone. *)
Theorem generateScaleFromBaseline_small_count :
  forall baseline count options,
    (count <= 1)%Z ->
    generateScaleFromBaseline baseline count options
    = [applyRounding baseline
         (or_default (rounding options) friendlyRounding)
         (or_default (significantDigits options) 2%Z)].
Proof.
  intros baseline count options H. unfold generateScaleFromBaseline.
  assert (E : Zrange 1 (count - 1) = []).
  { unfold Zrange. replace (Z.to_nat (count - 1 - 1 + 1)) with O by lia.
    reflexivity. }
  rewrite E.
  destruct (or_default (progression options) friendly); reflexivity.
Qed.

(** A count of -3 gives the rounded baseline alone. *)
Lemma generateScaleFromBaseline_small_count_witness :
  (-3 <= 1)%Z
  /\ generateScaleFromBaseline 10 (-3) default_GenerateScaleOptions
     = [applyRounding 10 friendlyRounding 2].
Proof.
  split; [lia | ].
  apply (generateScaleFromBaseline_small_count 10 (-3)
           default_GenerateScaleOptions).
  lia.
Defined.

(** ** The values of a friendly scale *)

Lemma friendly_loop_invariant (P : number -> Prop) fuel end_ includeEnd :
  (forall current,
     (friendly_next current <? end_) = true -> P (friendly_next current)) ->
  (includeEnd = true -> P (roundToFriendlyNumber end_)) ->
  forall current scale result,
    Forall P scale ->
    friendly_loop fuel end_ includeEnd current scale = Return result ->
    Forall P result.
Proof.
  intros Hnext Hend.
  induction fuel as [ | fuel IH]; intros current scale result Hs H;
    destruct (current <? end_) eqn:Hlt.
  - exfalso. exact (friendly_loop_no_fuel _ _ _ _ _ Hlt H).
  - apply (friendly_loop_done _ _ _ _ _ _ Hlt) in H. subst result. exact Hs.
  - apply (friendly_loop_step _ _ _ _ _ _ Hlt) in H.
    refine (IH _ _ _ _ H).
    destruct (friendly_next current <? end_) eqn:E; [ | destruct includeEnd];
      try exact Hs; apply Forall_app; (split; [exact Hs | ]);
      constructor; try constructor; [apply Hnext, E | apply Hend; reflexivity].
  - apply (friendly_loop_done _ _ _ _ _ _ Hlt) in H. subst result. exact Hs.
Qed.

Lemma Set_key_ltb (x y : number) : (Set_key x <? y) = (x <? y).
Proof.
  unfold Set_key. destruct (x =? 0) eqn:E; [ | reflexivity].
  rewrite eqb_zero_spec in E. rewrite !ltb_spec.
  change (Prim2SF 0) with (S754_zero false).
  destruct (Prim2SF x) as [s | s | | s m e]; try discriminate.
  destruct (Prim2SF y) as [sy | sy | | sy my ey]; reflexivity.
Qed.

(** The values of a friendly scale: apart from the two rounded bounds,
    every value is below [end].  The rounded bounds themselves can lie
    outside the range, since roundToFriendlyNumber rounds upward in
    magnitude: generateScale(60, 70) is [100]. *)
Theorem generateScale_friendly_below_end :
  forall fuel start end_ options scale,
    or_default (progression options) friendly = friendly ->
    generateScale fuel start end_ options = Return scale ->
    (forall x, In x scale ->
       x = Set_key (roundToFriendlyNumber start)
       \/ x = Set_key (roundToFriendlyNumber end_)
       \/ (x <? end_) = true)
    /\ generateScale 2 60 70 default_GenerateScaleOptions = Return [100].
Proof.
  intros fuel start end_ options scale Hp H. split; [ | vm_compute; reflexivity].
  intros x Hx.
  destruct (generateScale_points_of _ _ _ _ _ H) as [points [P ->]].
  rewrite Hp in P. cbn [generateScale_points] in P.
  apply Array_sort_In, Set_of_from in Hx. destruct Hx as [p [Hp' ->]].
  assert (F : Forall (fun x => x = roundToFriendlyNumber start
                               \/ x = roundToFriendlyNumber end_
                               \/ (x <? end_) = true) points).
  { eapply friendly_loop_invariant; [ | | | exact P].
    - intros current E. right. right. exact E.
    - intros _. right. left. reflexivity.
    - destruct (or_default (includeStart options) true); constructor;
        [left; reflexivity | constructor]. }
  rewrite Forall_forall in F.
  destruct (F p Hp') as [-> | [-> | E]]; [tauto | tauto | ].
  right. right. rewrite Set_key_ltb. exact E.
Qed.

(** The friendly scale from 100 to 1000. *)
Lemma generateScale_friendly_below_end_witness :
  generateScale 5 100 1000 default_GenerateScaleOptions
  = Return [100; 200; 500; 1000]
  /\ forall x, In x [100; 200; 500; 1000] ->
       x = Set_key (roundToFriendlyNumber 100)
       \/ x = Set_key (roundToFriendlyNumber 1000)
       \/ (x <? 1000) = true.
Proof.
  assert (H : generateScale 5 100 1000 default_GenerateScaleOptions
              = Return [100; 200; 500; 1000]) by (vm_compute; reflexivity).
  split; [exact H | ].
  apply (generateScale_friendly_below_end 5 100 1000
           default_GenerateScaleOptions _ eq_refl H).
Defined.

Lemma xorb_negb_r a b : xorb a (negb b) = negb (xorb a b).
Proof. destruct a, b; reflexivity. Qed.

Lemma SFmul_opp_r x y :
  SF64mul x (SFopp y) = SFopp (SF64mul x y).
Proof.
  unfold SF64mul.
  destruct x as [sx | sx | | sx mx ex], y as [sy | sy | | sy my ey];
    cbn [SFopp SFmul]; rewrite ?xorb_negb_r; try reflexivity.
  apply binary_round_aux_opp.
Qed.

Lemma mul_opp_r (x y : number) : x * (- y) = - (x * y).
Proof.
  apply Prim2SF_inj. rewrite mul_spec, !opp_spec, mul_spec.
  apply SFmul_opp_r.
Qed.

(** Changing the sign of both the value and the ratio changes nothing:
    the product is the same double and the number of significant digits of
    the value is the same, so scaleNumber(-value, -ratio) is
    scaleNumber(value, ratio) under every option. *)
Theorem scaleNumber_opp_opp :
  forall value ratio options,
    scaleNumber (- value) (- ratio) options = scaleNumber value ratio options.
Proof.
  intros value ratio options. unfold scaleNumber.
  rewrite mul_opp_l, mul_opp_r, opp_involutive, countSignificantDigits_opp.
  reflexivity.
Qed.

(** ** The exponential progression from a start that is not positive *)







(** ** The friendly progression from a baseline *)

Lemma friendly_baseline_fold (r : ScaleRounding) (sd : Z) (baseline : number)
  (l : list Z) :
  forall (j : nat) (scale : list number),
    fold_left
      (fun (st : number * Z * list number) (i : Z) =>
         let '(current, multiplierIndex, scale) := st in
         let current :=
           current *
           nth (Z.to_nat (multiplierIndex mod Z.of_nat (length [2; 2.5; 2])))
               [2; 2.5; 2] nan in
         (current, (multiplierIndex + 1)%Z,
          scale ++ [applyRounding current r sd]))
      l (baseline_current j baseline, Z.of_nat j, scale)
    = (baseline_current (j + length l) baseline, Z.of_nat (j + length l),
       scale
       ++ map (fun t => applyRounding (baseline_current t baseline) r sd)
            (seq (S j) (length l))).
Proof.
  induction l as [ | i l IH]; intros j scale.
  - cbn [fold_left length seq map]. rewrite Nat.add_0_r, app_nil_r. reflexivity.
  - cbn [fold_left length seq map].
    replace (Z.to_nat (Z.of_nat j mod Z.of_nat 3)) with (j mod 3)%nat
      by (rewrite <- Nat2Z.inj_mod, Nat2Z.id; reflexivity).
    change (baseline_current j baseline * nth (j mod 3) [2; 2.5; 2] nan)
      with (baseline_current (S j) baseline).
    replace (Z.of_nat j + 1)%Z with (Z.of_nat (S j)) by lia.
    rewrite IH, <- app_assoc. cbn [app].
    replace (S j + length l)%nat with (j + S (length l))%nat by lia.
    reflexivity.
Qed.

(** The friendly progression of generateScaleFromBaseline (the default)
    multiplies a running value by 2, 2.5 and 2 in turn, starting from the
    baseline, and returns the rounding of each running value: the rounded
    values are not fed back into the progression. *)
Theorem generateScaleFromBaseline_friendly :
  forall baseline count options i,
    or_default (progression options) friendly = friendly ->
    (0 <= i < Z.max 1 count)%Z ->
    nth (Z.to_nat i) (generateScaleFromBaseline baseline count options) nan
    = applyRounding (baseline_current (Z.to_nat i) baseline)
        (or_default (rounding options) friendlyRounding)
        (or_default (significantDigits options) 2%Z).
Proof.
  intros baseline count options i Hp Hi. unfold generateScaleFromBaseline.
  rewrite Hp. cbv zeta.
  rewrite (friendly_baseline_fold _ _ baseline (Zrange 1 (count - 1)) 0
             [applyRounding baseline _ _]).
  cbn [snd]. rewrite Zrange_length.
  replace (count - 1 - 1 + 1)%Z with (count - 1)%Z by lia.
  destruct (Z.to_nat i) as [ | k] eqn:Ek; [reflexivity | ].
  cbn [app nth].
  rewrite (nth_indep _ nan
             (applyRounding (baseline_current 0 baseline)
                (or_default (rounding options) friendlyRounding)
                (or_default (significantDigits options) 2%Z)))
    by (rewrite length_map, length_seq; lia).
  rewrite (map_nth (fun t => applyRounding (baseline_current t baseline) _ _)).
  rewrite seq_nth by lia. reflexivity.
Qed.

(** The value at index 3 of the friendly scale from 100. *)
Lemma generateScaleFromBaseline_friendly_witness :
  (0 <= 3 < Z.max 1 5)%Z
  /\ nth (Z.to_nat 3) (generateScaleFromBaseline 100 5 default_GenerateScaleOptions) nan
     = applyRounding (((100 * 2) * 2.5) * 2) friendlyRounding 2.
Proof.
  split; [lia | ].
  apply (generateScaleFromBaseline_friendly 100 5 default_GenerateScaleOptions 3);
    [reflexivity | lia].
Defined.

(** ** formatFriendlyNumber *)


Lemma SFcompare_finite_Eq s1 m1 e1 s2 m2 e2 :
  SFcompare (S754_finite s1 m1 e1) (S754_finite s2 m2 e2) = Some Eq <->
  s1 = s2 /\ e1 = e2 /\ m1 = m2.
Proof.
  cbn [SFcompare]. fold (Pos.compare m1 m2).
  destruct s1, s2; try (split; [discriminate | intros (? & _); discriminate]);
    destruct (Z.compare_spec e1 e2) as [E | E | E];
    destruct (Pos.compare_spec m1 m2) as [E' | E' | E']; cbn [CompOpp];
    split; intros H; try reflexivity; try discriminate;
    try (destruct H as (_ & ? & ?); lia);
    repeat split; try assumption; try lia.
Qed.

Lemma SFleb_trans x y z :
  SFleb x y = true -> SFleb y z = true -> SFleb x z = true.
Proof.
  unfold SFleb.
  destruct (SFcompare x y) as [[ | | ] | ] eqn:Exy; try discriminate;
    destruct (SFcompare y z) as [[ | | ] | ] eqn:Eyz; try discriminate;
    intros _ _;
    (assert (E : SFcompare x z = Some Lt \/ SFcompare x z = Some Eq);
     [ | destruct E as [E | E]; rewrite E; reflexivity]);
    destruct x as [sx | sx | | sx mx ex], y as [sy | sy | | sy my ey],
      z as [sz | sz | | sz mz ez];
    try discriminate;
    try (destruct sx, sy, sz; cbn in *; (tauto || congruence));
    rewrite ?SFcompare_finite_Lt, ?SFcompare_finite_Eq in *;
    destruct sx, sy, sz; try tauto; try lia;
    repeat match goal with H : _ /\ _ |- _ => destruct H end;
    try discriminate; subst; try tauto; try lia.
Qed.

Lemma geb_trans (t x y : number) :
  geb x t = true -> (x <=? y) = true -> geb y t = true.
Proof. unfold geb. rewrite !leb_spec. apply SFleb_trans. Qed.

(** getIntelligentMaxDecimals returns between 0 and 4 decimals, and 1 or 2
    in compact notation; it looks at the absolute value only; and for NaN,
    which passes none of the thresholds, it returns the most decimals: 4,
    or 2 in compact notation. *)
Theorem getIntelligentMaxDecimals_range :
  forall value compact,
    (0 <= formatting.getIntelligentMaxDecimals value compact <= 4)%Z
    /\ (compact = true ->
        (1 <= formatting.getIntelligentMaxDecimals value compact <= 2)%Z)
    /\ formatting.getIntelligentMaxDecimals (- value) compact
       = formatting.getIntelligentMaxDecimals value compact
    /\ (is_nan value = true ->
        formatting.getIntelligentMaxDecimals value compact
        = if compact then 2%Z else 4%Z).
Proof.
  intros value compact. split; [ | split; [ | split]].
  - unfold formatting.getIntelligentMaxDecimals.
    destruct compact;
      repeat match goal with |- context [geb ?a ?b] => destruct (geb a b) end;
      lia.
  - intros ->. unfold formatting.getIntelligentMaxDecimals.
    repeat match goal with |- context [geb ?a ?b] => destruct (geb a b) end;
      lia.
  - unfold formatting.getIntelligentMaxDecimals, Math_abs.
    rewrite abs_opp. reflexivity.
  - rewrite is_nan_spec. intros H.
    destruct (Prim2SF value) eqn:E; try discriminate.
    rewrite (nan_inv _ E). destruct compact; reflexivity.
Qed.

(** Outside compact notation the automatic decimals never grow with the
    magnitude: a value that is at least as large in absolute value gets at
    most as many decimals. *)
Theorem getIntelligentMaxDecimals_antitone :
  forall x y,
    (Math_abs x <=? Math_abs y) = true ->
    (formatting.getIntelligentMaxDecimals y false
     <= formatting.getIntelligentMaxDecimals x false)%Z.
Proof.
  intros x y H. unfold formatting.getIntelligentMaxDecimals.
  pose proof (fun t Hx => geb_trans t _ _ Hx H) as T.
  destruct (geb (Math_abs x) 1000) eqn:E1; [rewrite (T _ E1); lia | ].
  destruct (geb (Math_abs x) 100) eqn:E2;
    [rewrite (T _ E2); destruct (geb (Math_abs y) 1000); lia | ].
  destruct (geb (Math_abs x) 10) eqn:E3;
    [rewrite (T _ E3);
     destruct (geb (Math_abs y) 1000), (geb (Math_abs y) 100); lia | ].
  destruct (geb (Math_abs x) 1) eqn:E4;
    [rewrite (T _ E4);
     destruct (geb (Math_abs y) 1000), (geb (Math_abs y) 100),
       (geb (Math_abs y) 10); lia | ].
  destruct (geb (Math_abs x) 0.01) eqn:E5;
    [rewrite (T _ E5);
     destruct (geb (Math_abs y) 1000), (geb (Math_abs y) 100),
       (geb (Math_abs y) 10), (geb (Math_abs y) 1); lia | ].
  destruct (geb (Math_abs y) 1000), (geb (Math_abs y) 100),
    (geb (Math_abs y) 10), (geb (Math_abs y) 1), (geb (Math_abs y) 0.01); lia.
Qed.

(** 12.34 against -1234.56. *)
Lemma getIntelligentMaxDecimals_antitone_witness :
  (Math_abs 12.34 <=? Math_abs (-1234.56)) = true
  /\ Z.le (formatting.getIntelligentMaxDecimals (-1234.56) false)
          (formatting.getIntelligentMaxDecimals 12.34 false).
Proof.
  split; [reflexivity | ].
  apply (getIntelligentMaxDecimals_antitone 12.34 (-1234.56)). reflexivity.
Defined.

(** How resolveDisplayOptions chooses the notation: standard exactly when
    [display] is 'standard' or left out; scientific exactly when [display]
    is 'short', there is neither a currency nor a unit (an empty string
    counts as none) and the value lies strictly between 0 and 1 in absolute
    value; compact in every other case, and then, and only then, with a
    compact display, which is 'long' for [display: 'long'] and 'short'
    otherwise. *)
Theorem resolveDisplayOptions_notation :
  forall display currency unit code accounting value,
    let r := formatting.resolveDisplayOptions display currency unit code
               accounting value in
    (formatting.notation r = Intl.notation_standard
     <-> display = None \/ display = Some formatting.standard)
    /\ (formatting.notation r = Intl.notation_scientific
        <-> display = Some formatting.short
            /\ formatting.truthy currency = false
            /\ formatting.truthy unit = false
            /\ exists v, value = Some v
                         /\ (0 <? Math_abs v) = true
                         /\ (Math_abs v <? 1) = true)
    /\ formatting.notation r <> Intl.notation_engineering
    /\ formatting.compactDisplay r
       = match formatting.notation r, display with
         | Intl.notation_compact, Some formatting.long => Some Intl.compact_long
         | Intl.notation_compact, _ => Some Intl.compact_short
         | _, _ => None
         end.
Proof.
  intros display currency unit code accounting value. cbv zeta.
  unfold formatting.resolveDisplayOptions.
  destruct display as [[ | | ] | ], (formatting.truthy currency) eqn:Ec,
    (formatting.truthy unit) eqn:Eu, code, accounting;
    cbn [negb andb];
    (destruct value as [v | ];
     [destruct (0 <? Math_abs v) eqn:E0, (Math_abs v <? 1) eqn:E1 | ]);
    cbn [andb formatting.notation formatting.compactDisplay
         formatting.result_with_notation formatting.result_with_compactDisplay
         formatting.result_with_currencyDisplay formatting.result_with_currencySign
         formatting.result_with_unitDisplay];
    (split; [ | split; [ | split]]);
    try reflexivity; try discriminate;
    try (split; [discriminate | ]);
    try (split; [intros _ | reflexivity]);
    try (intros [H | H]; discriminate);
    try (left; reflexivity); try (right; reflexivity);
    try (intros (H1 & H2 & H3 & v' & H4 & H5 & H6); congruence);
    try (repeat split; try reflexivity; eexists; repeat split; eassumption).
Qed.

(** Currency, unit and accounting in resolveDisplayOptions: a currency
    display is set exactly when there is a currency, and it is 'code'
    whenever [code] is set; a unit display is set exactly when there is a
    unit and no currency, so a currency silences the unit; the accounting
    sign is set exactly when there is a currency and [accounting] is set;
    an empty string counts as no currency and no unit. *)
Theorem resolveDisplayOptions_currency_unit :
  forall display currency unit code accounting value,
    let r := formatting.resolveDisplayOptions display currency unit code
               accounting value in
    (formatting.currencyDisplay r <> None
     <-> formatting.truthy currency = true)
    /\ (formatting.truthy currency = true -> code = true ->
        formatting.currencyDisplay r = Some Intl.currency_code)
    /\ (formatting.unitDisplay r <> None
        <-> formatting.truthy currency = false
            /\ formatting.truthy unit = true)
    /\ formatting.currencySign r
       = (if formatting.truthy currency && accounting
          then Some Intl.currencySign_accounting else None)
    /\ formatting.truthy (Some ""%string) = false.
Proof.
  intros display currency unit code accounting value. cbv zeta.
  unfold formatting.resolveDisplayOptions.
  destruct display as [[ | | ] | ], (formatting.truthy currency) eqn:Ec,
    (formatting.truthy unit) eqn:Eu, code, accounting;
    cbn [negb andb];
    (destruct value as [v | ];
     [destruct (0 <? Math_abs v) eqn:E0, (Math_abs v <? 1) eqn:E1 | ]);
    cbn [andb formatting.notation formatting.compactDisplay
         formatting.currencyDisplay formatting.unitDisplay
         formatting.currencySign
         formatting.result_with_notation formatting.result_with_compactDisplay
         formatting.result_with_currencyDisplay formatting.result_with_currencySign
         formatting.result_with_unitDisplay];
    repeat split; try reflexivity; try discriminate; try congruence;
    try (intros [? ?]; discriminate).
Qed.

Lemma formatFriendlyNumber_call_steps value options :
  formatting.formatFriendlyNumber_call value options
  = {| formatting.call_locales :=
         or_default (formatting.locale options) (formatting.tag "en-US");
       formatting.call_options :=
         assign_decimals
           (or_default (formatting.decimals options) formatting.auto)
           (auto_decimals
              (guarded_rounding (formatting.significantDigits options) value)
              (is_compact (resolved_display value options)))
           (display_formatOptions value options);
       formatting.call_value :=
         guarded_rounding (formatting.significantDigits options) value |}.
Proof. destruct value; reflexivity. Qed.


Section Projections.
Context {B : Type} (f : Intl.NumberFormatOptions -> B).

Lemma assign_unless_keeps {A} (custom : option A) v set fo :
  (forall v o, f (set v o) = f o) ->
  f (assign_unless custom v set fo) = f fo.
Proof. intros H. unfold assign_unless. destruct (formatting.unset custom); auto. Qed.

Lemma assign_resolved_keeps {A} (resolved custom : option A) set fo :
  (forall v o, f (set v o) = f o) ->
  f (assign_resolved resolved custom set fo) = f fo.
Proof.
  intros H. unfold assign_resolved.
  destruct resolved; [destruct (formatting.unset custom) | ]; auto.
Qed.

Lemma assign_style_keeps custom currency unit percent fo :
  (forall v o, f (Intl.set_style v o) = f o) ->
  (forall v o, f (Intl.set_currency v o) = f o) ->
  (forall v o, f (Intl.set_unit v o) = f o) ->
  f (assign_style custom currency unit percent fo) = f fo.
Proof.
  intros H1 H2 H3. unfold assign_style.
  destruct (formatting.unset custom), (formatting.truthy currency),
    (formatting.truthy unit), percent; rewrite ?H2, ?H3, ?H1; reflexivity.
Qed.

Lemma assign_decimals_keeps decimals automatic fo :
  (forall v o, f (Intl.set_minimumFractionDigits v o) = f o) ->
  (forall v o, f (Intl.set_maximumFractionDigits v o) = f o) ->
  f (assign_decimals decimals automatic fo) = f fo.
Proof.
  intros H1 H2. unfold assign_decimals.
  destruct decimals as [ | n | [lo | ] [hi | ]]; cbv zeta;
    rewrite ?H1, ?H2, ?H1; reflexivity.
Qed.

End Projections.

(** Carries a projection through the assignments that do not write it. *)
Ltac keeps :=
  repeat first
    [ rewrite assign_decimals_keeps by (intros; reflexivity)
    | rewrite assign_resolved_keeps by (intros; reflexivity)
    | rewrite assign_style_keeps by (intros; reflexivity)
    | rewrite assign_unless_keeps by (intros; reflexivity) ].

(** The fraction digits that formatFriendlyNumber asks for.  With
    [decimals: 'auto'] (the default) the minimum is 0 and the maximum is the
    automatic number of decimals of the processed value, the larger of the
    two for a range; with a number both are that number; in both cases the
    fraction digits of a custom [format] are overwritten.  With
    [{ min, max }] each given bound is used and a bound left out keeps the
    custom format's value, if any. *)
Theorem formatFriendlyNumber_decimals :
  forall value options,
    let call := formatting.formatFriendlyNumber_call value options in
    let custom := or_default (formatting.format options) Intl.empty in
    let least := Intl.minimumFractionDigits (formatting.call_options call) in
    let most := Intl.maximumFractionDigits (formatting.call_options call) in
    match or_default (formatting.decimals options) formatting.auto with
    | formatting.auto =>
      least = Some 0%Z
      /\ most = Some (auto_decimals (formatting.call_value call)
                        (is_compact (resolved_display value options)))
    | formatting.fixed n => least = Some n /\ most = Some n
    | formatting.bounds lo hi =>
      least = match lo with
              | Some _ => lo
              | None => Intl.minimumFractionDigits custom
              end
      /\ most = match hi with
                | Some _ => hi
                | None => Intl.maximumFractionDigits custom
                end
    end.
Proof.
  intros value options. cbv zeta.
  rewrite formatFriendlyNumber_call_steps.
  cbn [formatting.call_options formatting.call_value].
  destruct (or_default (formatting.decimals options) formatting.auto)
    as [ | n | [lo | ] [hi | ]];
    cbn [assign_decimals Intl.minimumFractionDigits Intl.maximumFractionDigits
         Intl.set_minimumFractionDigits Intl.set_maximumFractionDigits];
    (split; try reflexivity); unfold display_formatOptions; cbv zeta; keeps;
    reflexivity.
Qed.

Lemma assign_unless_custom {A B} (f : Intl.NumberFormatOptions -> B)
  (custom : option A) v set fo :
  custom <> None -> f (assign_unless custom v set fo) = f fo.
Proof.
  intros H. unfold assign_unless. destruct custom; [reflexivity | congruence].
Qed.

Lemma assign_resolved_custom {A B} (f : Intl.NumberFormatOptions -> B)
  (resolved custom : option A) set fo :
  custom <> None -> f (assign_resolved resolved custom set fo) = f fo.
Proof.
  intros H. unfold assign_resolved.
  destruct resolved, custom; try reflexivity; congruence.
Qed.

Lemma assign_style_custom {B} (f : Intl.NumberFormatOptions -> B)
  (custom : option Intl.Style) currency unit percent fo :
  custom <> None -> f (assign_style custom currency unit percent fo) = f fo.
Proof.
  intros H. unfold assign_style. destruct custom; [reflexivity | congruence].
Qed.

(** A custom [format] wins for the notation, the sign display, the style
    and the four display fields: a field it sets reaches Intl.NumberFormat
    as it is, whatever [display], [sign], [currency], [unit], [percent],
    [code] and [accounting] say.  With a custom style the currency and the
    unit are the custom format's too, and the fields the library does not
    know are passed on. *)
Theorem formatFriendlyNumber_custom_format :
  forall value options,
    let custom := or_default (formatting.format options) Intl.empty in
    let o := formatting.call_options
               (formatting.formatFriendlyNumber_call value options) in
    (Intl.notation custom <> None -> Intl.notation o = Intl.notation custom)
    /\ (Intl.signDisplay custom <> None ->
        Intl.signDisplay o = Intl.signDisplay custom)
    /\ (Intl.style custom <> None ->
        Intl.style o = Intl.style custom
        /\ Intl.currency o = Intl.currency custom
        /\ Intl.unit o = Intl.unit custom)
    /\ (Intl.currencyDisplay custom <> None ->
        Intl.currencyDisplay o = Intl.currencyDisplay custom)
    /\ (Intl.currencySign custom <> None ->
        Intl.currencySign o = Intl.currencySign custom)
    /\ (Intl.unitDisplay custom <> None ->
        Intl.unitDisplay o = Intl.unitDisplay custom)
    /\ (Intl.compactDisplay custom <> None ->
        Intl.compactDisplay o = Intl.compactDisplay custom)
    /\ Intl.others o = Intl.others custom.
Proof.
  intros value options. cbv zeta.
  rewrite formatFriendlyNumber_call_steps. cbn [formatting.call_options].
  unfold display_formatOptions. cbv zeta.
  repeat split; try intros H; keeps;
    try (rewrite assign_unless_custom by exact H; keeps);
    try (rewrite assign_style_custom by exact H; keeps);
    try (rewrite assign_resolved_custom by exact H; keeps);
    reflexivity.
Qed.

(** A custom scientific notation against [display: 'short']. *)
Lemma formatFriendlyNumber_custom_format_witness :
  Intl.notation
    (formatting.call_options
       (formatting.formatFriendlyNumber_call (formatting.single 1234567)
          {| formatting.locale := None;
             formatting.display := Some formatting.short;
             formatting.sign := None; formatting.currency := None;
             formatting.code := None; formatting.accounting := None;
             formatting.unit := None; formatting.percent := None;
             formatting.significantDigits := None;
             formatting.decimals := None;
             formatting.format :=
               Some (Intl.set_notation (Some Intl.notation_scientific)
                       Intl.empty) |}))
  = Some Intl.notation_scientific.
Proof.
  apply (formatFriendlyNumber_custom_format (formatting.single 1234567)
           {| formatting.locale := None;
              formatting.display := Some formatting.short;
              formatting.sign := None; formatting.currency := None;
              formatting.code := None; formatting.accounting := None;
              formatting.unit := None; formatting.percent := None;
              formatting.significantDigits := None;
              formatting.decimals := None;
              formatting.format :=
                Some (Intl.set_notation (Some Intl.notation_scientific)
                        Intl.empty) |}).
  discriminate.
Defined.

(** Without a custom style, the style is 'currency' when there is a
    currency, else 'unit' when there is a unit, else 'percent' when
    [percent] is set, and otherwise left to Intl.NumberFormat's default; the
    currency or the unit is passed on with its style.  So [percent] is
    ignored whenever a currency or a unit is given, and a unit is ignored
    whenever a currency is given. *)
Theorem formatFriendlyNumber_style :
  forall value options,
    let custom := or_default (formatting.format options) Intl.empty in
    let o := formatting.call_options
               (formatting.formatFriendlyNumber_call value options) in
    Intl.style custom = None ->
    Intl.style o
    = (if formatting.truthy (formatting.currency options)
       then Some Intl.style_currency
       else if formatting.truthy (formatting.unit options)
       then Some Intl.style_unit
       else if or_default (formatting.percent options) false
       then Some Intl.style_percent
       else None)
    /\ (formatting.truthy (formatting.currency options) = true ->
        Intl.currency o = formatting.currency options)
    /\ (formatting.truthy (formatting.currency options) = false ->
        formatting.truthy (formatting.unit options) = true ->
        Intl.unit o = formatting.unit options).
Proof.
  intros value options. cbv zeta. intros H.
  rewrite formatFriendlyNumber_call_steps. cbn [formatting.call_options].
  unfold display_formatOptions. cbv zeta.
  repeat split; try intros Hc; try intros Hu; keeps;
    unfold assign_style; rewrite H; cbn [formatting.unset];
    rewrite ?Hc, ?Hu;
    repeat match goal with
           | |- context [if ?c then _ else _] => destruct c
           end;
    cbn [Intl.style Intl.currency Intl.unit Intl.set_style Intl.set_currency
         Intl.set_unit];
    keeps; try reflexivity; exact H.
Qed.

(** A currency together with [percent]. *)
Lemma formatFriendlyNumber_style_witness :
  Intl.style
    (formatting.call_options
       (formatting.formatFriendlyNumber_call (formatting.single 0.1234)
          {| formatting.locale := None; formatting.display := None;
             formatting.sign := None;
             formatting.currency := Some "USD"%string;
             formatting.code := None; formatting.accounting := None;
             formatting.unit := None; formatting.percent := Some true;
             formatting.significantDigits := None;
             formatting.decimals := None; formatting.format := None |}))
  = Some Intl.style_currency.
Proof.
  apply (formatFriendlyNumber_style (formatting.single 0.1234)
           {| formatting.locale := None; formatting.display := None;
              formatting.sign := None;
              formatting.currency := Some "USD"%string;
              formatting.code := None; formatting.accounting := None;
              formatting.unit := None; formatting.percent := Some true;
              formatting.significantDigits := None;
              formatting.decimals := None; formatting.format := None |}).
  reflexivity.
Defined.






(** With [display: 'short'] the notation is chosen from the value as it is
    given, before the rounding to [significantDigits], and from the first
    value alone for a range: a plain value strictly between 0 and 1 in
    absolute value is formatted in scientific notation even when it rounds
    to 1, as 0.96 does at one digit, and so is a range that starts with such
    a value. *)
Theorem formatFriendlyNumber_short_notation :
  forall value options,
    formatting.display options = Some formatting.short ->
    formatting.truthy (formatting.currency options) = false ->
    formatting.truthy (formatting.unit options) = false ->
    Intl.notation (or_default (formatting.format options) Intl.empty) = None ->
    let first :=
      match value with
      | formatting.single v => v
      | formatting.range start _ => start
      end in
    Intl.notation
      (formatting.call_options
         (formatting.formatFriendlyNumber_call value options))
    = Some (if (0 <? Math_abs first) && (Math_abs first <? 1)
            then Intl.notation_scientific else Intl.notation_compact).
Proof.
  intros value options Hd Hc Hu Hn. cbv zeta.
  rewrite formatFriendlyNumber_call_steps. cbn [formatting.call_options].
  unfold display_formatOptions. cbv zeta. keeps.
  unfold assign_unless. rewrite Hn.
  cbn [formatting.unset Intl.notation Intl.set_notation].
  unfold resolved_display, formatting.resolveDisplayOptions.
  rewrite Hd, Hc, Hu. cbn [negb andb].
  destruct ((0 <? Math_abs _) && (Math_abs _ <? 1)); reflexivity.
Qed.

(** 0.96 at one digit with [display: 'short']. *)
Lemma formatFriendlyNumber_short_notation_witness :
  Intl.notation
    (formatting.call_options
       (formatting.formatFriendlyNumber_call (formatting.single 0.96)
          {| formatting.locale := None;
             formatting.display := Some formatting.short;
             formatting.sign := None; formatting.currency := None;
             formatting.code := None; formatting.accounting := None;
             formatting.unit := None; formatting.percent := None;
             formatting.significantDigits := Some 1%Z;
             formatting.decimals := None; formatting.format := None |}))
  = Some Intl.notation_scientific
  /\ roundToSignificantDigits 0.96 1 = 1.
Proof.
  split; [ | vm_compute; reflexivity].
  apply (formatFriendlyNumber_short_notation (formatting.single 0.96)
           {| formatting.locale := None;
              formatting.display := Some formatting.short;
              formatting.sign := None; formatting.currency := None;
              formatting.code := None; formatting.accounting := None;
              formatting.unit := None; formatting.percent := None;
              formatting.significantDigits := Some 1%Z;
              formatting.decimals := None; formatting.format := None |});
    reflexivity.
Defined.

(** ** The number of digits of a double *)

Section IntegerLogarithm.
Local Open Scope Z_scope.

(** [10^k <= a / b] with both sides scaled by [10^n]. *)
Lemma pow10_le_shift (n k : Z) (a b : positive) :
  0 <= k + n -> 0 <= n ->
  pow10_le k a b = (10 ^ (k + n) * Zpos b <=? Zpos a * 10 ^ n).
Proof.
  intros Hk Hn. unfold pow10_le.
  assert (P : forall j, 0 <= j -> 0 < 10 ^ j) by (intros; apply Z.pow_pos_nonneg; lia).
  destruct (Z.leb_spec 0 k) as [H | H].
  - rewrite Z.pow_add_r by lia.
    pose proof (P n Hn). pose proof (P k H).
    destruct (Z.leb_spec (10 ^ k * Zpos b) (Zpos a));
      destruct (Z.leb_spec (10 ^ k * 10 ^ n * Zpos b) (Zpos a * 10 ^ n));
      try reflexivity; exfalso; nia.
  - replace n with ((k + n) + (- k)) at 2 by lia.
    rewrite (Z.pow_add_r 10 (k + n) (- k)) by lia.
    pose proof (P (k + n) Hk). pose proof (P (- k) ltac:(lia)).
    destruct (Z.leb_spec (Zpos b) (Zpos a * 10 ^ (- k)));
      destruct (Z.leb_spec (10 ^ (k + n) * Zpos b)
                  (Zpos a * (10 ^ (k + n) * 10 ^ (- k))));
      try reflexivity; exfalso; nia.
Qed.

Lemma pow10_le_down (k : Z) (a b : positive) :
  -400 <= k <= 400 -> pow10_le (k + 1) a b = true -> pow10_le k a b = true.
Proof.
  intros Hk. rewrite !(pow10_le_shift 401) by lia.
  replace (k + 1 + 401) with (Z.succ (k + 401)) by lia.
  rewrite Z.pow_succ_r by lia.
  assert (0 < 10 ^ (k + 401)) by (apply Z.pow_pos_nonneg; lia).
  intros H1. apply Z.leb_le in H1. apply Z.leb_le. nia.
Qed.

Lemma ilog10_down_spec fuel a b :
  forall k,
    ilog10_down fuel k a b = k
    \/ pow10_le (ilog10_down fuel k a b + 1) a b = false.
Proof.
  induction fuel as [ | fuel IH]; intros k; cbn [ilog10_down].
  - left. reflexivity.
  - destruct (pow10_le k a b) eqn:E; [left; reflexivity | ].
    destruct (IH (k - 1)) as [H | H].
    + right. rewrite H. replace (k - 1 + 1) with k by lia. exact E.
    + right. exact H.
Qed.

Lemma ilog10_down_range fuel a b :
  forall k, k - Z.of_nat fuel <= ilog10_down fuel k a b <= k.
Proof.
  induction fuel as [ | fuel IH]; intros k; cbn [ilog10_down].
  - lia.
  - destruct (pow10_le k a b); [lia | ].
    specialize (IH (k - 1)). lia.
Qed.

Lemma ilog10_up_spec fuel a b :
  forall k,
    pow10_le (k + Z.of_nat fuel + 1) a b = false ->
    -400 <= k -> k + Z.of_nat fuel <= 399 ->
    pow10_le (ilog10_up fuel k a b + 1) a b = false
    /\ k <= ilog10_up fuel k a b <= k + Z.of_nat fuel.
Proof.
  induction fuel as [ | fuel IH]; intros k H Hlo Hhi; cbn [ilog10_up].
  - rewrite Z.add_0_r in H. split; [exact H | lia].
  - destruct (pow10_le (k + 1) a b) eqn:E.
    + destruct (IH (k + 1)) as [H1 H2]; try lia.
      * replace (k + 1 + Z.of_nat fuel + 1) with (k + Z.of_nat (S fuel) + 1) by lia.
        exact H.
      * split; [exact H1 | lia].
    + split; [exact E | lia].
Qed.

Lemma pow10_le_up_false (k j : Z) (a b : positive) :
  -400 <= k -> k <= j <= 400 ->
  pow10_le k a b = false -> pow10_le j a b = false.
Proof.
  intros Hk Hj H.
  destruct (pow10_le j a b) eqn:E; [ | reflexivity].
  exfalso.
  assert (G : forall n : nat, pow10_le (j - Z.of_nat n) a b = true
                              \/ j - Z.of_nat n < k).
  { induction n as [ | n IH].
    - left. rewrite Z.sub_0_r. exact E.
    - destruct IH as [IH | IH]; [ | right; lia].
      destruct (Z_lt_le_dec (j - Z.of_nat (S n)) k) as [L | L]; [right; exact L | ].
      left. apply pow10_le_down; [lia | ].
      replace (j - Z.of_nat (S n) + 1) with (j - Z.of_nat n) by lia. exact IH. }
  destruct (G (Z.to_nat (j - k))) as [G1 | G1].
  - replace (j - Z.of_nat (Z.to_nat (j - k))) with k in G1 by lia. congruence.
  - lia.
Qed.

Lemma guess_ok_all :
  forallb guess_ok (Zrange (-110) 110) = true.
Proof. vm_compute. reflexivity. Qed.

Lemma guess_ok_range j : -110 <= j <= 110 -> guess_ok j = true.
Proof.
  intros H. pose proof guess_ok_all as A.
  rewrite forallb_forall in A. apply A.
  unfold Zrange. apply in_map_iff. exists (Z.to_nat (j + 110)).
  split; [lia | ]. apply in_seq. lia.
Qed.

Lemma guess_upper_bound (a b : positive) :
  let t := Z.log2 (Zpos a) - Z.log2 (Zpos b) in
  -1100 <= t <= 1100 ->
  pow10_le (t * 30103 / 100000 + 5) a b = false.
Proof.
  intros t Ht.
  assert (Hj : -110 <= t / 10 <= 110)
    by (Z.to_euclidean_division_equations; lia).
  pose proof (guess_ok_range (t / 10) Hj) as G.
  unfold guess_ok in G. cbv zeta in G.
  set (j := t / 10) in *.
  assert (Hr : 10 * j <= t <= 10 * j + 9)
    by (unfold j; Z.to_euclidean_division_equations; lia).
  set (k := t * 30103 / 100000) in *.
  set (kj := 10 * j * 30103 / 100000) in *.
  assert (Hk : kj <= k)
    by (unfold k, kj; Z.to_euclidean_division_equations; lia).
  pose proof (Z.log2_spec (Zpos a) ltac:(lia)) as [_ Ha].
  pose proof (Z.log2_spec (Zpos b) ltac:(lia)) as [Hb _].
  pose proof (Z.log2_nonneg (Zpos a)) as La.
  pose proof (Z.log2_nonneg (Zpos b)) as Lb.
  set (la := Z.log2 (Zpos a)) in *. set (lb := Z.log2 (Zpos b)) in *.
  assert (P2 : forall i, 0 <= i -> 0 < 2 ^ i)
    by (intros; apply Z.pow_pos_nonneg; lia).
  assert (P10 : forall i, 0 <= i -> 0 < 10 ^ i)
    by (intros; apply Z.pow_pos_nonneg; lia).
  unfold pow10_le.
  destruct (Z.leb_spec 0 j) as [J | J].
  - apply Z.leb_le in G.
    assert (K0 : 0 <= kj)
      by (unfold kj; Z.to_euclidean_division_equations; lia).
    assert (G' : 2 ^ (t + 1) <= 10 ^ (k + 5)).
    { etransitivity; [apply (Z.pow_le_mono_r 2 (t + 1) (10 * j + 10)); lia | ].
      etransitivity; [exact G | ].
      apply Z.pow_le_mono_r; lia. }
    destruct (Z.leb_spec 0 (k + 5)) as [K | K]; [ | lia].
    apply Z.leb_gt.
    replace (Z.succ la) with ((t + 1) + lb) in Ha by (unfold t; lia).
    rewrite Z.pow_add_r in Ha by lia.
    pose proof (P2 lb Lb). pose proof (P2 (t + 1) ltac:(lia)).
    assert (Zpos a < 2 ^ (t + 1) * Zpos b) by nia.
    nia.
  - assert (T : t + 1 <= 0) by lia.
    assert (Hab : Zpos a < Zpos b).
    { assert (2 ^ Z.succ la <= 2 ^ lb)
        by (apply Z.pow_le_mono_r; unfold t in T; lia).
      lia. }
    destruct (Z.leb_spec 0 (k + 5)) as [K | K].
    + apply Z.leb_gt. pose proof (P10 (k + 5) K). nia.
    + destruct (Z.leb_spec 0 (kj + 5)) as [Kj | Kj]; [lia | ].
      apply Z.leb_le in G. apply Z.leb_gt.
      assert (G' : 10 ^ (- (k + 5)) <= 2 ^ (- (t + 1))).
      { etransitivity;
          [apply (Z.pow_le_mono_r 10 (- (k + 5)) (- (kj + 5))); lia | ].
        etransitivity; [exact G | ].
        apply Z.pow_le_mono_r; lia. }
      replace lb with ((- (t + 1)) + Z.succ la) in Hb by (unfold t; lia).
      rewrite Z.pow_add_r in Hb by lia.
      pose proof (P2 (Z.succ la) ltac:(lia)).
      pose proof (P2 (- (t + 1)) ltac:(lia)).
      assert (Zpos a * 2 ^ (- (t + 1)) < Zpos b) by nia.
      nia.
Qed.

Lemma ilog10_upper (a b : positive) :
  -1100 <= Z.log2 (Zpos a) - Z.log2 (Zpos b) <= 1100 ->
  pow10_le (ilog10 a b + 1) a b = false.
Proof.
  intros Ht. pose proof (guess_upper_bound a b Ht) as G. cbv zeta in G.
  unfold ilog10.
  set (t := Z.log2 (Zpos a) - Z.log2 (Zpos b)) in *.
  set (k0 := t * 30103 / 100000) in *.
  assert (Hk0 : -340 <= k0 <= 340)
    by (unfold k0; Z.to_euclidean_division_equations; lia).
  pose proof (ilog10_down_range 4 a b k0) as R.
  destruct (ilog10_down_spec 4 a b k0) as [D | D].
  - rewrite D. apply ilog10_up_spec; try lia.
    replace (k0 + Z.of_nat 4 + 1) with (k0 + 5) by lia. exact G.
  - set (k1 := ilog10_down 4 k0 a b) in *.
    apply ilog10_up_spec; try lia.
    apply (pow10_le_up_false (k1 + 1)); try lia. exact D.
Qed.

Lemma decimal_digits_from_length fuel :
  forall n acc (k : nat),
    0 <= n < 10 ^ Z.of_nat (S k) ->
    (length (decimal_digits_from fuel n acc) <= length acc + S k)%nat.
Proof.
  induction fuel as [fuel IH | fuel IH | ]; intros n acc k Hn;
    cbn [decimal_digits_from]; destruct (Z.ltb_spec n 10) as [Hlt | Hge];
    try (cbn [length]; lia).
  - destruct k as [ | k]; [change (10 ^ Z.of_nat 1) with 10 in Hn; lia | ].
    etransitivity; [apply (IH _ _ k) | cbn [length]; lia].
    rewrite Nat2Z.inj_succ, Z.pow_succ_r in Hn by lia.
    Z.to_euclidean_division_equations; lia.
  - destruct k as [ | k]; [change (10 ^ Z.of_nat 1) with 10 in Hn; lia | ].
    etransitivity; [apply (IH _ _ k) | cbn [length]; lia].
    rewrite Nat2Z.inj_succ, Z.pow_succ_r in Hn by lia.
    Z.to_euclidean_division_equations; lia.
Qed.

Lemma decimal_digits_length (n : positive) :
  Zpos n < 10 ^ 17 -> (length (decimal_digits n) <= 17)%nat.
Proof.
  intros H. unfold decimal_digits.
  apply (decimal_digits_from_length n (Zpos n) [] 16). split; [lia | exact H].
Qed.

Lemma pick_bound (c f e : Z) :
  0 <= f <= 16 -> c <= 10 ^ (f + 1) ->
  Zpos (fst (if c =? 10 ^ (f + 1) then (Z.to_pos (10 ^ f), e + 1)
             else (Z.to_pos c, e))) < 10 ^ 17.
Proof.
  intros Hf Hc.
  assert (H1 : 0 < 10 ^ f) by (apply Z.pow_pos_nonneg; lia).
  assert (H2 : 10 ^ f < 10 ^ 17) by (apply Z.pow_lt_mono_r; lia).
  assert (H3 : 10 ^ (f + 1) <= 10 ^ 17) by (apply Z.pow_le_mono_r; lia).
  destruct (Z.eqb_spec c (10 ^ (f + 1))) as [E | E]; cbn [fst].
  - rewrite Z2Pos.id by exact H1. exact H2.
  - destruct c as [ | p | p]; cbn [Z.to_pos]; lia.
Qed.

Lemma scaled_candidates_bound (a b : positive) (e0 : Z) :
  -350 <= e0 <= 350 ->
  pow10_le (e0 + 1) a b = false ->
  fst (scaled_candidates a b (16 - e0)) <= 10 ^ 17.
Proof.
  intros He H. rewrite (pow10_le_shift 401) in H by lia.
  apply Z.leb_gt in H.
  assert (P10 : forall i, 0 <= i -> 0 < 10 ^ i)
    by (intros; apply Z.pow_pos_nonneg; lia).
  unfold scaled_candidates.
  set (q := 16 - e0) in *.
  set (num := if 0 <=? q then Zpos a * 10 ^ q else Zpos a).
  set (den := if 0 <=? q then Zpos b else Zpos b * 10 ^ (- q)).
  assert (Hden : 0 < den).
  { unfold den. destruct (Z.leb_spec 0 q) as [Q | Q]; [lia | ].
    pose proof (P10 (- q) ltac:(lia)). nia. }
  assert (Hlt : num < 10 ^ 17 * den).
  { unfold num, den. destruct (Z.leb_spec 0 q) as [Q | Q].
    - set (u := 385 + e0).
      assert (E1 : 10 ^ 401 = 10 ^ q * 10 ^ u)
        by (rewrite <- Z.pow_add_r by (unfold u; lia); f_equal; unfold u, q; lia).
      assert (E2 : 10 ^ (e0 + 1 + 401) = 10 ^ 17 * 10 ^ u)
        by (rewrite <- Z.pow_add_r by (unfold u; lia); f_equal; unfold u; lia).
      rewrite E1, E2 in H.
      apply (Z.mul_lt_mono_pos_r (10 ^ u)); [apply P10; unfold u; lia | ].
      replace (Zpos a * 10 ^ q * 10 ^ u)
        with (Zpos a * (10 ^ q * 10 ^ u)) by ring.
      replace (10 ^ 17 * Zpos b * 10 ^ u)
        with (10 ^ 17 * 10 ^ u * Zpos b) by ring.
      exact H.
    - set (u := - q).
      assert (E2 : 10 ^ (e0 + 1 + 401) = 10 ^ 17 * 10 ^ u * 10 ^ 401)
        by (rewrite <- !Z.pow_add_r by (unfold u; lia); f_equal; unfold u, q; lia).
      rewrite E2 in H.
      apply (Z.mul_lt_mono_pos_r (10 ^ 401)); [apply P10; lia | ].
      replace (10 ^ 17 * (Zpos b * 10 ^ u) * 10 ^ 401)
        with (10 ^ 17 * 10 ^ u * 10 ^ 401 * Zpos b) by ring.
      exact H. }
  assert (Hlo : num / den < 10 ^ 17)
    by (apply Z.div_lt_upper_bound; [exact Hden | lia]).
  destruct (2 * (num mod den) <? den); cbn [fst]; lia.
Qed.

End IntegerLogarithm.

Lemma shortest_decimal_bound (x : number) (a b : positive) (e0 : Z) :
  (-350 <= e0 <= 350)%Z ->
  pow10_le (e0 + 1) a b = false ->
  forall (todo : nat) (f : Z),
    (0 <= f)%Z -> (f + Z.of_nat todo = 16)%Z ->
    (Zpos (fst (shortest_decimal todo f x a b e0)) < 10 ^ 17)%Z.
Proof.
  intros He H.
  induction todo as [ | todo IH]; intros f Hf Hsum; cbn [shortest_decimal];
    destruct (scaled_candidates a b (f - e0)) as [c1 c2] eqn:Ec;
    destruct ((10 ^ f <=? c1)%Z && (c1 <=? 10 ^ (f + 1))%Z
              && (decimal_to_number c1 (e0 - f) =? x)) eqn:F1;
    try (apply andb_true_iff in F1; destruct F1 as [F1 _];
         apply andb_true_iff in F1; destruct F1 as [_ F1];
         apply Z.leb_le in F1; apply pick_bound; lia);
    destruct ((10 ^ f <=? c2)%Z && (c2 <=? 10 ^ (f + 1))%Z
              && (decimal_to_number c2 (e0 - f) =? x)) eqn:F2;
    try (apply andb_true_iff in F2; destruct F2 as [F2 _];
         apply andb_true_iff in F2; destruct F2 as [_ F2];
         apply Z.leb_le in F2; apply pick_bound; lia).
  - assert (f = 16%Z) by lia. subst f.
    apply pick_bound; [lia | ].
    pose proof (scaled_candidates_bound a b e0 He H) as B.
    rewrite Ec in B. exact B.
  - apply IH; lia.
Qed.

Lemma ilog10_up_range fuel a b :
  forall k, (k <= ilog10_up fuel k a b <= k + Z.of_nat fuel)%Z.
Proof.
  induction fuel as [ | fuel IH]; intros k; cbn [ilog10_up]; [lia | ].
  destruct (pow10_le (k + 1) a b); [ | lia].
  specialize (IH (k + 1)%Z). lia.
Qed.

Lemma finite_log2_range s m e :
  valid_binary (S754_finite s m e) = true ->
  let a := match e with Zpos p => (m * 2 ^ p)%positive | _ => m end in
  let b := match e with Zneg p => (2 ^ p)%positive | _ => 1%positive end in
  (-1100 <= Z.log2 (Zpos a) - Z.log2 (Zpos b) <= 1100)%Z.
Proof.
  intros V. destruct (valid_finite_bounds _ _ _ V) as (He & Hm & _).
  destruct (valid_finite_canonical _ _ _ V) as [_ B].
  apply Z.leb_le in B. change (emax - prec)%Z with 971%Z in B.
  assert (L : (0 <= Z.log2 (Zpos m) < 53)%Z).
  { split; [apply Z.log2_nonneg | ].
    apply Z.log2_lt_pow2; [lia | exact Hm]. }
  destruct e as [ | p | p]; cbv zeta.
  - change (Z.log2 1) with 0%Z. lia.
  - rewrite Pos2Z.inj_mul, Pos2Z.inj_pow, Z.log2_mul_pow2 by lia.
    change (Z.log2 1) with 0%Z. lia.
  - rewrite Pos2Z.inj_pow, Z.log2_pow2 by lia. lia.
Qed.

Lemma exponential_form_bound (x : number) s m e :
  Prim2SF x = S754_finite s m e ->
  (Zpos (fst (exponential_form x)) < 10 ^ 17)%Z.
Proof.
  intros E. unfold exponential_form. rewrite E.
  pose proof (Prim2SF_valid x) as V. rewrite E in V.
  pose proof (finite_log2_range _ _ _ V) as R. cbv zeta in R.
  set (a := match e with Zpos p => (m * 2 ^ p)%positive | _ => m end) in *.
  set (b := match e with Zneg p => (2 ^ p)%positive | _ => 1%positive end) in *.
  pose proof (ilog10_upper a b R) as U.
  assert (He : (-350 <= ilog10 a b <= 350)%Z).
  { unfold ilog10.
    set (t := (Z.log2 (Zpos a) - Z.log2 (Zpos b))%Z) in *.
    set (k0 := (t * 30103 / 100000)%Z).
    assert (-340 <= k0 <= 340)%Z
      by (unfold k0; Z.to_euclidean_division_equations; lia).
    pose proof (ilog10_down_range 4 a b k0) as D.
    set (k1 := ilog10_down 4 k0 a b) in *.
    pose proof (ilog10_up_range 4 a b k1) as G.
    lia. }
  apply shortest_decimal_bound; try assumption; lia.
Qed.

(** countSignificantDigits returns between 0 and 17, since the shortest
    decimal that identifies a double has at most 17 digits; 17 is reached,
    for instance by 0.30000000000000004; and the count depends on the
    absolute value only. *)
Theorem countSignificantDigits_range :
  forall value,
    (0 <= countSignificantDigits value <= 17)%Z
    /\ countSignificantDigits (- value) = countSignificantDigits value
    /\ countSignificantDigits 0.30000000000000004 = 17%Z.
Proof.
  intros value.
  split; [ | split; [apply countSignificantDigits_opp | vm_compute; reflexivity]].
  destruct (isFinite value) eqn:Hf;
    [ | unfold countSignificantDigits; rewrite Hf; cbn; lia].
  destruct (value =? 0) eqn:Hz;
    [unfold countSignificantDigits; rewrite Hf, Hz; cbn; lia | ].
  destruct (countSignificantDigits_finite value Hf Hz) as [E H1].
  rewrite E. split; [lia | ].
  unfold mantissa_digits.
  assert (F : exists s m e, Prim2SF (Math_abs value) = S754_finite s m e).
  { unfold Math_abs. rewrite abs_spec.
    rewrite isFinite_spec in Hf. rewrite eqb_zero_spec in Hz.
    destruct (Prim2SF value) as [s | s | | s m e]; try discriminate.
    eexists _, _, _. reflexivity. }
  destruct F as (s & m & e & F).
  pose proof (decimal_digits_length _ (exponential_form_bound _ _ _ _ F)).
  lia.
Qed.
